(** * The ship automation orchestrator (services/automation.ts)

    A shallow embedding of [AutomationOrchestrator]: its data model, the
    persistence pair [saveStates]/[loadStates], the public controls
    ([startAutomation], [stopAutomation], [pauseAutomation],
    [resumeAutomation]), the periodic [tick] with [processShipAutomation]
    and [executeAction], and the three planners.

    Conventions of the embedding.
    - A JavaScript [number] that takes part in fractional arithmetic is an
      IEEE 754 binary64 value ([PrimFloat.float]); the comparisons [<], [>],
      [>=] are the IEEE ones (false on NaN).  The counters [retries],
      [maxRetries] and [remainingSeconds] only ever hold integers, are only
      incremented, compared and printed, and are modelled by [Z].
    - The two [Map]s are [gmap]s keyed by ship symbol.  The objects stored in
      them are mutated in place by the source; since every state object is
      stored under its own [shipSymbol], an in-place mutation is an update of
      the map at that key.
    - The remote API and the clock are an explicit [World]; every call to
      [spaceTraders.*] is appended to a trace, and may resolve or reject.
    - [await] points inside one [processShipAutomation] are not interleaved
      with other callers: a turn of a tick runs to completion.  What runs
      between the turns of a tick is the matter of [Move].
    - [localStorage] always accepts the document ([setItem] does not throw)
      and holds either nothing or a document written by [saveStates].
    - A [gmap] has no insertion order; the order in which a tick visits the
      running ships is therefore not the source's, and nothing below depends
      on it. *)

From Stdlib Require Import PrimFloat ZArith.
From stdpp Require Import base option list gmap strings pretty.
From stdpp Require Import sorting.

Local Open Scope string_scope.
Local Open Scope list_scope.
Local Open Scope Z_scope.

(** ** JavaScript values *)

Module Js.

(** [s.includes(sub)] *)
Fixpoint includes (s sub : string) : bool :=
  String.prefix sub s ||
  match s with
  | EmptyString => false
  | String _ s' => includes s' sub
  end.

(** Truthiness of a string: only the empty string is falsy. *)
Definition truthy_string (s : string) : bool :=
  match s with EmptyString => false | String _ _ => true end.

(** The literal [0.9]: the binary64 value nearest to nine tenths. *)
Definition nine_tenths : float := 0x1.ccccccccccccdp-1%float.

(** [x > y] and [x >= y] on numbers. *)
Definition gt (x y : float) : bool := PrimFloat.ltb y x.
Definition ge (x y : float) : bool := PrimFloat.leb y x.

(** Truthiness of a number: [0], [-0] and [NaN] are falsy. *)
Definition truthy_number (x : float) : bool :=
  negb (PrimFloat.is_nan x || PrimFloat.is_zero x).

(** [Math.min(x, y)]: NaN if either is NaN, and [-0] is below [+0]. *)
Definition min (x y : float) : float :=
  if PrimFloat.is_nan x || PrimFloat.is_nan y then PrimFloat.nan
  else if PrimFloat.ltb x y then x
  else if PrimFloat.ltb y x then y
  else if PrimFloat.get_sign x then x else y.

(** A field declared [number] that passes through [JSON]: it holds a
    number, or [null] once a non-finite number has been stored and read
    back. *)
Inductive num : Type :=
  | Num (x : float)
  | Null.

(** [ToNumber]: [null] converts to [+0]. *)
Definition toNumber (n : num) : float :=
  match n with Num x => x | Null => 0%float end.

(** What [JSON.parse(JSON.stringify(x))] gives for a number: non-finite
    numbers are written as [null], and [-0] is written as [0]. *)
Definition json_number (x : float) : num :=
  if PrimFloat.is_nan x || PrimFloat.is_infinity x then Null
  else if PrimFloat.is_zero x then Num 0%float
  else Num x.

Definition json_num (n : num) : num :=
  match n with Num x => json_number x | Null => Null end.

(** A [Date] field.  In memory it is a [Date] object (milliseconds since
    the epoch); [JSON.stringify] writes [toISOString()], which carries the
    instant to the millisecond, and [JSON.parse] leaves that string in the
    field. *)
Inductive date : Type :=
  | DateObj (ms : Z)
  | IsoString (ms : Z).

Definition instant_ms (d : date) : Z :=
  match d with DateObj ms => ms | IsoString ms => ms end.

Definition json_date (d : date) : date := IsoString (instant_ms d).

(** What a [catch] clause can receive. *)
Inductive thrown : Type :=
  | Error (message : string)
  | NonError.

End Js.

(** ** Data model (types/api.ts, automation.ts) *)

Inductive NavStatus : Type := IN_TRANSIT | IN_ORBIT | DOCKED.

Record CargoItem : Type := {
  item_symbol : string;
  item_units : float
}.

(** The fields of [Ship] that the orchestrator reads. *)
Record Ship : Type := {
  symbol : string;
  systemSymbol : string;
  waypointSymbol : string;
  nav_status : NavStatus;
  cargo_capacity : float;
  cargo_units : float;
  inventory : list CargoItem;
  fuel_current : float;
  fuel_capacity : float;
  (** [cooldown?.remainingSeconds] *)
  cooldown : option Z;
  (** the [symbol] of every mount *)
  mounts : list string
}.

Inductive ContractType : Type := PROCUREMENT | TRANSPORT | SHUTTLE.

Record ContractDeliverGood : Type := {
  tradeSymbol : string;
  destinationSymbol : string;
  unitsRequired : float;
  unitsFulfilled : float
}.

Record Contract : Type := {
  id : string;
  contract_type : ContractType;
  accepted : bool;
  fulfilled : bool;
  (** [terms.deliver?] *)
  deliver_terms : option (list ContractDeliverGood)
}.

Inductive Behavior : Type := mining | trading | contract | idle.
Inductive Status : Type := running | paused | stopped | error.

Record StopConditions : Type := {
  maxCargo : bool;
  lowFuel : bool;
  creditLimit : bool
}.

Record MiningPolicy : Type := {
  autoSellWhenFull : bool;
  minFuelPercent : Js.num;
  maxCredits : Js.num;
  preferredMarkets : list string;
  stopConditions : StopConditions
}.

Record TradingPolicy : Type := {
  maxBuyPriceDeviation : Js.num;
  minProfitMargin : Js.num;
  reserveCredits : Js.num;
  maxDistance : Js.num
}.

Record ContractPolicy : Type := {
  autoAccept : bool;
  priorityTypes : list string;
  maxDeadlineDays : Js.num;
  minReward : Js.num
}.

Record AutomationPolicy : Type := {
  policy_mining : MiningPolicy;
  policy_trading : TradingPolicy;
  policy_contract : ContractPolicy
}.

Record AutomationState : Type := {
  shipSymbol : string;
  behavior : Behavior;
  status : Status;
  currentTask : string;
  progress : Js.num;
  lastAction : Js.date;
  errorMessage : option string;
  policy : AutomationPolicy
}.

Inductive ActionType : Type :=
  | navigate | dock | orbit | refuel | extract | survey | sell | buy | deliver.

(** The only payload the planners ever attach (to a [deliver] step). *)
Record DeliverPayload : Type := {
  p_contractId : string;
  p_tradeSymbol : string;
  p_units : float;
  p_destinationSymbol : string
}.

Record ActionStep : Type := {
  type : ActionType;
  target : option string;
  payload : option DeliverPayload;
  retries : Z;
  maxRetries : Z
}.

(** [{ type: t, retries: 0, maxRetries: n }] *)
Definition step (t : ActionType) (n : Z) : ActionStep :=
  {| type := t; target := None; payload := None; retries := 0; maxRetries := n |}.

(** [{ type: t, target: w, retries: 0, maxRetries: n }] *)
Definition step_to (t : ActionType) (w : string) (n : Z) : ActionStep :=
  {| type := t; target := Some w; payload := None; retries := 0; maxRetries := n |}.

(** Field assignments [state.f = v] and [action.retries++]. *)
Definition set_status (v : Status) (s : AutomationState) : AutomationState :=
  {| shipSymbol := shipSymbol s; behavior := behavior s; status := v;
     currentTask := currentTask s; progress := progress s;
     lastAction := lastAction s; errorMessage := errorMessage s;
     policy := policy s |}.

Definition set_currentTask (v : string) (s : AutomationState) : AutomationState :=
  {| shipSymbol := shipSymbol s; behavior := behavior s; status := status s;
     currentTask := v; progress := progress s;
     lastAction := lastAction s; errorMessage := errorMessage s;
     policy := policy s |}.

Definition set_progress (v : Js.num) (s : AutomationState) : AutomationState :=
  {| shipSymbol := shipSymbol s; behavior := behavior s; status := status s;
     currentTask := currentTask s; progress := v;
     lastAction := lastAction s; errorMessage := errorMessage s;
     policy := policy s |}.

Definition set_lastAction (v : Js.date) (s : AutomationState) : AutomationState :=
  {| shipSymbol := shipSymbol s; behavior := behavior s; status := status s;
     currentTask := currentTask s; progress := progress s;
     lastAction := v; errorMessage := errorMessage s;
     policy := policy s |}.

Definition set_errorMessage (v : string) (s : AutomationState) : AutomationState :=
  {| shipSymbol := shipSymbol s; behavior := behavior s; status := status s;
     currentTask := currentTask s; progress := progress s;
     lastAction := lastAction s; errorMessage := Some v;
     policy := policy s |}.

Definition incr_retries (a : ActionStep) : ActionStep :=
  {| type := type a; target := target a; payload := payload a;
     retries := retries a + 1; maxRetries := maxRetries a |}.

(** Template-string renderings. *)
Definition actionTypeName (t : ActionType) : string :=
  match t with
  | navigate => "navigate" | dock => "dock" | orbit => "orbit"
  | refuel => "refuel" | extract => "extract" | survey => "survey"
  | sell => "sell" | buy => "buy" | deliver => "deliver"
  end.

Definition contractTypeName (t : ContractType) : string :=
  match t with
  | PROCUREMENT => "PROCUREMENT" | TRANSPORT => "TRANSPORT" | SHUTTLE => "SHUTTLE"
  end.

Global Instance NavStatus_eq_dec : EqDecision NavStatus.
Proof. solve_decision. Defined.
Global Instance Status_eq_dec : EqDecision Status.
Proof. solve_decision. Defined.
Global Instance Behavior_eq_dec : EqDecision Behavior.
Proof. solve_decision. Defined.
Global Instance ActionType_eq_dec : EqDecision ActionType.
Proof. solve_decision. Defined.

(** ** The world outside the orchestrator *)

(** The operations of [spaceTraders] that the orchestrator calls.  The
    service has no operation that delivers contract goods. *)
Inductive GatewayCall : Type :=
  | GetShip (shipSymbol : string)
  | GetContracts
  | NavigateShip (shipSymbol waypointSymbol : string)
  | DockShip (shipSymbol : string)
  | OrbitShip (shipSymbol : string)
  | RefuelShip (shipSymbol : string)
  | ExtractResources (shipSymbol : string)
  | CreateSurvey (shipSymbol : string)
  | SellCargo (shipSymbol symbol : string) (units : float).

(** What is observed of a run: the remote calls, and the two places where
    [processShipAutomation] hands over to [executeAction] and to
    [planNextActions]. *)
Inductive Event : Type :=
  | Gateway (c : GatewayCall)
  | Executing (a : ActionStep)
  | Planning (b : Behavior).

Definition is_gateway (e : Event) : bool :=
  match e with Gateway _ => true | _ => false end.

(** The replies of the remote API and the reading of the clock.  A ship
    action may reject depending on everything that happened before it. *)
Record World : Type := {
  clock : Z;
  ship_reply : string → Js.thrown + Ship;
  contracts_reply : Js.thrown + list Contract;
  action_reply : list Event → GatewayCall → option Js.thrown
}.

(** The orchestrator's fields, together with the [localStorage] entry
    [spacetraders_automation_states] (as the document [JSON.parse] reads
    from it) and the trace of events so far. *)
Record Orchestrator : Type := {
  automationStates : gmap string AutomationState;
  actionQueues : gmap string (list ActionStep);
  isRunning : bool;
  localStorage : option (list AutomationState);
  trace : list Event
}.

Definition with_states (f : gmap string AutomationState → gmap string AutomationState)
    (o : Orchestrator) : Orchestrator :=
  {| automationStates := f (automationStates o); actionQueues := actionQueues o;
     isRunning := isRunning o; localStorage := localStorage o; trace := trace o |}.

Definition with_queues (f : gmap string (list ActionStep) → gmap string (list ActionStep))
    (o : Orchestrator) : Orchestrator :=
  {| automationStates := automationStates o; actionQueues := f (actionQueues o);
     isRunning := isRunning o; localStorage := localStorage o; trace := trace o |}.

Definition with_isRunning (b : bool) (o : Orchestrator) : Orchestrator :=
  {| automationStates := automationStates o; actionQueues := actionQueues o;
     isRunning := b; localStorage := localStorage o; trace := trace o |}.

Definition with_localStorage (v : option (list AutomationState))
    (o : Orchestrator) : Orchestrator :=
  {| automationStates := automationStates o; actionQueues := actionQueues o;
     isRunning := isRunning o; localStorage := v; trace := trace o |}.

Definition log (e : Event) (o : Orchestrator) : Orchestrator :=
  {| automationStates := automationStates o; actionQueues := actionQueues o;
     isRunning := isRunning o; localStorage := localStorage o;
     trace := trace o ++ [e] |}.

(** ** Computations: mutable orchestrator, exceptions, remote calls *)

Inductive Outcome (A : Type) : Type :=
  | Returned (a : A)
  | Threw (e : Js.thrown).
Arguments Returned {A} a.
Arguments Threw {A} e.

(** A method body: it reads the world, mutates the orchestrator, and
    returns or throws.  Mutations made before a throw stay. *)
Definition M (A : Type) : Type := World → Orchestrator → Outcome A * Orchestrator.

Definition ret {A} (a : A) : M A := λ _ o, (Returned a, o).

Definition bind {A B} (m : M A) (k : A → M B) : M B := λ w o,
  match m w o with
  | (Returned a, o') => k a w o'
  | (Threw e, o') => (Threw e, o')
  end.

Definition try_catch {A} (m : M A) (handler : Js.thrown → M A) : M A := λ w o,
  match m w o with
  | (Returned a, o') => (Returned a, o')
  | (Threw e, o') => handler e w o'
  end.

Definition gets {A} (f : Orchestrator → A) : M A := λ _ o, (Returned (f o), o).
Definition modify (f : Orchestrator → Orchestrator) : M unit := λ _ o, (Returned (), f o).
Definition now : M Z := λ w o, (Returned (clock w), o).

(** stdpp's [x ← m; k] and [m ;; k] notations, at [M]. *)
Global Instance M_ret : MRet M := @ret.
Global Instance M_bind : MBind M := λ A B k m, bind m k.

(** [await spaceTraders.<action>(...)] *)
Definition call (c : GatewayCall) : M unit := λ w o,
  match action_reply w (trace o) c with
  | None => (Returned (), log (Gateway c) o)
  | Some e => (Threw e, log (Gateway c) o)
  end.

(** [await spaceTraders.getShip(shipSymbol)] *)
Definition getShip (sym : string) : M Ship := λ w o,
  match ship_reply w sym with
  | inr ship => (Returned ship, log (Gateway (GetShip sym)) o)
  | inl e => (Threw e, log (Gateway (GetShip sym)) o)
  end.

(** [await spaceTraders.getContracts()] *)
Definition getContracts : M (list Contract) := λ w o,
  match contracts_reply w with
  | inr cs => (Returned cs, log (Gateway GetContracts) o)
  | inl e => (Threw e, log (Gateway GetContracts) o)
  end.

Fixpoint forEach {A} (body : A → M unit) (l : list A) : M unit :=
  match l with
  | [] => ret ()
  | x :: rest => body x;; forEach body rest
  end.

(** ** Persistence *)

Definition json_policy (p : AutomationPolicy) : AutomationPolicy :=
  let m := policy_mining p in
  let t := policy_trading p in
  let c := policy_contract p in
  {| policy_mining :=
       {| autoSellWhenFull := autoSellWhenFull m;
          minFuelPercent := Js.json_num (minFuelPercent m);
          maxCredits := Js.json_num (maxCredits m);
          preferredMarkets := preferredMarkets m;
          stopConditions := stopConditions m |};
     policy_trading :=
       {| maxBuyPriceDeviation := Js.json_num (maxBuyPriceDeviation t);
          minProfitMargin := Js.json_num (minProfitMargin t);
          reserveCredits := Js.json_num (reserveCredits t);
          maxDistance := Js.json_num (maxDistance t) |};
     policy_contract :=
       {| autoAccept := autoAccept c;
          priorityTypes := priorityTypes c;
          maxDeadlineDays := Js.json_num (maxDeadlineDays c);
          minReward := Js.json_num (minReward c) |} |}.

(** One element of the array written by [JSON.stringify(states)], as
    [JSON.parse] gives it back. *)
Definition json_state (s : AutomationState) : AutomationState :=
  {| shipSymbol := shipSymbol s; behavior := behavior s; status := status s;
     currentTask := currentTask s; progress := Js.json_num (progress s);
     lastAction := Js.json_date (lastAction s); errorMessage := errorMessage s;
     policy := json_policy (policy s) |}.

(** [Array.from(this.automationStates.values())] *)
Definition values (m : gmap string AutomationState) : list AutomationState :=
  (map_to_list m).*2.

(** [saveStates()]: only [automationStates] is written. *)
Definition saveStates : M unit :=
  modify (λ o, with_localStorage (Some (json_state <$> values (automationStates o))) o).

(** [new Map(states.map(s => [s.shipSymbol, s]))]: a later entry replaces
    an earlier one with the same key. *)
Definition states_of_list (l : list AutomationState) : gmap string AutomationState :=
  foldl (λ m s, <[shipSymbol s := s]> m) ∅ l.

(** [loadStates()]: [actionQueues] is not touched. *)
Definition loadStates : M unit :=
  modify (λ o,
    match localStorage o with
    | Some states => with_states (λ _, states_of_list states) o
    | None => o
    end).

(** [new AutomationOrchestrator()] in a page whose storage holds [stored]. *)
Definition fresh (stored : option (list AutomationState)) : Orchestrator :=
  {| automationStates := ∅; actionQueues := ∅; isRunning := false;
     localStorage := stored; trace := [] |}.

Definition constructor : M unit := loadStates.

(** ** Access to the two maps *)

(** [state.f = v] on the state object of ship [sym]. *)
Definition modifyState (sym : string) (f : AutomationState → AutomationState) : M unit :=
  modify (with_states (alter f sym)).

(** [this.actionQueues.get(sym) || []] *)
Definition queueOf (sym : string) : M (list ActionStep) :=
  gets (λ o, default [] (actionQueues o !! sym)).

(** [queue.shift()] on the array stored for [sym]. *)
Definition shiftQueue (sym : string) : M unit :=
  modify (with_queues (alter (drop 1) sym)).

(** [queue[0].retries++] on the array stored for [sym]. *)
Definition retryHead (sym : string) : M unit :=
  modify (with_queues (alter (λ q, match q with
                                   | [] => []
                                   | a :: rest => incr_retries a :: rest
                                   end) sym)).

Definition mark (e : Event) : M unit := modify (log e).

(** ** Action execution *)

Definition executeAction (ship : Ship) (action : ActionStep) : M bool :=
  try_catch
    match type action with
    | navigate =>
        match target action with
        | Some t =>
            if Js.truthy_string t
            then call (NavigateShip (symbol ship) t);; mret true
            else mret false
        | None => mret false
        end
    | dock =>
        if bool_decide (nav_status ship ≠ DOCKED)
        then call (DockShip (symbol ship));; mret true
        else mret true
    | orbit =>
        if bool_decide (nav_status ship ≠ IN_ORBIT)
        then call (OrbitShip (symbol ship));; mret true
        else mret true
    | refuel =>
        if bool_decide (nav_status ship = DOCKED)
        then call (RefuelShip (symbol ship));; mret true
        else mret false
    | extract =>
        if bool_decide (nav_status ship = IN_ORBIT)
        then call (ExtractResources (symbol ship));; mret true
        else mret false
    | survey =>
        if bool_decide (nav_status ship = IN_ORBIT)
        then call (CreateSurvey (symbol ship));; mret true
        else mret false
    | sell =>
        if bool_decide (nav_status ship = DOCKED) && Js.gt (cargo_units ship) 0
        then
          forEach (λ item, call (SellCargo (symbol ship) (item_symbol item) (item_units item)))
                  (inventory ship);;
          mret true
        else mret false
    | buy | deliver =>
        (* default: console.warn(`Unknown action type`) *)
        mret false
    end
    (λ _, mret false).

(** ** Planning *)

Definition Plan : Type := AutomationState * list ActionStep.

Definition planSellActions (ship : Ship) (state : AutomationState)
    (queue : list ActionStep) : Plan :=
  if PrimFloat.eqb (cargo_units ship) 0 then (state, queue)
  else
    let marketSymbol := systemSymbol ship +:+ "-MARKETPLACE-1" in
    (set_currentTask "Navigating to market to sell cargo" state,
     queue ++ [step_to navigate marketSymbol 3; step dock 3; step sell 3]).

(** [ship.cargo.units >= ship.cargo.capacity * 0.9] *)
Definition cargoAtLimit (ship : Ship) : bool :=
  Js.ge (cargo_units ship) (cargo_capacity ship * Js.nine_tenths)%float.

(** [ship.fuel.current / ship.fuel.capacity * 100] *)
Definition fuelPercent (ship : Ship) : float :=
  (fuel_current ship / fuel_capacity ship * 100)%float.

Definition isAtAsteroid (ship : Ship) : bool :=
  Js.includes (waypointSymbol ship) "ASTEROID" ||
  Js.includes (waypointSymbol ship) "ENGINEERED_ASTEROID".

Definition hasSurveyor (ship : Ship) : bool :=
  existsb (λ mount, Js.includes mount "SURVEYOR") (mounts ship).

Definition planMiningActions (ship : Ship) (state : AutomationState)
    (queue : list ActionStep) : Plan :=
  let policy := policy_mining (policy state) in
  if maxCargo (stopConditions policy) && cargoAtLimit ship then
    if autoSellWhenFull policy then
      planSellActions ship (set_currentTask "Cargo full, finding market to sell" state) queue
    else
      (set_currentTask "Cargo full, automation paused" (set_status paused state), queue)
  else if lowFuel (stopConditions policy) &&
          PrimFloat.ltb (fuelPercent ship) (Js.toNumber (minFuelPercent policy)) then
    (set_currentTask "Low fuel, need to refuel" state,
     queue ++ [step dock 3; step refuel 3; step orbit 3])
  else if negb (isAtAsteroid ship) then
    let asteroidSymbol := systemSymbol ship +:+ "-ASTEROID-1" in
    (set_currentTask "Navigating to mining location" state,
     queue ++ [step_to navigate asteroidSymbol 3; step orbit 3])
  else
    let queue1 :=
      if bool_decide (nav_status ship ≠ IN_ORBIT) then queue ++ [step orbit 3] else queue in
    let state1 :=
      set_progress (Js.Num (cargo_units ship / cargo_capacity ship * 100)%float)
        (set_currentTask "Mining resources" state) in
    let queue2 := if hasSurveyor ship then queue1 ++ [step survey 2] else queue1 in
    (state1, queue2 ++ [step extract 3]).

Definition planTradingActions (ship : Ship) (state : AutomationState)
    (queue : list ActionStep) : Plan :=
  let state1 := set_currentTask "Analyzing trade opportunities" state in
  if Js.gt (cargo_units ship) 0 then planSellActions ship state1 queue
  else (set_status paused (set_currentTask "No cargo to trade" state1), queue).

(** [cargoItem?.units || 0] for the first cargo item with this symbol. *)
Definition availableUnits (ship : Ship) (good : string) : float :=
  match List.find (λ item, String.eqb (item_symbol item) good) (inventory ship) with
  | Some item => if Js.truthy_number (item_units item) then item_units item else 0%float
  | None => 0%float
  end.

(** One turn of the loop over [activeContract.terms.deliver]. *)
Definition planDeliverable (ship : Ship) (activeContract : Contract)
    (acc : Plan) (deliverable : ContractDeliverGood) : Plan :=
  let '(state, queue) := acc in
  let needed := (unitsRequired deliverable - unitsFulfilled deliverable)%float in
  if Js.gt needed 0 then
    let available := availableUnits ship (tradeSymbol deliverable) in
    if Js.gt available 0 then
      (state,
       queue ++
       [step_to navigate (destinationSymbol deliverable) 3;
        step dock 3;
        {| type := deliver; target := None;
           payload := Some {| p_contractId := id activeContract;
                              p_tradeSymbol := tradeSymbol deliverable;
                              p_units := Js.min needed available;
                              p_destinationSymbol := destinationSymbol deliverable |};
           retries := 0; maxRetries := 3 |}])
    else
      (set_status paused
         (set_currentTask ("Need to acquire " +:+ tradeSymbol deliverable +:+ " for contract")
            state),
       queue)
  else acc.

(** The body of the [try] block once [getContracts] has resolved. *)
Definition planContract (ship : Ship) (contracts : list Contract)
    (state : AutomationState) (queue : list ActionStep) : Plan :=
  match List.find (λ c, accepted c && negb (fulfilled c)) contracts with
  | None => (set_status paused (set_currentTask "No active contracts" state), queue)
  | Some activeContract =>
      foldl (planDeliverable ship activeContract)
        (set_currentTask ("Working on contract: " +:+
                          contractTypeName (contract_type activeContract)) state,
         queue)
        (default [] (deliver_terms activeContract))
  end.

Definition planContractActions (ship : Ship) (state : AutomationState)
    (queue : list ActionStep) : M Plan :=
  let state1 := set_currentTask "Checking active contracts" state in
  try_catch
    (contracts ← getContracts; mret (planContract ship contracts state1 queue))
    (λ _, mret (set_errorMessage "Failed to plan contract actions"
                  (set_status error state1), queue)).

(** [planNextActions(ship, state)]: the planner works on the stored queue
    (or on a new empty one) and the result is stored for the ship. *)
Definition planNextActions (ship : Ship) (state : AutomationState) : M unit :=
  let sym := shipSymbol state in
  queue ← queueOf sym;
  current ← gets (λ o, default state (automationStates o !! sym));
  plan ← match behavior state with
         | mining => mret (planMiningActions ship current queue)
         | trading => mret (planTradingActions ship current queue)
         | contract => planContractActions ship current queue
         | idle => mret (current, queue)
         end;
  modifyState sym (λ _, plan.1);;
  modify (with_queues <[sym := plan.2]>).

(** ** The tick *)

Definition cooldownActive (ship : Ship) : option Z :=
  match cooldown ship with
  | Some remainingSeconds => if 0 <? remainingSeconds then Some remainingSeconds else None
  | None => None
  end.

(** The block [if (queue.length > 0) { ... }]. *)
Definition executeHead (ship : Ship) (state : AutomationState) : M unit :=
  let sym := shipSymbol state in
  queue ← queueOf sym;
  match queue with
  | [] => mret ()
  | action :: _ =>
      mark (Executing action);;
      success ← executeAction ship action;
      if success : bool then
        shiftQueue sym;;
        t ← now;
        modifyState sym (set_lastAction (Js.DateObj t))
      else
        retryHead sym;;
        if maxRetries action <=? retries action + 1 then
          shiftQueue sym;;
          modifyState sym
            (set_errorMessage ("Action " +:+ actionTypeName (type action) +:+
                               " failed after " +:+ pretty (maxRetries action) +:+
                               " retries"))
        else mret ()
  end.

(** The block [if (queue.length === 0) { await this.planNextActions(...) }]. *)
Definition planIfEmpty (ship : Ship) (state : AutomationState) : M unit :=
  queue ← queueOf (shipSymbol state);
  match queue with
  | [] => mark (Planning (behavior state));; planNextActions ship state
  | _ :: _ => mret ()
  end.

Definition processShipAutomation (state : AutomationState) : M unit :=
  ship ← getShip (shipSymbol state);
  match cooldownActive ship with
  | Some remainingSeconds =>
      modifyState (shipSymbol state)
        (set_currentTask ("Waiting for cooldown (" +:+ pretty remainingSeconds +:+ "s)"));;
      saveStates
  | None =>
      executeHead ship state;;
      planIfEmpty ship state;;
      saveStates
  end.

Definition thrownMessage (e : Js.thrown) : string :=
  match e with Js.Error message => message | Js.NonError => "Unknown error" end.

Definition tick : M unit :=
  activeAutomations ←
    gets (λ o, filter (λ state, status state = running) (values (automationStates o)));
  forEach (λ state,
      try_catch (processShipAutomation state)
        (λ e, modifyState (shipSymbol state)
                (λ s, set_errorMessage (thrownMessage e) (set_status error s));;
              saveStates))
    activeAutomations.

(** ** Public controls *)

Definition defaultPolicy : AutomationPolicy :=
  {| policy_mining :=
       {| autoSellWhenFull := true;
          minFuelPercent := Js.Num 10;
          maxCredits := Js.Num 1000000;
          preferredMarkets := [];
          stopConditions := {| maxCargo := true; lowFuel := true; creditLimit := false |} |};
     policy_trading :=
       {| maxBuyPriceDeviation := Js.Num 10;
          minProfitMargin := Js.Num 15;
          reserveCredits := Js.Num 100000;
          maxDistance := Js.Num 50 |};
     policy_contract :=
       {| autoAccept := false;
          priorityTypes := ["PROCUREMENT"; "TRANSPORT"];
          maxDeadlineDays := Js.Num 30;
          minReward := Js.Num 50000 |} |}.

(** [Partial<AutomationPolicy>] *)
Record PolicyOverrides : Type := {
  over_mining : option MiningPolicy;
  over_trading : option TradingPolicy;
  over_contract : option ContractPolicy
}.

Definition noOverrides : PolicyOverrides :=
  {| over_mining := None; over_trading := None; over_contract := None |}.

(** [{ ...defaultPolicy, ...policy }] *)
Definition mergePolicy (p : PolicyOverrides) : AutomationPolicy :=
  {| policy_mining := default (policy_mining defaultPolicy) (over_mining p);
     policy_trading := default (policy_trading defaultPolicy) (over_trading p);
     policy_contract := default (policy_contract defaultPolicy) (over_contract p) |}.

Definition start : M unit :=
  running_already ← gets isRunning;
  if running_already : bool then mret () else modify (with_isRunning true).

Definition startAutomation (sym : string) (b : Behavior) (p : PolicyOverrides) : M unit :=
  t ← now;
  let state :=
    {| shipSymbol := sym; behavior := b; status := running;
       currentTask := "Initializing automation"; progress := Js.Num 0;
       lastAction := Js.DateObj t; errorMessage := None;
       policy := mergePolicy p |} in
  modify (with_states <[sym := state]>);;
  modify (with_queues <[sym := []]>);;
  saveStates;;
  start.

(** [if (state) { ... }]: nothing happens for an unknown ship. *)
Definition whenState (sym : string) (body : AutomationState → M unit) : M unit :=
  found ← gets (λ o, automationStates o !! sym);
  match found with
  | Some state => body state
  | None => mret ()
  end.

Definition stopAutomation (sym : string) : M unit :=
  whenState sym (λ _,
    modifyState sym (set_status stopped);;
    modifyState sym (set_currentTask "Stopped");;
    saveStates).

Definition pauseAutomation (sym : string) : M unit :=
  whenState sym (λ _,
    modifyState sym (set_status paused);;
    modifyState sym (set_currentTask "Paused");;
    saveStates).

Definition resumeAutomation (sym : string) : M unit :=
  whenState sym (λ state,
    if bool_decide (status state = paused) then
      modifyState sym (set_status running);;
      modifyState sym (set_currentTask "Resuming");;
      saveStates
    else mret ()).

Definition getAutomationState (sym : string) (o : Orchestrator) : option AutomationState :=
  automationStates o !! sym.

(** Running a method on an orchestrator. *)
Definition run {A} (m : M A) (w : World) (o : Orchestrator) : Orchestrator := (m w o).2.
Definition result {A} (m : M A) (w : World) (o : Orchestrator) : Outcome A := (m w o).1.

(** ** Vocabulary of the statements *)

(** [logs evs o]: [o] after the events [evs], nothing else changed. *)
Definition logs (evs : list Event) (o : Orchestrator) : Orchestrator :=
  {| automationStates := automationStates o; actionQueues := actionQueues o;
     isRunning := isRunning o; localStorage := localStorage o;
     trace := trace o ++ evs |}.

(** The events that happened between [o] and a later [o']. *)
Definition events_of (o o' : Orchestrator) : list Event :=
  drop (length (trace o)) (trace o').



(** The stored queue of a ship, as [processShipAutomation] sees it. *)
Definition queue_of (o : Orchestrator) (sym : string) : list ActionStep :=
  default [] (actionQueues o !! sym).


Definition exhaustedMessage (a : ActionStep) : string :=
  "Action " +:+ actionTypeName (type a) +:+ " failed after " +:+
  pretty (maxRetries a) +:+ " retries".


(** *** Histories of an orchestrator *)

Inductive Op : Type :=
  | OpStart (sym : string) (b : Behavior) (p : PolicyOverrides)
  | OpStop (sym : string)
  | OpPause (sym : string)
  | OpResume (sym : string)
  | OpTick.

Definition perform (op : Op) : M unit :=
  match op with
  | OpStart sym b p => startAutomation sym b p
  | OpStop sym => stopAutomation sym
  | OpPause sym => pauseAutomation sym
  | OpResume sym => resumeAutomation sym
  | OpTick => tick
  end.

(** Neither a start nor a pause. *)
Definition resume_stop_or_tick (op : Op) : bool :=
  match op with OpResume _ | OpStop _ | OpTick => true | _ => false end.

(** A sequence of calls, each in its own world. *)
Fixpoint performAll (calls : list (World * Op)) (o : Orchestrator) : Orchestrator :=
  match calls with
  | [] => o
  | (w, op) :: later => performAll later (run (perform op) w o)
  end.

(** An orchestrator is constructed over some stored document, and then its
    public controls and its timer run in any order, in any worlds. *)
Inductive reachable : Orchestrator → Prop :=
  | reachable_new (w : World) (stored : option (list AutomationState)) :
      reachable (run constructor w (fresh stored))
  | reachable_op (w : World) (op : Op) (o : Orchestrator) :
      reachable o → reachable (run (perform op) w o).

(** Every state object is stored under its own ship symbol. *)
Definition well_keyed (m : gmap string AutomationState) : Prop :=
  ∀ sym st, m !! sym = Some st → shipSymbol st = sym.

(** Every queued step still has retries left. *)
Definition retries_left (q : list ActionStep) : Prop :=
  Forall (λ a, retries a < maxRetries a) q.

Definition queues_have_retries_left (o : Orchestrator) : Prop :=
  ∀ sym q, actionQueues o !! sym = Some q → retries_left q.

(** Steps as a planner creates them. *)
Definition fresh_steps (new : list ActionStep) : Prop :=
  Forall (λ a, retries a = 0 ∧ 0 < maxRetries a) new.

(** What holds of the orchestrator between any two of its steps. *)
Definition Inv (o : Orchestrator) : Prop :=
  well_keyed (automationStates o) ∧ queues_have_retries_left o.

(** A policy whose numbers survive [JSON]: finite, and not [-0]. *)
Definition json_safe (p : AutomationPolicy) : Prop := json_policy p = p.

(** The state stored for ship [sym] is [st0]. *)
Definition keeps (sym : string) (st0 : AutomationState) (o : Orchestrator) : Prop :=
  automationStates o !! sym = Some st0.

(** A method keeps a property of the orchestrator, whether it returns or
    throws. *)
Definition preserves {A} (P : Orchestrator → Prop) (m : M A) : Prop :=
  ∀ w o, P o → P (m w o).2.

(** ** Concrete ships, states and worlds used in the examples *)

Module Sample.

(** Ship [S1] in system [X1-DF55]; whatever it carries is iron ore. *)
Definition ship (waypoint : string) (nav : NavStatus) (units capacity : float)
    (fuel fuelCapacity : float) (mounted : list string) : Ship :=
  {| symbol := "S1"; systemSymbol := "X1-DF55"; waypointSymbol := waypoint;
     nav_status := nav; cargo_capacity := capacity; cargo_units := units;
     inventory := if PrimFloat.is_zero units then []
                  else [{| item_symbol := "IRON_ORE"; item_units := units |}];
     fuel_current := fuel; fuel_capacity := fuelCapacity;
     cooldown := None; mounts := mounted |}.

(** Scenario A: fuel 100/100, cargo 0/40, at a waypoint that is not an
    asteroid. *)
Definition scenarioA (mounted : list string) : Ship :=
  ship "X1-DF55-A1" IN_ORBIT 0 40 100 100 mounted.

Definition state (b : Behavior) (s : Status) (task : string) : AutomationState :=
  {| shipSymbol := "S1"; behavior := b; status := s; currentTask := task;
     progress := Js.Num 0; lastAction := Js.DateObj 1767225600123;
     errorMessage := None; policy := defaultPolicy |}.

(** A world in which every remote call resolves and [getShip] gives [s]. *)
Definition world (s : Ship) : World :=
  {| clock := 1767225605000;
     ship_reply := λ _, inr s;
     contracts_reply := inr [];
     action_reply := λ _ _, None |}.

(** An orchestrator holding one state and one queue for ship [S1]. *)
Definition orchestrator (st : AutomationState) (q : list ActionStep) : Orchestrator :=
  {| automationStates := {[ "S1" := st ]}; actionQueues := {[ "S1" := q ]};
     isRunning := true; localStorage := None; trace := [] |}.

(** A new orchestrator on which ship [S1] was started for mining and the
    timer fired once, in the world of Scenario A. *)
Definition afterFirstTick : Orchestrator :=
  let w := world (scenarioA []) in
  run (perform OpTick) w
    (run (perform (OpStart "S1" mining noOverrides)) w
       (run constructor w (fresh None))).


End Sample.

(** ** Further vocabulary: the rest of the orchestrator *)

(** [stop()]: the timer is cleared. *)
Definition stop : M unit :=
  running_already ← gets isRunning;
  if running_already : bool then modify (with_isRunning false) else mret ().

(** [getAllAutomationStates()] *)
Definition getAllAutomationStates (o : Orchestrator) : list AutomationState :=
  values (automationStates o).

(** [getShipAutomationState] of the automation panel:
    [automationStates.find(state => state.shipSymbol === shipSymbol)] over
    the array it polled from [getAllAutomationStates()]. *)
Definition getShipAutomationState (polled : list AutomationState) (sym : string)
    : option AutomationState :=
  List.find (λ state, String.eqb (shipSymbol state) sym) polled.

(** The stored document is the image of the states in memory. *)
Definition storage_in_sync (o : Orchestrator) : Prop :=
  localStorage o = Some (json_state <$> values (automationStates o)).

(** [localStorage.setItem] as the browser may answer it: the document is
    stored, or the call throws (quota exceeded, storage disabled) and
    nothing is stored. *)
Definition setItem (answer : option Js.thrown) (document : list AutomationState) : M unit :=
  λ _ o,
    match answer with
    | None => (Returned (), with_localStorage (Some document) o)
    | Some e => (Threw e, o)
    end.

(** [saveStates()] with its [try] and its [catch] written out, on a
    storage that answers [answer]. *)
Definition saveStatesOn (answer : option Js.thrown) : M unit :=
  try_catch
    (states ← gets (λ o, values (automationStates o));
     setItem answer (json_state <$> states))
    (λ _, mret ()).

(** The remote call that an action needs on a given ship, if any. *)
Definition neededCall (ship : Ship) (action : ActionStep) : option GatewayCall :=
  match type action with
  | navigate =>
      match target action with
      | Some t => if Js.truthy_string t then Some (NavigateShip (symbol ship) t) else None
      | None => None
      end
  | dock => if bool_decide (nav_status ship = DOCKED) then None
            else Some (DockShip (symbol ship))
  | orbit => if bool_decide (nav_status ship = IN_ORBIT) then None
             else Some (OrbitShip (symbol ship))
  | refuel => if bool_decide (nav_status ship = DOCKED)
              then Some (RefuelShip (symbol ship)) else None
  | extract => if bool_decide (nav_status ship = IN_ORBIT)
               then Some (ExtractResources (symbol ship)) else None
  | survey => if bool_decide (nav_status ship = IN_ORBIT)
              then Some (CreateSurvey (symbol ship)) else None
  | sell | buy | deliver => None
  end.

(** The sale of one cargo item, as an event. *)
Definition saleOf (ship : Ship) (item : CargoItem) : Event :=
  Gateway (SellCargo (symbol ship) (item_symbol item) (item_units item)).

(** A deliverable of a contract that still lacks units, and one whose good
    the ship holds. *)
Definition stillNeeded (d : ContractDeliverGood) : bool :=
  Js.gt (unitsRequired d - unitsFulfilled d)%float 0.

Definition heldBy (ship : Ship) (d : ContractDeliverGood) : bool :=
  Js.gt (availableUnits ship (tradeSymbol d)) 0.

(** The three steps queued for one deliverable. *)
Definition deliverySteps (ship : Ship) (c : Contract) (d : ContractDeliverGood)
    : list ActionStep :=
  [step_to navigate (destinationSymbol d) 3;
   step dock 3;
   {| type := deliver; target := None;
      payload := Some {| p_contractId := id c;
                         p_tradeSymbol := tradeSymbol d;
                         p_units := Js.min (unitsRequired d - unitsFulfilled d)%float
                                      (availableUnits ship (tradeSymbol d));
                         p_destinationSymbol := destinationSymbol d |};
      retries := 0; maxRetries := 3 |}].

(** The state of ship [sym] carries an error message. *)
Definition has_error_message (sym : string) (o : Orchestrator) : Prop :=
  ∃ st, automationStates o !! sym = Some st ∧ is_Some (errorMessage st).

(** A call of [startAutomation], and one for ship [sym]. *)
Definition is_start (op : Op) : bool :=
  match op with OpStart _ _ _ => true | _ => false end.

Definition restarts (sym : string) (op : Op) : bool :=
  match op with OpStart s _ _ => bool_decide (s = sym) | _ => false end.

(** A control that needs the ship to be known. *)
Definition control_of (sym : string) (op : Op) : bool :=
  match op with
  | OpStop s | OpPause s | OpResume s => bool_decide (s = sym)
  | _ => false
  end.

(** The state and the queue stored for ship [sym] are [st0] and [q0]. *)
Definition holds (sym : string) (st0 : option AutomationState)
    (q0 : option (list ActionStep)) (o : Orchestrator) : Prop :=
  automationStates o !! sym = st0 ∧ actionQueues o !! sym = q0.

(** A method that always returns. *)
Definition returns {A} (m : M A) : Prop := ∀ w o, ∃ a, (m w o).1 = Returned a.

(** What the Behavior of a state plans, on a given snapshot, into a given
    queue, in a given world. *)
Definition planned (w : World) (ship : Ship) (state : AutomationState)
    (queue : list ActionStep) : Plan :=
  match behavior state with
  | mining => planMiningActions ship state queue
  | trading => planTradingActions ship state queue
  | contract =>
      match contracts_reply w with
      | inl _ =>
          (set_errorMessage "Failed to plan contract actions"
             (set_status error (set_currentTask "Checking active contracts" state)),
           queue)
      | inr contracts =>
          planContract ship contracts (set_currentTask "Checking active contracts" state)
            queue
      end
  | idle => (state, queue)
  end.

(** One turn of the loop of [tick]. *)
Definition tickTurn (state : AutomationState) : M unit :=
  try_catch (processShipAutomation state)
    (λ e, modifyState (shipSymbol state)
            (λ s, set_errorMessage (thrownMessage e) (set_status error s));;
          saveStates).

(** ** Ticks in flight *)

(** The timer and the controls as they interleave.  [tick] lists the
    running states once, when it begins, and then takes its turns one state
    at a time, suspended at the remote calls; the controls of the panel, and
    the beginning of a further tick, run while it is suspended.  [pending]
    holds the listed states whose turn is still to come, of all the ticks in
    flight, and any of them may be the next.  A control that arrives while a
    turn awaits the ship's snapshot, before the turn has read or written
    anything of the orchestrator, is a control before that turn.  The listed
    states are the objects of the map: no [startAutomation] replaces one
    while it is pending. *)
Inductive Move : Type :=
  | Control (op : Op)
  | Begin
  | Turn (i : nat).

Definition Flight : Type := Orchestrator * list AutomationState.

Definition move (w : World) (m : Move) (c : Flight) : Flight :=
  match m with
  | Control op => (run (perform op) w c.1, c.2)
  | Begin =>
      (c.1, c.2 ++ filter (λ state, status state = running)
                     (values (automationStates c.1)))
  | Turn i =>
      match c.2 !! i with
      | Some state => (run (tickTurn state) w c.1, delete i c.2)
      | None => c
      end
  end.

(** A sequence of moves, each in its own world. *)
Fixpoint moves (ms : list (World * Move)) (c : Flight) : Flight :=
  match ms with
  | [] => c
  | (w, m) :: later => moves later (move w m c)
  end.

(** Neither a start nor a pause, of any ship. *)
Definition resume_stop_or_timer (m : Move) : bool :=
  match m with
  | Control op => resume_stop_or_tick op
  | Begin | Turn _ => true
  end.

(** Neither a start, of any ship, nor a resume of ship [sym]. *)
Definition spares (sym : string) (m : Move) : bool :=
  match m with
  | Control (OpStart _ _ _) => false
  | Control (OpResume s) => bool_decide (s ≠ sym)
  | _ => true
  end.

(** The state stored for ship [sym] satisfies [Q]. *)
Definition state_has (Q : AutomationState → Prop) (sym : string) (o : Orchestrator) : Prop :=
  ∃ s, automationStates o !! sym = Some s ∧ Q s.

(** A fleet of two ships: [S1] mining and running with a queued step,
    [S2] trading and paused. *)
Module Fleet.

Definition miner : AutomationState := Sample.state mining running "Mining resources".

Definition trader : AutomationState :=
  {| shipSymbol := "S2"; behavior := trading; status := paused;
     currentTask := "No cargo to trade"; progress := Js.Num 0;
     lastAction := Js.DateObj 1767225600456; errorMessage := None;
     policy := defaultPolicy |}.

Definition two : Orchestrator :=
  {| automationStates := <["S2" := trader]> {[ "S1" := miner ]};
     actionQueues := <["S2" := [step sell 3]]> {[ "S1" := [step extract 3] ]};
     isRunning := true; localStorage := None; trace := [] |}.

(** A world in which [getShip] rejects with a network error. *)
Definition offline : World :=
  {| clock := 1767225605000;
     ship_reply := λ _, inl (Js.Error "Network request failed");
     contracts_reply := inl (Js.Error "Network request failed");
     action_reply := λ _ _, Some (Js.Error "Network request failed") |}.

End Fleet.

(** A procurement contract with two deliverables: iron ore, of which 4 of
    10 units are delivered, and copper ore, of which none of 5 is. *)
Module Procurement.

Definition iron : ContractDeliverGood :=
  {| tradeSymbol := "IRON_ORE"; destinationSymbol := "X1-DF55-H1";
     unitsRequired := 10; unitsFulfilled := 4 |}.

Definition copper : ContractDeliverGood :=
  {| tradeSymbol := "COPPER_ORE"; destinationSymbol := "X1-DF55-H1";
     unitsRequired := 5; unitsFulfilled := 0 |}.

Definition open_contract : Contract :=
  {| id := "c1"; contract_type := PROCUREMENT; accepted := true; fulfilled := false;
     deliver_terms := Some [iron; copper] |}.

Definition settled_contract : Contract :=
  {| id := "c0"; contract_type := PROCUREMENT; accepted := true; fulfilled := true;
     deliver_terms := Some [iron] |}.

End Procurement.

(** ** The rate limiter of the gateway ([utils]) *)

Module RateLimiter.

Definition maxRequests : nat := 2.
Definition windowMs : Z := 1000.

(** [now - time < this.windowMs] *)
Definition inWindow (now time : Z) : bool := bool_decide (now - time < windowMs).

(** [Math.min(...requests)]; on no argument the result is [Infinity],
    which is [None] here. *)
Definition oldest (requests : list Z) : option Z :=
  match requests with
  | [] => None
  | time :: times => Some (foldl Z.min time times)
  end.

(** One run of the body of [waitForSlot] at time [now], up to its end or
    to the point where it calls itself again: the request is let through and
    recorded, or the caller tries again, after [waitTime] ms when that is
    positive.  In both cases [this.requests] has been replaced by the times
    still in the window. *)
Inductive Pass : Type :=
  | Granted (requests : list Z)
  | Again (waitTime : Z) (requests : list Z)
  | Never.

Definition pass (now : Z) (requests : list Z) : Pass :=
  let requests := filter (λ time, inWindow now time = true) requests in
  if bool_decide (maxRequests ≤ length requests)%nat then
    match oldest requests with
    | Some oldestRequest =>
        let waitTime := windowMs - (now - oldestRequest) + 10 in
        Again waitTime requests
    | None => Never
    end
  else Granted (requests ++ [now]).

(** The time of the next reading of the clock: a timer of [waitTime] ms
    fires no earlier than asked, [late] ms later; without a timer the body
    runs again at once, [late] ms later. *)
Definition resumed (now waitTime late : Z) : Z :=
  if bool_decide (0 < waitTime) then now + waitTime + late else now + late.

(** [waitForSlot()] with a single caller, entered at time [now]; [lates]
    gives the lateness of each later reading of the clock.  The result is the
    time at which the request is let through, with the recorded times. *)
Fixpoint waitForSlot (lates : list Z) (now : Z) (requests : list Z)
    : option (Z * list Z) :=
  match pass now requests with
  | Granted requests' => Some (now, requests')
  | Again waitTime requests' =>
      match lates with
      | late :: lates' => waitForSlot lates' (resumed now waitTime late) requests'
      | [] => None
      end
  | Never => None
  end.

(** Any number of callers: the runs of the body of all of them, in the
    order in which they happen, each at the time it reads.  The result is the
    times at which a request was let through, and the recorded times. *)
Fixpoint passes (times : list Z) (requests : list Z) : list Z * list Z :=
  match times with
  | [] => ([], requests)
  | now :: later =>
      match pass now requests with
      | Granted requests' =>
          let '(granted, final) := passes later requests' in (now :: granted, final)
      | Again _ requests' => passes later requests'
      | Never => ([], requests)
      end
  end.

(** Of any three requests let through in a row, the third comes at least
    a full window after the first. *)
Definition spaced (granted : list Z) : Prop :=
  ∀ before a b c after, granted = before ++ a :: b :: c :: after → a + windowMs ≤ c.

(** Requests are let through in the order of their times. *)
Definition ascending (granted : list Z) : Prop :=
  ∀ before a b after, granted = before ++ a :: b :: after → a ≤ b.

(** The state of the limiter after runs up to time [t] that let through
    the requests [granted]: the recorded times are the ones of [granted]
    that are still in the window at [t]. *)
Definition consistent (t : Z) (granted requests : list Z) : Prop :=
  requests = filter (λ time, inWindow t time = true) granted ∧
  Forall (λ g, g ≤ t) granted ∧
  ascending granted ∧
  spaced granted.

End RateLimiter.

(** ** The token store of the gateway ([services/api]) *)

Module Api.

Record AgentTokenEntry : Type := {
  symbol : string;
  name : string;
  token : string
}.

Record TokenStore : Type := {
  accountToken : option string;
  agents : list AgentTokenEntry;
  currentAgentSymbol : option string
}.

(** [{ agents: [] }] *)
Definition emptyStore : TokenStore :=
  {| accountToken := None; agents := []; currentAgentSymbol := None |}.

(** [findIndex]: [None] stands for [-1]. *)
Fixpoint findIndex {A} (p : A → bool) (l : list A) : option nat :=
  match l with
  | [] => None
  | x :: l' => if p x then Some 0%nat else S <$> findIndex p l'
  end.

Definition setAccountToken (t : string) (store : TokenStore) : TokenStore :=
  {| accountToken := Some t; agents := agents store;
     currentAgentSymbol := currentAgentSymbol store |}.

Definition addAgentToken (agent : AgentTokenEntry) (store : TokenStore) : TokenStore :=
  let agents' :=
    match findIndex (λ a, String.eqb (symbol a) (symbol agent)) (agents store) with
    | Some existingIndex => <[existingIndex := agent]> (agents store)
    | None => agents store ++ [agent]
    end in
  {| accountToken := accountToken store; agents := agents';
     currentAgentSymbol := currentAgentSymbol store |}.

Definition setCurrentAgent (sym : string) (store : TokenStore) : TokenStore :=
  {| accountToken := accountToken store; agents := agents store;
     currentAgentSymbol := Some sym |}.

Definition getCurrentAgentToken (store : TokenStore) : option string :=
  match currentAgentSymbol store with
  | Some current =>
      if Js.truthy_string current then
        match List.find (λ a, String.eqb (symbol a) current) (agents store) with
        | Some agent => if Js.truthy_string (token agent) then Some (token agent) else None
        | None => None
        end
      else None
  | None => None
  end.

(** The [Authorization] header that [request] sets, if any. *)
Definition authorization (useAgentToken : bool) (store : TokenStore) : option string :=
  if useAgentToken then
    match getCurrentAgentToken store with
    | Some agentToken => Some ("Bearer " +:+ agentToken)
    | None => None
    end
  else
    match accountToken store with
    | Some t => if Js.truthy_string t then Some ("Bearer " +:+ t) else None
    | None => None
    end.

(** [hasAgentToken] of the token context. *)
Definition hasAgentToken (store : TokenStore) : bool :=
  match currentAgentSymbol store with
  | Some current =>
      if Js.truthy_string current
      then existsb (λ a, String.eqb (symbol a) current) (agents store)
      else false
  | None => false
  end.

End Api.

(** ** The dashboard's ship buttons ([Dashboard]) *)

Module Dashboard.

(** A ship as the dashboard shows it: with its registered name. *)
Record FleetShip : Type := {
  ship_data : Ship;
  registration_name : string
}.

(** ['dock' | 'orbit' | 'refuel'] *)
Inductive ShipAction : Type := Dock | Orbit | Refuel.

(** [action.toUpperCase()] *)
Definition toUpperCase (action : ShipAction) : string :=
  match action with Dock => "DOCK" | Orbit => "ORBIT" | Refuel => "REFUEL" end.

(** The component's state, and what it showed and asked for. *)
Record Screen : Type := {
  ships : list FleetShip;
  loading : bool;
  alerts : list string;
  calls : list GatewayCall
}.

(** The user's answer to [confirm], and the gateway's replies. *)
Record Browser : Type := {
  confirm : string → bool;
  reply : GatewayCall → Js.thrown + FleetShip
}.

(** The [try] block after a met precondition: the call, the alert, and
    [setShips]; the [catch] block on a rejection; [finally] in both. *)
Definition attempt (b : Browser) (ship : FleetShip) (call : GatewayCall)
    (success : string) (s : Screen) : Screen :=
  match reply b call with
  | inr updatedShip =>
      {| ships := (λ s', if String.eqb (symbol (ship_data s')) (symbol (ship_data ship))
                         then updatedShip else s') <$> ships s;
         loading := false;
         alerts := alerts s ++ [success];
         calls := calls s ++ [call] |}
  | inl err =>
      let errorMessage :=
        match err with Js.Error message => message | Js.NonError => "Action failed" end in
      {| ships := ships s; loading := false;
         alerts := alerts s ++ ["Error: " +:+ errorMessage];
         calls := calls s ++ [call] |}
  end.

(** The [else] branches: an alert, [return], and [finally]. *)
Definition refuse (message : string) (s : Screen) : Screen :=
  {| ships := ships s; loading := false; alerts := alerts s ++ [message];
     calls := calls s |}.

Definition handleShipAction (b : Browser) (ship : FleetShip) (action : ShipAction)
    (s : Screen) : Screen :=
  let shipName := registration_name ship in
  if negb (confirm b (toUpperCase action +:+ " " +:+ shipName +:+ "?")) then s
  else
    match action with
    | Dock =>
        if bool_decide (nav_status (ship_data ship) ≠ DOCKED) then
          attempt b ship (DockShip (symbol (ship_data ship)))
            ("Success: " +:+ shipName +:+ " is now docked") s
        else refuse "Ship is already docked" s
    | Orbit =>
        if bool_decide (nav_status (ship_data ship) ≠ IN_ORBIT) then
          attempt b ship (OrbitShip (symbol (ship_data ship)))
            ("Success: " +:+ shipName +:+ " is now in orbit") s
        else refuse "Ship is already in orbit" s
    | Refuel =>
        if bool_decide (nav_status (ship_data ship) = DOCKED) then
          attempt b ship (RefuelShip (symbol (ship_data ship)))
            ("Success: " +:+ shipName +:+ " has been refueled") s
        else refuse "Error: Ship must be docked to refuel" s
    end.

(** The step that the automation would queue for the same button. *)
Definition asStep (action : ShipAction) : ActionStep :=
  match action with
  | Dock => step dock 3
  | Orbit => step orbit 3
  | Refuel => step refuel 3
  end.

End Dashboard.

(** * Properties *)

(** ** Unfolding method bodies *)

Ltac unfold_M :=
  unfold run, result, mbind, mret, M_bind, M_ret, bind, ret, try_catch, gets, modify,
    now, mark, modifyState, queueOf, shiftQueue, retryHead in *.

Lemma Orchestrator_eta (o : Orchestrator) :
  {| automationStates := automationStates o; actionQueues := actionQueues o;
     isRunning := isRunning o; localStorage := localStorage o; trace := trace o |} = o.
Proof. by destruct o. Qed.

Lemma logs_nil (o : Orchestrator) : logs [] o = o.
Proof. unfold logs. rewrite app_nil_r. apply Orchestrator_eta. Qed.

Lemma log_logs (e : Event) (evs : list Event) (o : Orchestrator) :
  log e (logs evs o) = logs (evs ++ [e]) o.
Proof. unfold log, logs; simpl. by rewrite app_assoc. Qed.

Lemma logs_logs (evs1 evs2 : list Event) (o : Orchestrator) :
  logs evs2 (logs evs1 o) = logs (evs1 ++ evs2) o.
Proof. unfold logs; simpl. by rewrite app_assoc. Qed.

(** ** [executeAction] returns, and only adds remote calls to the trace *)

Lemma call_frame (w : World) (c : GatewayCall) (o : Orchestrator) :
  ∃ r, call c w o = (r, logs [Gateway c] o).
Proof. unfold call. destruct (action_reply _ _ _); eauto. Qed.

Lemma sell_loop_frame (w : World) (sym : string) (items : list CargoItem) (o : Orchestrator) :
  ∃ r calls,
    forEach (λ item, call (SellCargo sym (item_symbol item) (item_units item))) items w o
      = (r, logs calls o) ∧ Forall (λ e, is_gateway e = true) calls.
Proof.
  revert o. induction items as [|item rest IH]; intros o; simpl.
  - exists (Returned ()), []. by rewrite logs_nil.
  - unfold_M.
    destruct (call_frame w (SellCargo sym (item_symbol item) (item_units item)) o) as [r Hr].
    rewrite Hr. destruct r as [[]|e].
    + destruct (IH (logs [Gateway (SellCargo sym (item_symbol item) (item_units item))] o))
        as (r' & calls & Heq & Hall).
      rewrite Heq, logs_logs. eexists _, _. split; [done|].
      constructor; [done|exact Hall].
    + eexists _, _. split; [done|]. by repeat constructor.
Qed.

Lemma executeAction_frame (w : World) (ship : Ship) (action : ActionStep) (o : Orchestrator) :
  ∃ success calls,
    executeAction ship action w o = (Returned success, logs calls o) ∧
    Forall (λ e, is_gateway e = true) calls.
Proof.
  assert (Hnone : ∀ b : bool, ∃ (success : bool) calls,
             (Returned b, o) = (Returned success, logs calls o) ∧
             Forall (λ e, is_gateway e = true) calls).
  { intros b. exists b, []. by rewrite logs_nil. }
  assert (Hone : ∀ c, ∃ (success : bool) calls,
             (match (match call c w o with
                     | (Returned a, o') => (Returned true, o')
                     | (Threw e, o') => (Threw e, o')
                     end) with
              | (Returned a, o') => (Returned a, o')
              | (Threw _, o') => (Returned false, o')
              end) = (Returned success, logs calls o) ∧
             Forall (λ e, is_gateway e = true) calls).
  { intros c. destruct (call_frame w c o) as [r ->].
    destruct r; eexists _, [Gateway c]; (split; [done|by repeat constructor]). }
  unfold executeAction. unfold_M.
  destruct (type action).
  - destruct (target action) as [t|]; [|apply Hnone].
    destruct (Js.truthy_string t); [apply Hone|apply Hnone].
  - case_bool_decide; [apply Hone|apply Hnone].
  - case_bool_decide; [apply Hone|apply Hnone].
  - case_bool_decide; [apply Hone|apply Hnone].
  - case_bool_decide; [apply Hone|apply Hnone].
  - case_bool_decide; [apply Hone|apply Hnone].
  - destruct (bool_decide _ && _); [|apply Hnone].
    destruct (sell_loop_frame w (symbol ship) (inventory ship) o) as (r & calls & -> & Hall).
    destruct r; eexists _, calls; (split; [done|exact Hall]).
  - apply Hnone.
  - apply Hnone.
Qed.

(** C8: an [extract] or [survey] step on a ship that is not in orbit, and a
    [refuel] or [sell] step on a ship that is not docked, make
    [executeAction] return [false] and leave the orchestrator and the trace
    as they were: no remote call is made. *)
Theorem executeAction_unmet_precondition
    (w : World) (o : Orchestrator) (ship : Ship) (action : ActionStep) :
  ((type action = extract ∨ type action = survey) ∧ nav_status ship ≠ IN_ORBIT) ∨
  ((type action = refuel ∨ type action = sell) ∧ nav_status ship ≠ DOCKED) →
  executeAction ship action w o = (Returned false, o).
Proof.
  intros [[[Ht|Ht] Hnav]|[[Ht|Ht] Hnav]]; unfold executeAction; rewrite Ht; unfold_M;
    rewrite bool_decide_eq_false_2 by done; reflexivity.
Qed.

Lemma executeAction_unmet_precondition_witness :
  executeAction (Sample.ship "X1-DF55-B7" DOCKED 0 40 100 100 []) (step extract 3)
      (Sample.world (Sample.scenarioA []))
      (Sample.orchestrator (Sample.state mining running "Mining resources") [step extract 3])
    = (Returned false,
       Sample.orchestrator (Sample.state mining running "Mining resources") [step extract 3]).
Proof.
  apply executeAction_unmet_precondition.
  left. split; [left; reflexivity | discriminate].
Defined.

(** ** The execution block *)




(** One run of the block when [executeAction] fails after the calls
    [calls]. *)
Lemma executeHead_failure (w : World) (o : Orchestrator) (ship : Ship)
    (state : AutomationState) (a : ActionStep) (rest : list ActionStep)
    (calls : list Event) :
  actionQueues o !! shipSymbol state = Some (a :: rest) →
  executeAction ship a w (log (Executing a) o)
    = (Returned false, logs calls (log (Executing a) o)) →
  run (executeHead ship state) w o =
    if maxRetries a <=? retries a + 1
    then with_states (alter (set_errorMessage (exhaustedMessage a)) (shipSymbol state))
           (with_queues <[shipSymbol state := rest]> (logs (Executing a :: calls) o))
    else with_queues <[shipSymbol state := incr_retries a :: rest]>
           (logs (Executing a :: calls) o).
Proof.
  intros Hq Hex. unfold executeHead. unfold_M. simpl. rewrite Hq. simpl.
  rewrite Hex. simpl.
  destruct (maxRetries a <=? retries a + 1); simpl.
  - unfold with_states, with_queues, logs, log; simpl.
    rewrite (alter_alt_Some _ _ _ _ Hq), alter_insert_eq. simpl.
    by rewrite <- app_assoc.
  - unfold with_queues, logs, log; simpl.
    rewrite (alter_alt_Some _ _ _ _ Hq). by rewrite <- app_assoc.
Qed.

(** One run of the block when [executeAction] succeeds. *)
Lemma executeHead_success (w : World) (o : Orchestrator) (ship : Ship)
    (state : AutomationState) (a : ActionStep) (rest : list ActionStep)
    (calls : list Event) :
  actionQueues o !! shipSymbol state = Some (a :: rest) →
  executeAction ship a w (log (Executing a) o)
    = (Returned true, logs calls (log (Executing a) o)) →
  run (executeHead ship state) w o =
    with_states (alter (set_lastAction (Js.DateObj (clock w))) (shipSymbol state))
      (with_queues <[shipSymbol state := rest]> (logs (Executing a :: calls) o)).
Proof.
  intros Hq Hex. unfold executeHead. unfold_M. simpl. rewrite Hq. simpl.
  rewrite Hex. simpl.
  unfold with_states, with_queues, logs, log; simpl.
  rewrite (alter_alt_Some _ _ _ _ Hq). simpl. by rewrite <- app_assoc.
Qed.

Lemma executeHead_empty (w : World) (o : Orchestrator) (ship : Ship) (state : AutomationState) :
  queue_of o (shipSymbol state) = [] →
  run (executeHead ship state) w o = o.
Proof.
  unfold queue_of. intros Hq. unfold executeHead. unfold_M. simpl. by rewrite Hq.
Qed.

(** ** Steps without a handler *)



(** The steps that the contract planner appends all start with no retry
    used and three allowed. *)
Lemma planDeliverable_appends (ship : Ship) (c : Contract) (acc : Plan)
    (d : ContractDeliverGood) :
  ∃ new, (planDeliverable ship c acc d).2 = acc.2 ++ new ∧
         Forall (λ a, retries a = 0 ∧ maxRetries a = 3) new.
Proof.
  destruct acc as [state queue]. unfold planDeliverable.
  destruct (Js.gt _ 0); [|exists []; by rewrite app_nil_r].
  destruct (Js.gt _ 0); [|exists []; by rewrite app_nil_r].
  eexists; split; [done|]. by repeat constructor.
Qed.

Lemma planContract_appends (ship : Ship) (contracts : list Contract)
    (state : AutomationState) (queue : list ActionStep) :
  ∃ new, (planContract ship contracts state queue).2 = queue ++ new ∧
         Forall (λ a, retries a = 0 ∧ maxRetries a = 3) new.
Proof.
  unfold planContract.
  destruct (List.find _ contracts) as [c|]; [|exists []; by rewrite app_nil_r].
  generalize (set_currentTask
                ("Working on contract: " +:+ contractTypeName (contract_type c)) state).
  intros state'.
  assert (Hgen : ∀ ds acc, ∃ new,
             (foldl (planDeliverable ship c) acc ds).2 = acc.2 ++ new ∧
             Forall (λ a, retries a = 0 ∧ maxRetries a = 3) new).
  { induction ds as [|d ds IH]; intros acc; simpl.
    - exists []. by rewrite app_nil_r.
    - destruct (IH (planDeliverable ship c acc d)) as (new2 & -> & H2).
      destruct (planDeliverable_appends ship c acc d) as (new1 & -> & H1).
      exists (new1 ++ new2). rewrite app_assoc. split; [done|by apply Forall_app]. }
  apply (Hgen _ (state', queue)).
Qed.



(** ** The blocks of [processShipAutomation] always return *)

Lemma returns_run {A} (m : M A) (w : World) (o : Orchestrator) (a : A) :
  (m w o).1 = Returned a → m w o = (Returned a, run m w o).
Proof. unfold run. destruct (m w o) as [r o']. simpl. by intros ->. Qed.

Lemma executeHead_returns (w : World) (o : Orchestrator) (ship : Ship) (state : AutomationState) :
  (executeHead ship state w o).1 = Returned ().
Proof.
  unfold executeHead. unfold_M. simpl.
  destruct (default [] (actionQueues o !! shipSymbol state)) as [|a rest]; [done|].
  destruct (executeAction_frame w ship a (log (Executing a) o)) as (success & calls & -> & _).
  destruct success; simpl; [done|].
  by destruct (maxRetries a <=? retries a + 1).
Qed.

Lemma planContractActions_returns (w : World) (o : Orchestrator) (ship : Ship)
    (state : AutomationState) (queue : list ActionStep) :
  ∃ plan, planContractActions ship state queue w o
          = (Returned plan, log (Gateway GetContracts) o).
Proof.
  unfold planContractActions, getContracts. unfold_M.
  destruct (contracts_reply w); eauto.
Qed.

Lemma planNextActions_returns (w : World) (o : Orchestrator) (ship : Ship)
    (state : AutomationState) :
  (planNextActions ship state w o).1 = Returned ().
Proof.
  unfold planNextActions. unfold_M. simpl.
  destruct (behavior state); try done.
  by destruct (planContractActions_returns w o ship
                 (default state (automationStates o !! shipSymbol state))
                 (default [] (actionQueues o !! shipSymbol state))) as [plan ->].
Qed.

Lemma planIfEmpty_returns (w : World) (o : Orchestrator) (ship : Ship) (state : AutomationState) :
  (planIfEmpty ship state w o).1 = Returned ().
Proof.
  unfold planIfEmpty. unfold_M. simpl.
  destruct (default [] (actionQueues o !! shipSymbol state)); [|done].
  pose proof (planNextActions_returns w (log (Planning (behavior state)) o) ship state) as H.
  by destruct (planNextActions ship state w (log (Planning (behavior state)) o)) as [[[]|] ?].
Qed.

(** With the ship fetched and no cooldown running, [processShipAutomation]
    is its three blocks in sequence. *)
Lemma processShipAutomation_blocks (w : World) (o : Orchestrator) (state : AutomationState)
    (ship : Ship) :
  ship_reply w (shipSymbol state) = inr ship →
  cooldownActive ship = None →
  run (processShipAutomation state) w o =
    run saveStates w
      (run (planIfEmpty ship state) w
         (run (executeHead ship state) w (log (Gateway (GetShip (shipSymbol state))) o))).
Proof.
  intros Hship Hcool. unfold processShipAutomation, getShip.
  unfold run at 1. unfold mbind, M_bind, bind. rewrite Hship, Hcool.
  rewrite (returns_run _ _ _ _ (executeHead_returns w _ ship state)).
  rewrite (returns_run _ _ _ _ (planIfEmpty_returns w _ ship state)).
  reflexivity.
Qed.




(** ** The mining planner *)

(** C2, as stated, fails: on the ship of Scenario A (fuel 100/100, cargo
    0/40, not at an asteroid, default policy) one call of the mining planner
    queues the navigation and the orbit and returns; no [extract] step is
    queued, with or without a surveyor mount. *)
Lemma scenarioA_plan_has_no_extract :
  let st := Sample.state mining running "Initializing automation" in
  (planMiningActions (Sample.scenarioA []) st []).2
    = [step_to navigate "X1-DF55-ASTEROID-1" 3; step orbit 3] ∧
  (planMiningActions (Sample.scenarioA ["MOUNT_SURVEYOR_I"]) st []).2
    = [step_to navigate "X1-DF55-ASTEROID-1" 3; step orbit 3] ∧
  type <$> (planMiningActions (Sample.scenarioA []) st []).2 ≠ [navigate; orbit; extract].
Proof. vm_compute. repeat split; discriminate. Qed.

(** C2, amended: under the default mining policy, when the cargo threshold
    is not reached, the fuel is not below the minimum and the ship is not at
    an asteroid, one call of the mining planner appends exactly
    [navigate(<system>-ASTEROID-1)] and [orbit], whatever the ship's
    mounts. *)
Theorem mining_plan_away_from_asteroid
    (ship : Ship) (state : AutomationState) (queue : list ActionStep) :
  policy_mining (policy state) = policy_mining defaultPolicy →
  cargoAtLimit ship = false →
  PrimFloat.ltb (fuelPercent ship) 10 = false →
  isAtAsteroid ship = false →
  planMiningActions ship state queue =
    (set_currentTask "Navigating to mining location" state,
     queue ++ [step_to navigate (systemSymbol ship +:+ "-ASTEROID-1") 3; step orbit 3]).
Proof.
  intros Hpol Hcargo Hfuel Hast. unfold planMiningActions.
  rewrite Hpol. simpl. rewrite Hcargo, Hfuel, Hast. reflexivity.
Qed.

Lemma mining_plan_away_from_asteroid_witness :
  planMiningActions (Sample.scenarioA ["MOUNT_SURVEYOR_I"])
      (Sample.state mining running "Initializing automation") [] =
    (Sample.state mining running "Navigating to mining location",
     [step_to navigate "X1-DF55-ASTEROID-1" 3; step orbit 3]).
Proof.
  apply (mining_plan_away_from_asteroid (Sample.scenarioA ["MOUNT_SURVEYOR_I"])
           (Sample.state mining running "Initializing automation") []);
    vm_compute; reflexivity.
Defined.

(** C6, as stated, fails twice.  At exact equality (fuel 10/100 against a
    minimum of 10) the test [<] is false and the planner goes on to plan the
    trip to the asteroid.  And with fuel 8/100 but cargo 38/40 the cargo
    stop condition is examined first and the sell plan is queued. *)
Lemma low_fuel_plan_not_at_equality_nor_with_full_cargo :
  let st := Sample.state mining running "Mining resources" in
  let at_threshold := Sample.ship "X1-DF55-A1" IN_ORBIT 0 40 10 100 [] in
  let low_and_full := Sample.ship "X1-DF55-A1" IN_ORBIT 38 40 8 100 [] in
  (PrimFloat.leb (fuelPercent at_threshold) 10 = true ∧
   (planMiningActions at_threshold st []).2
     = [step_to navigate "X1-DF55-ASTEROID-1" 3; step orbit 3]) ∧
  (PrimFloat.leb (fuelPercent low_and_full) 10 = true ∧
   (planMiningActions low_and_full st []).2
     = [step_to navigate "X1-DF55-MARKETPLACE-1" 3; step dock 3; step sell 3]).
Proof. vm_compute. repeat split. Qed.

(** C6, amended: with the low-fuel stop condition enabled, the fuel
    percentage strictly below [minFuelPercent], and the cargo stop condition
    not met (disabled, or cargo below nine tenths of the capacity), one call
    of the mining planner appends exactly [dock], [refuel], [orbit]. *)
Theorem mining_plan_on_low_fuel
    (ship : Ship) (state : AutomationState) (queue : list ActionStep) :
  let policy := policy_mining (policy state) in
  lowFuel (stopConditions policy) = true →
  PrimFloat.ltb (fuelPercent ship) (Js.toNumber (minFuelPercent policy)) = true →
  maxCargo (stopConditions policy) && cargoAtLimit ship = false →
  planMiningActions ship state queue =
    (set_currentTask "Low fuel, need to refuel" state,
     queue ++ [step dock 3; step refuel 3; step orbit 3]).
Proof.
  intros policy Hlow Hfuel Hcargo. unfold planMiningActions. fold policy.
  rewrite Hcargo, Hlow, Hfuel. reflexivity.
Qed.

Lemma mining_plan_on_low_fuel_witness :
  planMiningActions (Sample.ship "X1-DF55-ASTEROID-1" IN_ORBIT 12 40 8 100 [])
      (Sample.state mining running "Mining resources") [] =
    (Sample.state mining running "Low fuel, need to refuel",
     [step dock 3; step refuel 3; step orbit 3]).
Proof.
  apply (mining_plan_on_low_fuel (Sample.ship "X1-DF55-ASTEROID-1" IN_ORBIT 12 40 8 100 [])
           (Sample.state mining running "Mining resources") []);
    vm_compute; reflexivity.
Defined.

(** Binary64 arithmetic is part of the threshold: 57/100*100 evaluates
    below 57, so a ship at exactly 57 % of its fuel is refuelled under a
    minimum of 57. *)
Example fuelPercent_rounds_down :
  PrimFloat.ltb (fuelPercent (Sample.ship "X1-DF55-A1" IN_ORBIT 0 40 57 100 [])) 57 = true.
Proof. vm_compute. reflexivity. Qed.

(** ** Pause, resume and the run status *)

Lemma set_status_same (st : AutomationState) : set_status (status st) st = st.
Proof. by destruct st. Qed.

Lemma resumeAutomation_not_paused (w : World) (o : Orchestrator) (sym : string)
    (st : AutomationState) :
  automationStates o !! sym = Some st →
  status st ≠ paused →
  run (resumeAutomation sym) w o = o.
Proof.
  intros Hst Hne. unfold resumeAutomation, whenState. unfold_M. simpl.
  rewrite Hst. by rewrite bool_decide_eq_false_2.
Qed.

Lemma pauseAutomation_states (w : World) (o : Orchestrator) (sym : string)
    (st : AutomationState) :
  automationStates o !! sym = Some st →
  automationStates (run (pauseAutomation sym) w o)
    = <[sym := set_currentTask "Paused" (set_status paused st)]> (automationStates o) ∧
  actionQueues (run (pauseAutomation sym) w o) = actionQueues o.
Proof.
  intros Hst. unfold pauseAutomation, whenState, saveStates. unfold_M. simpl.
  rewrite Hst. simpl. split; [|done].
  rewrite (alter_alt_Some _ _ _ _ Hst), alter_insert_eq. done.
Qed.

(** C9, as stated, fails for [pauseAutomation]: on a ship that a planner
    has paused with its own task description, the call replaces the
    description by [Paused]. *)
Lemma pause_on_paused_rewrites_task :
  let st := Sample.state trading paused "No cargo to trade" in
  let o := Sample.orchestrator st [] in
  let o' := run (pauseAutomation "S1") (Sample.world (Sample.scenarioA [])) o in
  automationStates o !! "S1" = Some st ∧
  automationStates o' !! "S1" = Some (Sample.state trading paused "Paused") ∧
  automationStates o' !! "S1" ≠ automationStates o !! "S1".
Proof. vm_compute. split; [reflexivity|split; [reflexivity|discriminate]]. Qed.

(** C9, amended: [resumeAutomation] on a ship that is not paused (running
    in particular) changes nothing at all; [pauseAutomation] on a ship that
    is already paused leaves the run status and every other field as they
    were, except [currentTask], which becomes [Paused], and leaves the
    queues alone. *)
Theorem pause_and_resume_when_already_there
    (w : World) (o : Orchestrator) (sym : string) (st : AutomationState) :
  automationStates o !! sym = Some st →
  (status st ≠ paused → run (resumeAutomation sym) w o = o) ∧
  (status st = paused →
   automationStates (run (pauseAutomation sym) w o)
     = <[sym := set_currentTask "Paused" st]> (automationStates o) ∧
   actionQueues (run (pauseAutomation sym) w o) = actionQueues o).
Proof.
  intros Hst. split.
  - by apply resumeAutomation_not_paused.
  - intros Hp. destruct (pauseAutomation_states w o sym st Hst) as [Hs Hq].
    rewrite Hs, Hq, <- Hp, set_status_same. done.
Qed.

Lemma pause_and_resume_when_already_there_witness :
  let w := Sample.world (Sample.scenarioA []) in
  let busy := Sample.orchestrator (Sample.state mining running "Mining resources")
                [step extract 3] in
  let held := Sample.orchestrator (Sample.state mining paused "Cargo full, automation paused")
                [] in
  run (resumeAutomation "S1") w busy = busy ∧
  automationStates (run (pauseAutomation "S1") w held) !! "S1"
    = Some (Sample.state mining paused "Paused").
Proof.
  intros w busy held. split.
  - apply (pause_and_resume_when_already_there w busy "S1"
             (Sample.state mining running "Mining resources")).
    + reflexivity.
    + discriminate.
  - destruct (pause_and_resume_when_already_there w held "S1"
                (Sample.state mining paused "Cargo full, automation paused")) as [_ Hp].
    + reflexivity.
    + destruct Hp as [Hs _]; [reflexivity|]. rewrite Hs. reflexivity.
Defined.

(** C5, as stated, fails: [pauseAutomation] sets [paused] whatever the
    current status, so a stopped ship, or one in error, is running again
    after a pause followed by a resume, with no [startAutomation] in
    between. *)
Lemma pause_then_resume_revives_stopped_and_error :
  let w := Sample.world (Sample.scenarioA []) in
  let after (s : Status) :=
    run (resumeAutomation "S1") w
      (run (pauseAutomation "S1") w
         (Sample.orchestrator (Sample.state mining s "Stopped") [step extract 3])) in
  status <$> automationStates (after stopped) !! "S1" = Some running ∧
  status <$> automationStates (after error) !! "S1" = Some running.
Proof. vm_compute. split; reflexivity. Qed.

Lemma stopAutomation_states (w : World) (o : Orchestrator) (sym : string) :
  automationStates (run (stopAutomation sym) w o)
    = alter (λ st, set_currentTask "Stopped" (set_status stopped st)) sym
        (automationStates o).
Proof.
  unfold stopAutomation, whenState, saveStates. unfold_M. simpl.
  destruct (automationStates o !! sym) as [st|] eqn:Hst; simpl.
  - by rewrite !(alter_alt_Some _ _ _ _ Hst), alter_insert_eq.
  - by rewrite alter_alt, Hst.
Qed.

Lemma resumeAutomation_states (w : World) (o : Orchestrator) (sym : string) :
  automationStates (run (resumeAutomation sym) w o)
    = alter (λ st, if bool_decide (status st = paused)
                   then set_currentTask "Resuming" (set_status running st) else st)
        sym (automationStates o).
Proof.
  unfold resumeAutomation, whenState, saveStates. unfold_M. simpl.
  rewrite alter_alt.
  destruct (automationStates o !! sym) as [st|] eqn:Hst; simpl; [|done].
  case_bool_decide; simpl.
  - by rewrite (alter_alt_Some _ _ _ _ Hst), alter_insert_eq.
  - by rewrite insert_id.
Qed.


(** ** Executing and planning within one [processShipAutomation] *)

Lemma queue_of_cons (o : Orchestrator) (sym : string) (a : ActionStep)
    (rest : list ActionStep) :
  queue_of o sym = a :: rest → actionQueues o !! sym = Some (a :: rest).
Proof. unfold queue_of. destruct (actionQueues o !! sym); simpl; congruence. Qed.







(** ** Invariants of the orchestrator *)

Section Preservation.
Context (P : Orchestrator → Prop).

Lemma preserves_ret {A} (a : A) : preserves P (mret a : M A).
Proof. by intros w o Ho. Qed.

Lemma preserves_bind {A B} (m : M A) (k : A → M B) :
  preserves P m → (∀ a, preserves P (k a)) → preserves P (m ≫= k).
Proof.
  intros Hm Hk w o Ho. unfold mbind, M_bind, bind.
  specialize (Hm w o Ho). destruct (m w o) as [[a|e] o']; simpl in *; [|done].
  by apply Hk.
Qed.

Lemma preserves_try_catch {A} (m : M A) (h : Js.thrown → M A) :
  preserves P m → (∀ e, preserves P (h e)) → preserves P (try_catch m h).
Proof.
  intros Hm Hh w o Ho. unfold try_catch.
  specialize (Hm w o Ho). destruct (m w o) as [[a|e] o']; simpl in *; [done|].
  by apply Hh.
Qed.

Lemma preserves_gets {A} (f : Orchestrator → A) : preserves P (gets f).
Proof. by intros w o Ho. Qed.

Lemma preserves_modify (f : Orchestrator → Orchestrator) :
  (∀ o, P o → P (f o)) → preserves P (modify f).
Proof. intros Hf w o Ho. by apply Hf. Qed.

Lemma preserves_forEach {A} (body : A → M unit) (l : list A) :
  (∀ x, preserves P (body x)) → preserves P (forEach body l).
Proof.
  intros Hbody. induction l as [|x l IH]; simpl.
  - apply preserves_ret.
  - apply preserves_bind; [apply Hbody|by intros _].
Qed.
End Preservation.

Lemma Inv_log (e : Event) (o : Orchestrator) : Inv o → Inv (log e o).
Proof. done. Qed.

Lemma Inv_logs (evs : list Event) (o : Orchestrator) : Inv o → Inv (logs evs o).
Proof. done. Qed.

Lemma Inv_localStorage (v : option (list AutomationState)) (o : Orchestrator) :
  Inv o → Inv (with_localStorage v o).
Proof. done. Qed.

Lemma Inv_isRunning (b : bool) (o : Orchestrator) : Inv o → Inv (with_isRunning b o).
Proof. done. Qed.

Lemma Inv_insert_state (sym : string) (st : AutomationState) (o : Orchestrator) :
  shipSymbol st = sym → Inv o → Inv (with_states <[sym := st]> o).
Proof.
  intros Hsym [Hk Hq]. split; [|done].
  intros k s. simpl. rewrite lookup_insert. case_decide; [|by apply Hk]. congruence.
Qed.

Lemma Inv_alter_state (sym : string) (f : AutomationState → AutomationState)
    (o : Orchestrator) :
  (∀ st, automationStates o !! sym = Some st → shipSymbol (f st) = shipSymbol st) →
  Inv o → Inv (with_states (alter f sym) o).
Proof.
  intros Hf Ho. unfold with_states. rewrite alter_alt.
  destruct (automationStates o !! sym) as [st|] eqn:Hst.
  - apply (Inv_insert_state sym (f st) o); [|done].
    rewrite (Hf st eq_refl). by apply (proj1 Ho).
  - by rewrite Orchestrator_eta.
Qed.

Lemma Inv_insert_queue (sym : string) (q : list ActionStep) (o : Orchestrator) :
  retries_left q → Inv o → Inv (with_queues <[sym := q]> o).
Proof.
  intros Hq [Hk Hqs]. split; [done|].
  intros k q'. simpl. rewrite lookup_insert. case_decide; [|by apply Hqs]. congruence.
Qed.

Lemma Inv_queue_of (o : Orchestrator) (sym : string) : Inv o → retries_left (queue_of o sym).
Proof.
  intros [_ Hq]. unfold queue_of.
  destruct (actionQueues o !! sym) as [q|] eqn:E; simpl; [by apply (Hq sym)|constructor].
Qed.

Lemma modifyState_preserves (sym : string) (f : AutomationState → AutomationState) :
  (∀ st, shipSymbol (f st) = shipSymbol st) → preserves Inv (modifyState sym f).
Proof. intros Hf. apply preserves_modify. intros o. apply Inv_alter_state. auto. Qed.

Lemma saveStates_preserves : preserves Inv saveStates.
Proof. apply preserves_modify. intros o. apply Inv_localStorage. Qed.

(** *** Planners only append steps that have retries left *)

Lemma retries_left_app_fresh (queue new : list ActionStep) :
  retries_left queue → fresh_steps new → retries_left (queue ++ new).
Proof.
  intros Hq Hnew. apply Forall_app. split; [done|].
  eapply Forall_impl; [exact Hnew|]. intros a [-> ?]. done.
Qed.

Lemma planSellActions_sound (ship : Ship) (state : AutomationState) (queue : list ActionStep) :
  shipSymbol (planSellActions ship state queue).1 = shipSymbol state ∧
  (retries_left queue → retries_left (planSellActions ship state queue).2).
Proof.
  unfold planSellActions. destruct (PrimFloat.eqb _ _); simpl; [done|].
  split; [done|]. intros Hq. apply retries_left_app_fresh; [done|].
  by repeat constructor.
Qed.

Lemma planMiningActions_sound (ship : Ship) (state : AutomationState)
    (queue : list ActionStep) :
  shipSymbol (planMiningActions ship state queue).1 = shipSymbol state ∧
  (retries_left queue → retries_left (planMiningActions ship state queue).2).
Proof.
  unfold planMiningActions.
  destruct (maxCargo _ && cargoAtLimit ship).
  { destruct (autoSellWhenFull _); [|done].
    apply (planSellActions_sound ship
             (set_currentTask "Cargo full, finding market to sell" state) queue). }
  destruct (lowFuel _ && _); simpl.
  { split; [done|]. intros Hq. apply retries_left_app_fresh; [done|by repeat constructor]. }
  destruct (negb (isAtAsteroid ship)); simpl.
  { split; [done|]. intros Hq. apply retries_left_app_fresh; [done|by repeat constructor]. }
  split; [done|]. intros Hq.
  apply retries_left_app_fresh; [|by repeat constructor].
  assert (H1 : retries_left
                 (if bool_decide (nav_status ship ≠ IN_ORBIT)
                  then queue ++ [step orbit 3] else queue)).
  { case_bool_decide; [|done].
    apply retries_left_app_fresh; [done|by repeat constructor]. }
  destruct (hasSurveyor ship); [|done].
  apply retries_left_app_fresh; [done|by repeat constructor].
Qed.

Lemma planTradingActions_sound (ship : Ship) (state : AutomationState)
    (queue : list ActionStep) :
  shipSymbol (planTradingActions ship state queue).1 = shipSymbol state ∧
  (retries_left queue → retries_left (planTradingActions ship state queue).2).
Proof.
  unfold planTradingActions. destruct (Js.gt _ _); [|done].
  apply (planSellActions_sound ship
           (set_currentTask "Analyzing trade opportunities" state) queue).
Qed.

Lemma planDeliverable_symbol (ship : Ship) (c : Contract) (acc : Plan)
    (d : ContractDeliverGood) :
  shipSymbol (planDeliverable ship c acc d).1 = shipSymbol acc.1.
Proof.
  destruct acc as [state queue]. unfold planDeliverable.
  destruct (Js.gt _ 0); [|done]. by destruct (Js.gt _ 0).
Qed.

Lemma planContract_sound (ship : Ship) (contracts : list Contract)
    (state : AutomationState) (queue : list ActionStep) :
  shipSymbol (planContract ship contracts state queue).1 = shipSymbol state ∧
  (retries_left queue → retries_left (planContract ship contracts state queue).2).
Proof.
  split.
  - unfold planContract. destruct (List.find _ contracts) as [c|]; [|done].
    generalize (set_currentTask
                  ("Working on contract: " +:+ contractTypeName (contract_type c)) state)
               (eq_refl : shipSymbol
                  (set_currentTask
                     ("Working on contract: " +:+ contractTypeName (contract_type c)) state)
                  = shipSymbol state).
    intros state' Hs'.
    assert (Hgen : ∀ ds acc, shipSymbol (foldl (planDeliverable ship c) acc ds).1
                             = shipSymbol acc.1).
    { induction ds as [|d ds IH]; intros acc; simpl; [done|].
      by rewrite IH, planDeliverable_symbol. }
    by rewrite Hgen.
  - intros Hq. destruct (planContract_appends ship contracts state queue) as (new & -> & Hnew).
    apply retries_left_app_fresh; [done|].
    eapply Forall_impl; [exact Hnew|]. intros a [-> ->]. done.
Qed.

Lemma planNextActions_preserves (ship : Ship) (state : AutomationState) :
  preserves Inv (planNextActions ship state).
Proof.
  intros w o Ho. unfold planNextActions. unfold_M. simpl.
  set (sym := shipSymbol state).
  set (queue := default [] (actionQueues o !! sym)).
  set (current := default state (automationStates o !! sym)).
  assert (Hqueue : retries_left queue) by exact (Inv_queue_of o sym Ho).
  assert (Hfinish : ∀ (plan : Plan) (o' : Orchestrator),
             Inv o' → automationStates o' = automationStates o →
             shipSymbol plan.1 = shipSymbol current → retries_left plan.2 →
             Inv (with_queues <[sym := plan.2]>
                    (with_states (alter (λ _, plan.1) sym) o'))).
  { intros plan o' Ho' Hsame Hsym Hleft.
    apply Inv_insert_queue; [done|].
    apply Inv_alter_state; [|done].
    intros st Hst. rewrite Hsym. unfold current. rewrite Hsame in Hst. by rewrite Hst. }
  destruct (behavior state); simpl.
  - apply (Hfinish (planMiningActions ship current queue) o Ho eq_refl);
      by apply planMiningActions_sound.
  - apply (Hfinish (planTradingActions ship current queue) o Ho eq_refl);
      by apply planTradingActions_sound.
  - unfold planContractActions, getContracts. unfold_M.
    destruct (contracts_reply w) as [e|contracts]; simpl.
    + apply (Hfinish (set_errorMessage "Failed to plan contract actions"
                        (set_status error (set_currentTask "Checking active contracts" current)),
                      queue) (log (Gateway GetContracts) o)); done.
    + pose proof (planContract_sound ship contracts
                    (set_currentTask "Checking active contracts" current) queue)
        as [Hsym Hleft].
      apply (Hfinish (planContract ship contracts
                        (set_currentTask "Checking active contracts" current) queue)
               (log (Gateway GetContracts) o)); [done|done|exact Hsym|by apply Hleft].
  - apply (Hfinish (current, queue) o Ho eq_refl); done.
Qed.

Lemma planIfEmpty_preserves (ship : Ship) (state : AutomationState) :
  preserves Inv (planIfEmpty ship state).
Proof.
  unfold planIfEmpty. apply preserves_bind; [apply preserves_gets|].
  intros [|a rest]; [|apply preserves_ret].
  apply preserves_bind; [by apply preserves_modify|].
  intros _. apply planNextActions_preserves.
Qed.

Lemma executeHead_preserves (ship : Ship) (state : AutomationState) :
  preserves Inv (executeHead ship state).
Proof.
  intros w o Ho. change ((executeHead ship state w o).2) with (run (executeHead ship state) w o).
  destruct (queue_of o (shipSymbol state)) as [|a rest] eqn:Hq.
  - by rewrite executeHead_empty.
  - pose proof (Inv_queue_of o (shipSymbol state) Ho) as Hleft. rewrite Hq in Hleft.
    apply Forall_cons in Hleft as [Ha Hrest].
    apply queue_of_cons in Hq.
    destruct (executeAction_frame w ship a (log (Executing a) o))
      as (success & calls & Hex & _).
    destruct success.
    + rewrite (executeHead_success w o ship state a rest calls Hq Hex).
      apply Inv_alter_state; [done|]. by apply Inv_insert_queue.
    + rewrite (executeHead_failure w o ship state a rest calls Hq Hex).
      destruct (Z.leb_spec (maxRetries a) (retries a + 1)).
      * apply Inv_alter_state; [done|]. by apply Inv_insert_queue.
      * apply Inv_insert_queue; [|done]. constructor; [simpl; lia|done].
Qed.

Lemma processShipAutomation_preserves (state : AutomationState) :
  preserves Inv (processShipAutomation state).
Proof.
  unfold processShipAutomation. apply preserves_bind.
  - intros w o Ho. unfold getShip. by destruct (ship_reply w (shipSymbol state)).
  - intros ship. destruct (cooldownActive ship) as [remaining|].
    + apply preserves_bind; [by apply modifyState_preserves|].
      intros _. apply saveStates_preserves.
    + apply preserves_bind; [apply executeHead_preserves|]. intros _.
      apply preserves_bind; [apply planIfEmpty_preserves|]. intros _.
      apply saveStates_preserves.
Qed.

Lemma tick_preserves : preserves Inv tick.
Proof.
  unfold tick. apply preserves_bind; [apply preserves_gets|]. intros active.
  apply preserves_forEach. intros state.
  apply preserves_try_catch; [apply processShipAutomation_preserves|].
  intros e. apply preserves_bind; [by apply modifyState_preserves|].
  intros _. apply saveStates_preserves.
Qed.

Lemma whenState_preserves (sym : string) (body : AutomationState → M unit) :
  (∀ st, preserves Inv (body st)) → preserves Inv (whenState sym body).
Proof.
  intros Hbody. unfold whenState. apply preserves_bind; [apply preserves_gets|].
  intros [st|]; [apply Hbody|apply preserves_ret].
Qed.

Lemma perform_preserves (op : Op) : preserves Inv (perform op).
Proof.
  destruct op as [sym b p|sym|sym|sym|]; simpl.
  - unfold startAutomation. apply preserves_bind; [by intros w o Ho|]. intros t.
    apply preserves_bind.
    { apply preserves_modify. intros o. by apply Inv_insert_state. }
    intros _. apply preserves_bind.
    { apply preserves_modify. intros o. apply Inv_insert_queue. constructor. }
    intros _. apply preserves_bind; [apply saveStates_preserves|]. intros _.
    unfold start. apply preserves_bind; [apply preserves_gets|].
    intros [|]; [apply preserves_ret|]. apply preserves_modify. intros o. apply Inv_isRunning.
  - apply whenState_preserves. intros _.
    apply preserves_bind; [by apply modifyState_preserves|]. intros _.
    apply preserves_bind; [by apply modifyState_preserves|]. intros _.
    apply saveStates_preserves.
  - apply whenState_preserves. intros _.
    apply preserves_bind; [by apply modifyState_preserves|]. intros _.
    apply preserves_bind; [by apply modifyState_preserves|]. intros _.
    apply saveStates_preserves.
  - apply whenState_preserves. intros st. case_bool_decide; [|apply preserves_ret].
    apply preserves_bind; [by apply modifyState_preserves|]. intros _.
    apply preserves_bind; [by apply modifyState_preserves|]. intros _.
    apply saveStates_preserves.
  - apply tick_preserves.
Qed.

Lemma states_of_list_snoc (l : list AutomationState) (s : AutomationState) :
  states_of_list (l ++ [s]) = <[shipSymbol s := s]> (states_of_list l).
Proof. unfold states_of_list. by rewrite foldl_snoc. Qed.

Lemma states_of_list_well_keyed (l : list AutomationState) : well_keyed (states_of_list l).
Proof.
  induction l as [|s l IH] using rev_ind.
  - intros k st. unfold states_of_list. simpl. by rewrite lookup_empty.
  - rewrite states_of_list_snoc. intros k st. rewrite lookup_insert.
    case_decide; [congruence|apply IH].
Qed.

Lemma constructor_establishes (w : World) (stored : option (list AutomationState)) :
  Inv (run constructor w (fresh stored)).
Proof.
  unfold constructor, loadStates. unfold_M. simpl.
  destruct stored as [l|]; (split; [|by intros k q; simpl; rewrite lookup_empty]).
  - simpl. apply states_of_list_well_keyed.
  - intros k st. simpl. by rewrite lookup_empty.
Qed.

Lemma reachable_Inv (o : Orchestrator) : reachable o → Inv o.
Proof.
  induction 1 as [w stored|w op o _ IH].
  - apply constructor_establishes.
  - by apply perform_preserves.
Qed.

(** ** A tick leaves the ships that are not running alone *)

Section OtherShip.
Context (sym : string) (st0 : AutomationState).

Lemma keeps_modifyState (k : string) (f : AutomationState → AutomationState) :
  k ≠ sym → preserves (keeps sym st0) (modifyState k f).
Proof.
  intros Hk. apply preserves_modify. intros o Ho. unfold keeps in *. simpl.
  by rewrite lookup_alter_ne.
Qed.

Lemma keeps_executeAction (ship : Ship) (a : ActionStep) :
  preserves (keeps sym st0) (executeAction ship a).
Proof.
  intros w o Ho.
  by destruct (executeAction_frame w ship a o) as (success & calls & -> & _).
Qed.

Lemma keeps_executeHead (ship : Ship) (state : AutomationState) :
  shipSymbol state ≠ sym → preserves (keeps sym st0) (executeHead ship state).
Proof.
  intros Hk. unfold executeHead. apply preserves_bind; [apply preserves_gets|].
  intros [|a rest]; [apply preserves_ret|].
  apply preserves_bind; [by apply preserves_modify|]. intros _.
  apply preserves_bind; [apply keeps_executeAction|]. intros [|].
  - apply preserves_bind; [by apply preserves_modify|]. intros _.
    apply preserves_bind; [by intros w o Ho|]. intros t.
    by apply keeps_modifyState.
  - apply preserves_bind; [by apply preserves_modify|]. intros _.
    destruct (maxRetries a <=? retries a + 1); [|apply preserves_ret].
    apply preserves_bind; [by apply preserves_modify|]. intros _.
    by apply keeps_modifyState.
Qed.

Lemma keeps_planIfEmpty (ship : Ship) (state : AutomationState) :
  shipSymbol state ≠ sym → preserves (keeps sym st0) (planIfEmpty ship state).
Proof.
  intros Hk. unfold planIfEmpty. apply preserves_bind; [apply preserves_gets|].
  intros [|a rest]; [|apply preserves_ret].
  apply preserves_bind; [by apply preserves_modify|]. intros _.
  unfold planNextActions.
  apply preserves_bind; [apply preserves_gets|]. intros queue.
  apply preserves_bind; [apply preserves_gets|]. intros current.
  apply preserves_bind.
  { destruct (behavior state); try apply preserves_ret.
    intros w o Ho.
    by destruct (planContractActions_returns w o ship current queue) as [plan ->]. }
  intros plan. apply preserves_bind; [by apply keeps_modifyState|]. intros _.
  by apply preserves_modify.
Qed.

Lemma keeps_processShipAutomation (state : AutomationState) :
  shipSymbol state ≠ sym → preserves (keeps sym st0) (processShipAutomation state).
Proof.
  intros Hk. unfold processShipAutomation. apply preserves_bind.
  - intros w o Ho. unfold getShip. by destruct (ship_reply w (shipSymbol state)).
  - intros ship. destruct (cooldownActive ship) as [remaining|].
    + apply preserves_bind; [by apply keeps_modifyState|]. intros _.
      by apply preserves_modify.
    + apply preserves_bind; [by apply keeps_executeHead|]. intros _.
      apply preserves_bind; [by apply keeps_planIfEmpty|]. intros _.
      by apply preserves_modify.
Qed.

Lemma keeps_forEach {A} (body : A → M unit) (l : list A) :
  Forall (λ x, preserves (keeps sym st0) (body x)) l →
  preserves (keeps sym st0) (forEach body l).
Proof.
  induction 1 as [|x l Hx _ IH]; simpl.
  - apply preserves_ret.
  - apply preserves_bind; [exact Hx|by intros _].
Qed.

(** The states that a tick processes are the running ones, each stored
    under its own symbol: none of them is the state of a ship that is not
    running. *)
Lemma keeps_tick (w : World) (o : Orchestrator) :
  well_keyed (automationStates o) →
  status st0 ≠ running →
  keeps sym st0 o → keeps sym st0 (run tick w o).
Proof.
  intros Hkeys Hst0 Ho. unfold tick, run. unfold mbind, M_bind, bind, gets.
  apply keeps_forEach; [|done].
  apply Forall_forall. intros state Hin.
  apply list_elem_of_filter in Hin as [Hrun Hin].
  assert (Hk : shipSymbol state ≠ sym).
  { unfold values in Hin. apply list_elem_of_fmap in Hin as ([k s] & -> & Hin).
    apply elem_of_map_to_list in Hin. simpl in *.
    rewrite (Hkeys k s Hin). intros ->.
    unfold keeps in Ho. congruence. }
  apply preserves_try_catch; [by apply keeps_processShipAutomation|].
  intros e. apply preserves_bind; [by apply keeps_modifyState|]. intros _.
  by apply preserves_modify.
Qed.

End OtherShip.

(** ** What the timer can do to a run status *)

Lemma preserves_whenState (P : Orchestrator → Prop) (sym : string)
    (body : AutomationState → M unit) :
  (∀ st, preserves P (body st)) → preserves P (whenState sym body).
Proof.
  intros Hbody. unfold whenState. apply preserves_bind; [apply preserves_gets|].
  intros [st|]; [apply Hbody|apply preserves_ret].
Qed.

Lemma state_has_alter (Q : AutomationState → Prop) (sym k : string)
    (f : AutomationState → AutomationState) (o : Orchestrator) :
  (k = sym → ∀ s, automationStates o !! k = Some s → Q s → Q (f s)) →
  state_has Q sym o → state_has Q sym (with_states (alter f k) o).
Proof.
  intros Hf (s & Hs & HQ). unfold state_has. simpl.
  destruct (decide (k = sym)) as [->|Hne].
  - exists (f s). rewrite lookup_alter_eq, Hs. split; [done|]. by apply Hf.
  - exists s. by rewrite lookup_alter_ne.
Qed.

Section TurnWrites.
Context (Q : AutomationState → Prop) (sym : string).
Hypothesis Q_currentTask : ∀ t s, Q s → Q (set_currentTask t s).
Hypothesis Q_progress : ∀ p s, Q s → Q (set_progress p s).
Hypothesis Q_lastAction : ∀ d s, Q s → Q (set_lastAction d s).
Hypothesis Q_errorMessage : ∀ m s, Q s → Q (set_errorMessage m s).
Hypothesis Q_paused : ∀ s, Q s → Q (set_status paused s).
Hypothesis Q_error : ∀ s, Q s → Q (set_status error s).

Lemma written_modifyState (k : string) (f : AutomationState → AutomationState) :
  (∀ s, Q s → Q (f s)) → preserves (state_has Q sym) (modifyState k f).
Proof.
  intros Hf. apply preserves_modify. intros o. apply state_has_alter.
  intros _ s _. apply Hf.
Qed.

Lemma written_planSellActions (ship : Ship) (state : AutomationState)
    (queue : list ActionStep) :
  Q state → Q (planSellActions ship state queue).1.
Proof. intros HQ. unfold planSellActions. destruct (PrimFloat.eqb _ _); simpl; auto. Qed.

Lemma written_planMiningActions (ship : Ship) (state : AutomationState)
    (queue : list ActionStep) :
  Q state → Q (planMiningActions ship state queue).1.
Proof.
  intros HQ. unfold planMiningActions.
  repeat match goal with
         | |- context [if ?b then _ else _] => destruct b
         end; simpl; auto using written_planSellActions.
Qed.

Lemma written_planTradingActions (ship : Ship) (state : AutomationState)
    (queue : list ActionStep) :
  Q state → Q (planTradingActions ship state queue).1.
Proof.
  intros HQ. unfold planTradingActions.
  destruct (Js.gt _ _); simpl; auto using written_planSellActions.
Qed.

Lemma written_planContract (ship : Ship) (contracts : list Contract)
    (state : AutomationState) (queue : list ActionStep) :
  Q state → Q (planContract ship contracts state queue).1.
Proof.
  intros HQ. unfold planContract.
  destruct (List.find _ contracts) as [c|]; [|simpl; auto].
  set (acc := (set_currentTask _ state, queue)).
  assert (Hacc : Q acc.1) by (simpl; auto).
  clearbody acc. revert acc Hacc.
  induction (default [] (deliver_terms c)) as [|d ds IH]; intros acc Hacc; simpl; [done|].
  apply IH. destruct acc as [st q]. unfold planDeliverable.
  destruct (Js.gt _ 0); [|done]. destruct (Js.gt _ 0); simpl in *; auto.
Qed.

Lemma written_executeHead (ship : Ship) (state : AutomationState) :
  preserves (state_has Q sym) (executeHead ship state).
Proof.
  unfold executeHead. apply preserves_bind; [apply preserves_gets|].
  intros [|a rest]; [apply preserves_ret|].
  apply preserves_bind; [by apply preserves_modify|]. intros _.
  apply preserves_bind.
  { intros w o Ho.
    by destruct (executeAction_frame w ship a o) as (success & calls & -> & _). }
  intros [|].
  - apply preserves_bind; [by apply preserves_modify|]. intros _.
    apply preserves_bind; [by intros w o Ho|]. intros t.
    apply written_modifyState. auto.
  - apply preserves_bind; [by apply preserves_modify|]. intros _.
    destruct (maxRetries a <=? retries a + 1); [|apply preserves_ret].
    apply preserves_bind; [by apply preserves_modify|]. intros _.
    apply written_modifyState. auto.
Qed.

Lemma written_planNextActions (ship : Ship) (state : AutomationState) :
  preserves (state_has Q sym) (planNextActions ship state).
Proof.
  intros w o Ho. unfold planNextActions. unfold_M. simpl.
  set (k := shipSymbol state).
  set (queue := default [] (actionQueues o !! k)).
  set (current := default state (automationStates o !! k)).
  assert (Hfinish : ∀ (plan : Plan) (o' : Orchestrator),
             state_has Q sym o' → automationStates o' = automationStates o →
             (Q current → Q plan.1) →
             state_has Q sym (with_queues <[k := plan.2]>
                                (with_states (alter (λ _, plan.1) k) o'))).
  { intros plan o' Ho' Hsame Hkept.
    apply (state_has_alter Q sym k (λ _, plan.1) o'); [|done].
    intros _ s Hs HQ. rewrite Hsame in Hs. apply Hkept. unfold current. by rewrite Hs. }
  destruct (behavior state); simpl.
  - apply (Hfinish (planMiningActions ship current queue) o Ho eq_refl).
    apply written_planMiningActions.
  - apply (Hfinish (planTradingActions ship current queue) o Ho eq_refl).
    apply written_planTradingActions.
  - unfold planContractActions, getContracts. unfold_M.
    destruct (contracts_reply w) as [e|contracts]; simpl.
    + apply (Hfinish (set_errorMessage "Failed to plan contract actions"
                        (set_status error (set_currentTask "Checking active contracts" current)),
                      queue) (log (Gateway GetContracts) o)); [done|done|].
      simpl. auto.
    + apply (Hfinish (planContract ship contracts
                        (set_currentTask "Checking active contracts" current) queue)
               (log (Gateway GetContracts) o)); [done|done|].
      intros HQ. apply written_planContract. auto.
  - by apply (Hfinish (current, queue) o Ho eq_refl).
Qed.

Lemma written_processShipAutomation (state : AutomationState) :
  preserves (state_has Q sym) (processShipAutomation state).
Proof.
  unfold processShipAutomation. apply preserves_bind.
  - intros w o Ho. unfold getShip. by destruct (ship_reply w (shipSymbol state)).
  - intros ship. destruct (cooldownActive ship) as [remaining|].
    + apply preserves_bind; [apply written_modifyState; auto|].
      intros _. by apply preserves_modify.
    + apply preserves_bind; [apply written_executeHead|]. intros _.
      apply preserves_bind; [|intros _; by apply preserves_modify].
      unfold planIfEmpty. apply preserves_bind; [apply preserves_gets|].
      intros [|a rest]; [|apply preserves_ret].
      apply preserves_bind; [by apply preserves_modify|].
      intros _. apply written_planNextActions.
Qed.

Lemma written_tickTurn (state : AutomationState) :
  preserves (state_has Q sym) (tickTurn state).
Proof.
  unfold tickTurn.
  apply preserves_try_catch; [apply written_processShipAutomation|].
  intros e. apply preserves_bind; [|intros _; by apply preserves_modify].
  apply written_modifyState. auto.
Qed.

Lemma written_tick : preserves (state_has Q sym) tick.
Proof.
  unfold tick. apply preserves_bind; [apply preserves_gets|]. intros active.
  apply preserves_forEach. intros state. apply written_tickTurn.
Qed.

End TurnWrites.

(** A turn never writes [running]. *)
Lemma turn_never_revives (sym : string) (state : AutomationState) :
  preserves (state_has (λ s, status s ≠ running) sym) (tickTurn state).
Proof. by apply written_tickTurn. Qed.

(** A turn leaves a status as it is, or makes it [paused] or [error]. *)
Lemma turn_pauses_or_fails (sym : string) (state : AutomationState) (before : Status) :
  preserves (state_has (λ s, status s = before ∨ status s = paused ∨ status s = error) sym)
    (tickTurn state).
Proof. apply written_tickTurn; simpl; auto. Qed.

(** Every control but a start, and a resume of the ship itself, leaves a
    ship that is not running so. *)
Lemma spared_control (op : Op) (sym : string) :
  spares sym (Control op) = true →
  preserves (state_has (λ s, status s ≠ running) sym) (perform op).
Proof.
  set (P := state_has (λ s, status s ≠ running) sym).
  assert (Hset : ∀ k v t,
            (k = sym → v ≠ running) →
            preserves P (modifyState k (set_status v);;
                         modifyState k (set_currentTask t);;
                         saveStates)).
  { intros k v t Hv.
    apply preserves_bind.
    { apply preserves_modify. intros o. apply state_has_alter.
      intros Hk s _ _. by apply Hv. }
    intros _. apply preserves_bind.
    { apply preserves_modify. intros o. by apply state_has_alter. }
    intros _. by apply preserves_modify. }
  intros Hop. destruct op as [s b p|s|s|s|]; simpl in Hop; [discriminate|..]; simpl.
  - apply preserves_whenState. intros _. by apply Hset.
  - apply preserves_whenState. intros _. by apply Hset.
  - apply bool_decide_eq_true in Hop.
    apply preserves_whenState. intros st.
    case_bool_decide; [|apply preserves_ret]. by apply Hset.
  - by apply written_tick.
Qed.

Lemma spared_stays_down (w : World) (m : Move) (c : Flight) (sym : string) :
  spares sym m = true →
  state_has (λ s, status s ≠ running) sym c.1 →
  state_has (λ s, status s ≠ running) sym (move w m c).1.
Proof.
  intros Hm Hc. destruct m as [op| |i]; simpl.
  - by apply spared_control.
  - done.
  - destruct (c.2 !! i) as [state|]; [|done]. simpl. by apply turn_never_revives.
Qed.

Lemma tickTurn_preserves_Inv (state : AutomationState) : preserves Inv (tickTurn state).
Proof.
  unfold tickTurn.
  apply preserves_try_catch; [apply processShipAutomation_preserves|].
  intros e. apply preserves_bind; [by apply modifyState_preserves|].
  intros _. apply saveStates_preserves.
Qed.

Lemma tickTurn_keeps (sym : string) (st0 state : AutomationState) :
  shipSymbol state ≠ sym → preserves (keeps sym st0) (tickTurn state).
Proof.
  intros Hk. unfold tickTurn.
  apply preserves_try_catch; [by apply keeps_processShipAutomation|].
  intros e. apply preserves_bind; [by apply keeps_modifyState|]. intros _.
  by apply preserves_modify.
Qed.

(** The states that a tick lists are running, each stored under its own
    symbol. *)
Lemma listed_are_running (o : Orchestrator) (state : AutomationState) :
  well_keyed (automationStates o) →
  state ∈ filter (λ state, status state = running) (values (automationStates o)) →
  automationStates o !! shipSymbol state = Some state ∧ status state = running.
Proof.
  intros Hkeys [Hrun Hin]%list_elem_of_filter. split; [|done].
  unfold values in Hin. apply list_elem_of_fmap in Hin as ([k s] & -> & Hin).
  apply elem_of_map_to_list in Hin. simpl. by rewrite (Hkeys k s Hin).
Qed.

(** ** The run status under the public controls and the timer *)

(** A stopped ship, or one in error, stays so under resume calls, stop
    calls and ticks. *)
Lemma down_stays_down (w : World) (op : Op) (o : Orchestrator) (sym : string)
    (st : AutomationState) :
  resume_stop_or_tick op = true →
  Inv o →
  automationStates o !! sym = Some st →
  status st = stopped ∨ status st = error →
  ∃ st', automationStates (run (perform op) w o) !! sym = Some st' ∧
         (status st' = stopped ∨ status st' = error).
Proof.
  intros Hop Ho Hst Hdown. destruct op as [? ? ?|s|s|s|]; try discriminate; simpl.
  - rewrite stopAutomation_states, lookup_alter. case_decide; subst.
    + rewrite Hst. simpl. eexists; split; [done|]. by left.
    + by exists st.
  - rewrite resumeAutomation_states, lookup_alter. case_decide; subst.
    + rewrite Hst. simpl. rewrite bool_decide_eq_false_2; [by exists st|].
      destruct Hdown as [-> | ->]; discriminate.
    + by exists st.
  - exists st. split; [|done].
    apply (keeps_tick sym st w o); [apply Ho| |done].
    destruct Hdown as [-> | ->]; discriminate.
Qed.

(** A ship that is stopped or in error while no turn for it is pending
    stays so under resume calls, stop calls and the timer, interleaved. *)
Lemma down_through_moves (ms : list (World * Move)) (c : Flight) (sym : string) :
  Forall (λ wm, resume_stop_or_timer wm.2 = true) ms →
  Inv c.1 →
  Forall (λ state, shipSymbol state ≠ sym) c.2 →
  state_has (λ s, status s = stopped ∨ status s = error) sym c.1 →
  state_has (λ s, status s = stopped ∨ status s = error) sym (moves ms c).1.
Proof.
  intros Hms. revert c.
  induction Hms as [|[w m] ms Hm _ IH]; intros c Hinv Hpending Hdown; [done|].
  simpl. simpl in Hm. destruct Hdown as (st & Hst & Hdown).
  destruct m as [op| |i]; simpl in *.
  - apply IH; simpl; [by apply perform_preserves|done|].
    destruct (down_stays_down w op c.1 sym st Hm Hinv Hst Hdown) as (st' & Hst' & Hdown').
    by exists st'.
  - apply IH; simpl; [done| |by exists st].
    apply Forall_app. split; [done|].
    apply Forall_forall. intros state Hin.
    destruct (listed_are_running c.1 state (proj1 Hinv) Hin) as [Hstate Hrun].
    intros Heq. rewrite Heq, Hst in Hstate. injection Hstate as ->.
    destruct Hdown as [Hd|Hd]; congruence.
  - destruct (c.2 !! i) as [state|] eqn:Hi; [|apply IH; try done; by exists st].
    apply IH; simpl.
    + by apply tickTurn_preserves_Inv.
    + by apply Forall_delete.
    + exists st. split; [|done].
      apply (tickTurn_keeps sym st state); [|done].
      rewrite Forall_forall in Hpending. apply Hpending.
      by apply list_elem_of_lookup_2 in Hi.
Qed.

Lemma spared_through_moves (ms : list (World * Move)) (c : Flight) (sym : string) :
  Forall (λ wm, spares sym wm.2 = true) ms →
  state_has (λ s, status s ≠ running) sym c.1 →
  state_has (λ s, status s ≠ running) sym (moves ms c).1.
Proof.
  intros Hms. revert c.
  induction Hms as [|[w m] ms Hm _ IH]; intros c Hc; [done|].
  simpl. apply IH. by apply spared_stays_down.
Qed.

(** C5, amended: [stopAutomation] moves a ship to [stopped] from any
    status, [resumeAutomation] moves it to [running] from [paused] and
    changes no other status, [pauseAutomation] moves a ship to [paused] from
    any status.  The timer never writes [running]: a turn of a tick leaves a
    status as it is or makes it [paused] or [error], so that a ship that is
    not running stays so under every move but a start and a resume of the
    ship itself, whatever turns are pending.  For a ship that is stopped or
    in error while no tick is in flight, no sequence of resume calls, stop
    calls and ticks, on whatever ships, makes it running, whether the ticks
    run one after the other or the calls land between the turns of ticks
    that began after the ship got there.  (A tick that listed the ship as
    running before it was stopped is another matter: see
    [stop_during_a_tick_is_overwritten].) *)
Theorem run_status_transitions_of_the_controls
    (w : World) (calls : list (World * Op)) (o : Orchestrator) (sym : string)
    (st : AutomationState) :
  reachable o →
  automationStates o !! sym = Some st →
  Forall (λ call, resume_stop_or_tick call.2 = true) calls →
  status <$> automationStates (run (stopAutomation sym) w o) !! sym = Some stopped ∧
  status <$> automationStates (run (resumeAutomation sym) w o) !! sym
    = Some (if bool_decide (status st = paused) then running else status st) ∧
  status <$> automationStates (run (pauseAutomation sym) w o) !! sym = Some paused ∧
  (status st = stopped ∨ status st = error →
   ∃ st', automationStates (performAll calls o) !! sym = Some st' ∧
          (status st' = stopped ∨ status st' = error)) ∧
  (status st = stopped ∨ status st = error →
   ∀ ms, Forall (λ wm, resume_stop_or_timer wm.2 = true) ms →
     ∃ st', automationStates (moves ms (o, [])).1 !! sym = Some st' ∧
            (status st' = stopped ∨ status st' = error)) ∧
  (status st ≠ running →
   ∀ pending ms, Forall (λ wm, spares sym wm.2 = true) ms →
     ∃ st', automationStates (moves ms (o, pending)).1 !! sym = Some st' ∧
            status st' ≠ running) ∧
  (∀ w' state,
     ∃ st', automationStates (run (tickTurn state) w' o) !! sym = Some st' ∧
            (status st' = status st ∨ status st' = paused ∨ status st' = error)).
Proof.
  intros Hreach Hst Hcalls. pose proof (reachable_Inv o Hreach) as Ho.
  clear Hreach. split; [|split; [|split; [|split; [|split; [|split]]]]].
  - by rewrite stopAutomation_states, lookup_alter_eq, Hst.
  - rewrite resumeAutomation_states, lookup_alter_eq, Hst. simpl.
    by case_bool_decide.
  - destruct (pauseAutomation_states w o sym st Hst) as [-> _].
    by rewrite lookup_insert_eq.
  - revert o st Ho Hst.
    induction Hcalls as [|[w' op] calls Hop _ IH]; intros o st Ho Hst Hdown.
    + by exists st.
    + simpl.
      destruct (down_stays_down w' op o sym st Hop Ho Hst Hdown) as (st1 & Hst1 & Hdown1).
      apply (IH _ st1); [by apply perform_preserves|done|done].
  - intros Hdown ms Hms.
    apply (down_through_moves ms (o, []) sym Hms); simpl; [done|constructor|].
    by exists st.
  - intros Hdown pending ms Hms.
    apply (spared_through_moves ms (o, pending) sym Hms). by exists st.
  - intros w' state.
    apply (turn_pauses_or_fails sym state (status st) w' o). exists st. auto.
Qed.

Lemma run_status_transitions_of_the_controls_witness :
  let w := Sample.world (Sample.scenarioA []) in
  let o := run (perform (OpStop "S1")) w Sample.afterFirstTick in
  let calls := [(w, OpResume "S1"); (w, OpTick); (w, OpStop "S1"); (w, OpResume "S1")] in
  let ms := [(w, Begin); (w, Control (OpResume "S1")); (w, Turn 0%nat);
             (w, Control OpTick); (w, Control (OpResume "S1"))] in
  status <$> automationStates o !! "S1" = Some stopped ∧
  (∃ st', automationStates (performAll calls o) !! "S1" = Some st' ∧
          (status st' = stopped ∨ status st' = error)) ∧
  (∃ st', automationStates (moves ms (o, [])).1 !! "S1" = Some st' ∧
          (status st' = stopped ∨ status st' = error)).
Proof.
  intros w o calls ms. split; [vm_compute; reflexivity|].
  edestruct (run_status_transitions_of_the_controls w calls o "S1")
    as (_ & _ & _ & Hdown & Hflight & _).
  - apply reachable_op, reachable_op, reachable_op, reachable_new.
  - vm_compute; reflexivity.
  - repeat constructor.
  - split.
    + apply Hdown. left; reflexivity.
    + apply Hflight; [left; reflexivity|]. repeat constructor.
Defined.

(** A stop that lands while a tick is in flight does not hold.  The tick
    listed the ship as running; when its turn comes, the ship is stopped, but
    the planner, finding nothing to trade (or no contract), writes [paused]
    over [stopped]; a resume call then makes the ship running, with no
    [startAutomation] and no [pauseAutomation] in between. *)
Lemma stop_during_a_tick_is_overwritten :
  let w := Sample.world (Sample.scenarioA []) in
  let started (b : Behavior) : Flight :=
    (run (perform (OpStart "S1" b noOverrides)) w (run constructor w (fresh None)), []) in
  let after (b : Behavior) (ms : list Move) :=
    status <$> automationStates (moves ((λ m, (w, m)) <$> ms) (started b)).1 !! "S1" in
  after trading [Begin; Control (OpStop "S1")] = Some stopped ∧
  after trading [Begin; Control (OpStop "S1"); Turn 0] = Some paused ∧
  after trading [Begin; Control (OpStop "S1"); Turn 0; Control (OpResume "S1")]
    = Some running ∧
  after contract [Begin; Control (OpStop "S1"); Turn 0; Control (OpResume "S1")]
    = Some running.
Proof. vm_compute. repeat split. Qed.

(** C10: in every orchestrator that the constructor, the public controls
    and the timer can produce, every queued step has a retry count below
    [maxRetries], hence not above it.  Right after the increment of the
    head's count, the only place where a count changes, every queued step
    still has a count of at most [maxRetries]; and once the execution block
    is over every queued step is again strictly below: a step whose count
    has reached [maxRetries] is no longer in the queue. *)
Theorem queued_retries_never_exceed_maxRetries (o : Orchestrator) :
  reachable o →
  (∀ sym q a, actionQueues o !! sym = Some q → a ∈ q →
     retries a < maxRetries a ∧ retries a ≤ maxRetries a) ∧
  (∀ w sym q a, actionQueues (run (retryHead sym) w o) !! sym = Some q → a ∈ q →
     retries a ≤ maxRetries a) ∧
  (∀ w ship state sym q a,
     actionQueues (run (executeHead ship state) w o) !! sym = Some q → a ∈ q →
     retries a < maxRetries a).
Proof.
  intros Hreach. pose proof (reachable_Inv o Hreach) as Ho.
  split; [|split].
  - intros sym q a Hq Ha.
    pose proof (proj2 Ho sym q Hq) as Hleft.
    unfold retries_left in Hleft. rewrite Forall_forall in Hleft.
    specialize (Hleft a Ha). lia.
  - intros w sym q a. unfold retryHead. unfold_M. simpl.
    rewrite lookup_alter_eq.
    destruct (actionQueues o !! sym) as [q0|] eqn:Hq0; simpl; [|done].
    intros [= <-] Ha.
    pose proof (proj2 Ho sym q0 Hq0) as Hleft.
    unfold retries_left in Hleft. rewrite Forall_forall in Hleft.
    destruct q0 as [|a0 rest]; [by apply elem_of_nil in Ha|].
    apply elem_of_cons in Ha as [->|Ha].
    + specialize (Hleft a0 (list_elem_of_here _ _)). simpl. lia.
    + specialize (Hleft a (list_elem_of_further _ _ _ Ha)). lia.
  - intros w ship state sym q a Hq Ha.
    pose proof (executeHead_preserves ship state w o Ho) as Ho1.
    pose proof (proj2 Ho1 sym q Hq) as Hleft.
    unfold retries_left in Hleft. rewrite Forall_forall in Hleft.
    by apply Hleft.
Qed.

Lemma queued_retries_never_exceed_maxRetries_witness :
  actionQueues Sample.afterFirstTick !! "S1"
    = Some [step_to navigate "X1-DF55-ASTEROID-1" 3; step orbit 3] ∧
  retries (step orbit 3) < maxRetries (step orbit 3) ∧
  retries (step orbit 3) ≤ maxRetries (step orbit 3).
Proof.
  split; [vm_compute; reflexivity|].
  apply (proj1 (queued_retries_never_exceed_maxRetries Sample.afterFirstTick
                  (reachable_op _ _ _ (reachable_op _ _ _ (reachable_new _ _))))
           "S1" [step_to navigate "X1-DF55-ASTEROID-1" 3; step orbit 3]).
  - vm_compute; reflexivity.
  - apply list_elem_of_further, list_elem_of_here.
Defined.

(** ** Persistence round trip *)

Lemma states_of_list_pairs (f : AutomationState → AutomationState)
    (l : list (string * AutomationState)) :
  (∀ s, shipSymbol (f s) = shipSymbol s) →
  NoDup l.*1 →
  (∀ k s, (k, s) ∈ l → shipSymbol s = k) →
  states_of_list (f <$> l.*2) = f <$> (list_to_map l : gmap string AutomationState).
Proof.
  intros Hf. induction l as [|[k s] l IH] using rev_ind; intros Hnd Hkeys.
  - unfold states_of_list. simpl. by rewrite fmap_empty.
  - rewrite !fmap_app in *. simpl in *.
    apply NoDup_app in Hnd as (Hnd & Hfresh & _).
    rewrite states_of_list_snoc, Hf.
    rewrite (Hkeys k s) by (apply elem_of_app; right; apply list_elem_of_here).
    rewrite IH; [|done|].
    + rewrite list_to_map_snoc, fmap_insert; [done|].
      intros Hin. apply (Hfresh k Hin). apply list_elem_of_here.
    + intros k' s' Hin. apply Hkeys. apply elem_of_app. by left.
Qed.

Lemma states_of_list_values (f : AutomationState → AutomationState)
    (m : gmap string AutomationState) :
  (∀ s, shipSymbol (f s) = shipSymbol s) →
  well_keyed m →
  states_of_list (f <$> values m) = f <$> m.
Proof.
  intros Hf Hm. unfold values.
  rewrite (states_of_list_pairs f (map_to_list m) Hf).
  - by rewrite list_to_map_to_list.
  - apply NoDup_fst_map_to_list.
  - intros k s Hin. apply Hm. by apply elem_of_map_to_list.
Qed.

(** C1, as stated, fails: [saveStates] writes the states only.  A queue
    that is in memory when the states are saved is absent from the
    orchestrator that loads them, and the [Date] in [lastAction] comes back
    as the ISO string of the same instant. *)
Lemma queue_is_lost_by_save_and_load :
  let w := Sample.world (Sample.scenarioA []) in
  let o := Sample.afterFirstTick in
  let o' := run constructor w (fresh (localStorage (run saveStates w o))) in
  actionQueues o !! "S1" = Some [step_to navigate "X1-DF55-ASTEROID-1" 3; step orbit 3] ∧
  actionQueues o' !! "S1" = None ∧
  lastAction <$> automationStates o !! "S1" = Some (Js.DateObj 1767225605000) ∧
  lastAction <$> automationStates o' !! "S1" = Some (Js.IsoString 1767225605000).
Proof. vm_compute. repeat split. Qed.

(** C1, amended: saving the states of a reachable orchestrator and
    constructing a new orchestrator over the stored document reproduces, for
    every ship, the same [shipSymbol], [behavior], [status], [currentTask]
    and [errorMessage], the instant of [lastAction] to the millisecond (as an
    ISO string), and the same [policy] when its numbers are finite; no queue
    is reproduced: the new orchestrator has none. *)
Theorem saved_states_load_back_without_queues (w w' : World) (o : Orchestrator) :
  reachable o →
  let o' := run constructor w' (fresh (localStorage (run saveStates w o))) in
  automationStates o' = json_state <$> automationStates o ∧
  actionQueues o' = ∅ ∧
  ∀ sym st, automationStates o !! sym = Some st →
    ∃ st', automationStates o' !! sym = Some st' ∧
           shipSymbol st' = shipSymbol st ∧
           behavior st' = behavior st ∧
           status st' = status st ∧
           currentTask st' = currentTask st ∧
           errorMessage st' = errorMessage st ∧
           Js.instant_ms (lastAction st') = Js.instant_ms (lastAction st) ∧
           (json_safe (policy st) → policy st' = policy st).
Proof.
  intros Hreach o'.
  assert (Hstates : automationStates o' = json_state <$> automationStates o).
  { unfold o', constructor, loadStates, saveStates. unfold_M. simpl.
    apply states_of_list_values; [done|]. apply (reachable_Inv o Hreach). }
  split; [done|]. split; [done|].
  intros sym st Hst. exists (json_state st). rewrite Hstates, lookup_fmap, Hst.
  repeat split; done.
Qed.

Lemma saved_states_load_back_without_queues_witness :
  let w := Sample.world (Sample.scenarioA []) in
  let o := Sample.afterFirstTick in
  let o' := run constructor w (fresh (localStorage (run saveStates w o))) in
  automationStates o' = json_state <$> automationStates o ∧
  actionQueues o' = ∅ ∧
  json_safe defaultPolicy.
Proof.
  intros w o o'.
  destruct (saved_states_load_back_without_queues w w o
              (reachable_op _ _ _ (reachable_op _ _ _ (reachable_new _ _))))
    as (Hstates & Hqueues & _).
  split; [exact Hstates|]. split; [exact Hqueues|].
  vm_compute; reflexivity.
Defined.

(** * Further properties of the orchestrator *)

(** ** Ships do not share state *)

Section Isolation.
Context (sym : string) (st0 : option AutomationState) (q0 : option (list ActionStep)).

Lemma holds_log (e : Event) : preserves (holds sym st0 q0) (modify (log e)).
Proof. by apply preserves_modify. Qed.

Lemma holds_modifyState (k : string) (f : AutomationState → AutomationState) :
  k ≠ sym → preserves (holds sym st0 q0) (modifyState k f).
Proof.
  intros Hk. apply preserves_modify. intros o [Hs Hq]. split; [|done].
  simpl. by rewrite lookup_alter_ne.
Qed.

Lemma holds_alter_queue (k : string) (f : list ActionStep → list ActionStep) :
  k ≠ sym → preserves (holds sym st0 q0) (modify (with_queues (alter f k))).
Proof.
  intros Hk. apply preserves_modify. intros o [Hs Hq]. split; [done|].
  simpl. by rewrite lookup_alter_ne.
Qed.

Lemma holds_insert_queue (k : string) (q : list ActionStep) :
  k ≠ sym → preserves (holds sym st0 q0) (modify (with_queues <[k := q]>)).
Proof.
  intros Hk. apply preserves_modify. intros o [Hs Hq]. split; [done|].
  simpl. by rewrite lookup_insert_ne.
Qed.

Lemma holds_saveStates : preserves (holds sym st0 q0) saveStates.
Proof. by apply preserves_modify. Qed.

Lemma holds_executeAction (ship : Ship) (a : ActionStep) :
  preserves (holds sym st0 q0) (executeAction ship a).
Proof.
  intros w o Ho.
  by destruct (executeAction_frame w ship a o) as (success & calls & -> & _).
Qed.

Lemma holds_executeHead (ship : Ship) (state : AutomationState) :
  shipSymbol state ≠ sym → preserves (holds sym st0 q0) (executeHead ship state).
Proof.
  intros Hk. unfold executeHead. apply preserves_bind; [apply preserves_gets|].
  intros [|a rest]; [apply preserves_ret|].
  apply preserves_bind; [apply holds_log|]. intros _.
  apply preserves_bind; [apply holds_executeAction|]. intros [|].
  - apply preserves_bind; [by apply holds_alter_queue|]. intros _.
    apply preserves_bind; [by intros w o Ho|]. intros t.
    by apply holds_modifyState.
  - apply preserves_bind; [by apply holds_alter_queue|]. intros _.
    destruct (maxRetries a <=? retries a + 1); [|apply preserves_ret].
    apply preserves_bind; [by apply holds_alter_queue|]. intros _.
    by apply holds_modifyState.
Qed.

Lemma holds_planIfEmpty (ship : Ship) (state : AutomationState) :
  shipSymbol state ≠ sym → preserves (holds sym st0 q0) (planIfEmpty ship state).
Proof.
  intros Hk. unfold planIfEmpty. apply preserves_bind; [apply preserves_gets|].
  intros [|a rest]; [|apply preserves_ret].
  apply preserves_bind; [apply holds_log|]. intros _.
  unfold planNextActions.
  apply preserves_bind; [apply preserves_gets|]. intros queue.
  apply preserves_bind; [apply preserves_gets|]. intros current.
  apply preserves_bind.
  { destruct (behavior state); try apply preserves_ret.
    intros w o Ho.
    by destruct (planContractActions_returns w o ship current queue) as [plan ->]. }
  intros plan. apply preserves_bind; [by apply holds_modifyState|]. intros _.
  by apply holds_insert_queue.
Qed.

Lemma holds_processShipAutomation (state : AutomationState) :
  shipSymbol state ≠ sym → preserves (holds sym st0 q0) (processShipAutomation state).
Proof.
  intros Hk. unfold processShipAutomation. apply preserves_bind.
  - intros w o Ho. unfold getShip. by destruct (ship_reply w (shipSymbol state)).
  - intros ship. destruct (cooldownActive ship) as [remaining|].
    + apply preserves_bind; [by apply holds_modifyState|]. intros _.
      apply holds_saveStates.
    + apply preserves_bind; [by apply holds_executeHead|]. intros _.
      apply preserves_bind; [by apply holds_planIfEmpty|]. intros _.
      apply holds_saveStates.
Qed.

(** One turn of the loop of [tick], for another ship. *)
Lemma holds_tickTurn (state : AutomationState) :
  shipSymbol state ≠ sym →
  preserves (holds sym st0 q0) (tickTurn state).
Proof.
  intros Hk. apply preserves_try_catch; [by apply holds_processShipAutomation|].
  intros e. apply preserves_bind; [by apply holds_modifyState|]. intros _.
  apply holds_saveStates.
Qed.

Lemma holds_forEach {A} (body : A → M unit) (l : list A) :
  Forall (λ x, preserves (holds sym st0 q0) (body x)) l →
  preserves (holds sym st0 q0) (forEach body l).
Proof.
  induction 1 as [|x l Hx _ IH]; simpl.
  - apply preserves_ret.
  - apply preserves_bind; [exact Hx|by intros _].
Qed.

End Isolation.

(** X1: processing one ship, whatever the world answers and whether the
    call returns or throws, leaves the state and the queue stored for every
    other ship exactly as they were. *)
Theorem processShipAutomation_touches_one_ship
    (w : World) (o : Orchestrator) (state : AutomationState) (other : string) :
  shipSymbol state ≠ other →
  automationStates (run (processShipAutomation state) w o) !! other
    = automationStates o !! other ∧
  actionQueues (run (processShipAutomation state) w o) !! other
    = actionQueues o !! other.
Proof.
  intros Hne.
  apply (holds_processShipAutomation other _ _ state Hne w o). by split.
Qed.

Lemma processShipAutomation_touches_one_ship_witness :
  let o' := run (processShipAutomation Fleet.miner)
              (Sample.world (Sample.scenarioA [])) Fleet.two in
  automationStates o' !! "S2" = Some Fleet.trader ∧
  actionQueues o' !! "S2" = Some [step sell 3].
Proof.
  apply (processShipAutomation_touches_one_ship
           (Sample.world (Sample.scenarioA [])) Fleet.two Fleet.miner "S2").
  discriminate.
Defined.

(** ** The tick as a whole *)

Lemma tick_is_turns (w : World) (o : Orchestrator) :
  tick w o =
    forEach tickTurn (filter (λ state, status state = running) (values (automationStates o)))
      w o.
Proof. reflexivity. Qed.

Lemma tickTurn_returns (w : World) (o : Orchestrator) (state : AutomationState) :
  (tickTurn state w o).1 = Returned ().
Proof.
  unfold tickTurn, try_catch, processShipAutomation, getShip.
  unfold mbind at 1. unfold M_bind, bind.
  destruct (ship_reply w (shipSymbol state)) as [e|ship]; [done|].
  destruct (cooldownActive ship) as [remaining|]; [done|].
  unfold mbind, M_bind, bind.
  rewrite (returns_run _ _ _ _ (executeHead_returns w _ ship state)).
  rewrite (returns_run _ _ _ _ (planIfEmpty_returns w _ ship state)).
  done.
Qed.

Lemma forEach_turns_returns (w : World) (l : list AutomationState) (o : Orchestrator) :
  (forEach tickTurn l w o).1 = Returned ().
Proof.
  revert o. induction l as [|state l IH]; intros o; [done|].
  simpl. unfold mbind, M_bind, bind.
  rewrite (returns_run _ _ _ _ (tickTurn_returns w o state)). apply IH.
Qed.

Lemma forEach_turns_app (w : World) (l1 l2 : list AutomationState) (o : Orchestrator) :
  run (forEach tickTurn (l1 ++ l2)) w o
    = run (forEach tickTurn l2) w (run (forEach tickTurn l1) w o).
Proof.
  revert o. induction l1 as [|state l1 IH]; intros o; [done|].
  simpl. unfold run at 1 3. simpl. unfold mbind, M_bind, bind.
  rewrite (returns_run _ _ _ _ (tickTurn_returns w o state)). apply IH.
Qed.

(** The running states are visited once each, and each is stored under
    its own symbol. *)
Lemma active_split (m : gmap string AutomationState) (sym : string) (st : AutomationState) :
  well_keyed m →
  m !! sym = Some st →
  status st = running →
  ∃ l1 l2,
    filter (λ state, status state = running) (values m) = l1 ++ st :: l2 ∧
    Forall (λ state, shipSymbol state ≠ sym) l1 ∧
    Forall (λ state, shipSymbol state ≠ sym) l2.
Proof.
  intros Hkeys Hst Hrun.
  set (l := filter (λ state, status state = running) (values m)).
  assert (Hin : st ∈ l).
  { apply list_elem_of_filter. split; [done|].
    unfold values. apply list_elem_of_fmap. exists (sym, st). split; [done|].
    by apply elem_of_map_to_list. }
  assert (Hnd : NoDup (shipSymbol <$> l)).
  { apply (sublist_NoDup _ (shipSymbol <$> values m)).
    - unfold values. rewrite <- list_fmap_compose.
      assert (Heq : (shipSymbol ∘ snd) <$> map_to_list m = (map_to_list m).*1).
      { apply list_fmap_ext. intros i [k s] Hi. simpl.
        apply Hkeys. apply elem_of_map_to_list.
        apply list_elem_of_lookup. by exists i. }
      rewrite Heq. apply NoDup_fst_map_to_list.
    - apply fmap_sublist, sublist_filter. }
  destruct (list_elem_of_split l st Hin) as (l1 & l2 & Hl).
  exists l1, l2. split; [done|].
  rewrite Hl, fmap_app, fmap_cons in Hnd.
  apply NoDup_app in Hnd as (_ & Hdisj & Hnd2).
  apply NoDup_cons in Hnd2 as [Hnot2 _].
  rewrite (Hkeys sym st Hst) in *.
  split; apply Forall_forall; intros state Hstate Heq.
  - apply (Hdisj sym); [|by left].
    rewrite <- Heq. by apply list_elem_of_fmap_2.
  - apply Hnot2. rewrite <- Heq. by apply list_elem_of_fmap_2.
Qed.

(** In a tick, the turn of a running ship starts from an orchestrator
    that still holds the state and the queue the ship had when the tick
    began, and what that turn leaves for the ship is what the tick leaves. *)
Lemma tick_focus (w : World) (o : Orchestrator) (sym : string) (st : AutomationState) :
  well_keyed (automationStates o) →
  automationStates o !! sym = Some st →
  status st = running →
  ∃ o1,
    holds sym (Some st) (actionQueues o !! sym) o1 ∧
    automationStates (run tick w o) !! sym
      = automationStates (run (tickTurn st) w o1) !! sym ∧
    actionQueues (run tick w o) !! sym
      = actionQueues (run (tickTurn st) w o1) !! sym.
Proof.
  intros Hkeys Hst Hrun.
  destruct (active_split _ sym st Hkeys Hst Hrun) as (l1 & l2 & Hl & H1 & H2).
  unfold run at 1 3. rewrite tick_is_turns, Hl.
  change ((forEach tickTurn (l1 ++ st :: l2) w o).2)
    with (run (forEach tickTurn (l1 ++ st :: l2)) w o).
  rewrite forEach_turns_app.
  set (o1 := run (forEach tickTurn l1) w o).
  exists o1.
  assert (Ho1 : holds sym (Some st) (actionQueues o !! sym) o1).
  { apply (holds_forEach sym _ _ tickTurn l1); [|done].
    eapply Forall_impl; [exact H1|]. intros state Hne. by apply holds_tickTurn. }
  split; [done|].
  change (st :: l2) with ([st] ++ l2). rewrite forEach_turns_app.
  assert (Hone : run (forEach tickTurn [st]) w o1 = run (tickTurn st) w o1).
  { unfold run. simpl. unfold mbind, M_bind, bind.
    by rewrite (returns_run _ _ _ _ (tickTurn_returns w o1 st)). }
  rewrite Hone.
  set (o2 := run (tickTurn st) w o1).
  apply (holds_forEach sym _ _ tickTurn l2); [|done].
  eapply Forall_impl; [exact H2|]. intros state Hne. by apply holds_tickTurn.
Qed.

Lemma processShipAutomation_fetch_failure (w : World) (o : Orchestrator)
    (st : AutomationState) (e : Js.thrown) :
  ship_reply w (shipSymbol st) = inl e →
  processShipAutomation st w o = (Threw e, log (Gateway (GetShip (shipSymbol st))) o).
Proof.
  intros Hreply. unfold processShipAutomation, getShip, mbind, M_bind, bind.
  by rewrite Hreply.
Qed.

Lemma processShipAutomation_on_cooldown (w : World) (o : Orchestrator)
    (st : AutomationState) (ship : Ship) (remaining : Z) :
  ship_reply w (shipSymbol st) = inr ship →
  cooldownActive ship = Some remaining →
  processShipAutomation st w o =
    (Returned (),
     run saveStates w
       (with_states
          (alter (set_currentTask ("Waiting for cooldown (" +:+ pretty remaining +:+ "s)"))
             (shipSymbol st))
          (log (Gateway (GetShip (shipSymbol st))) o))).
Proof.
  intros Hreply Hcool. unfold processShipAutomation, getShip, mbind, M_bind, bind.
  by rewrite Hreply, Hcool.
Qed.

(** X2: a tick never throws, whatever the remote API answers: every
    failure of a ship's processing is caught in that ship's turn. *)
Theorem tick_never_throws (w : World) (o : Orchestrator) :
  result tick w o = Returned ().
Proof. unfold result. rewrite tick_is_turns. apply forEach_turns_returns. Qed.

(** X3: when the snapshot of a running ship cannot be fetched, the tick
    puts that ship in [error] with the message of the rejection, and leaves
    its queue as it was; the ship is then no longer among the running ones. *)
Theorem tick_records_fetch_failure
    (w : World) (o : Orchestrator) (sym : string) (st : AutomationState) (e : Js.thrown) :
  reachable o →
  automationStates o !! sym = Some st →
  status st = running →
  ship_reply w sym = inl e →
  automationStates (run tick w o) !! sym
    = Some (set_errorMessage (thrownMessage e) (set_status error st)) ∧
  actionQueues (run tick w o) !! sym = actionQueues o !! sym.
Proof.
  intros Hreach Hst Hrun Hreply.
  pose proof (proj1 (reachable_Inv o Hreach)) as Hkeys.
  destruct (tick_focus w o sym st Hkeys Hst Hrun) as (o1 & [Hs1 Hq1] & -> & ->).
  assert (Hsym : shipSymbol st = sym) by by apply Hkeys.
  rewrite <- Hsym in Hreply.
  unfold tickTurn, try_catch, run.
  rewrite (processShipAutomation_fetch_failure w o1 st e Hreply).
  unfold saveStates. unfold_M. simpl. rewrite Hsym.
  split; [|done]. by rewrite lookup_alter_eq, Hs1.
Qed.

Lemma tick_records_fetch_failure_witness :
  automationStates (run tick Fleet.offline Sample.afterFirstTick) !! "S1"
    = Some (set_errorMessage "Network request failed"
              (set_status error
                 {| shipSymbol := "S1"; behavior := mining; status := running;
                    currentTask := "Navigating to mining location";
                    progress := Js.Num 0; lastAction := Js.DateObj 1767225605000;
                    errorMessage := None; policy := defaultPolicy |})) ∧
  actionQueues (run tick Fleet.offline Sample.afterFirstTick) !! "S1"
    = actionQueues Sample.afterFirstTick !! "S1".
Proof.
  apply (tick_records_fetch_failure Fleet.offline Sample.afterFirstTick "S1" _
           (Js.Error "Network request failed")).
  - apply reachable_op, reachable_op, reachable_new.
  - vm_compute; reflexivity.
  - reflexivity.
  - reflexivity.
Defined.

(** X4: a tick leaves alone every ship that is not running when it
    begins: its state and its queue are unchanged, whatever happens to the
    running ships. *)
Theorem tick_skips_ships_not_running
    (w : World) (o : Orchestrator) (sym : string) :
  reachable o →
  (status <$> automationStates o !! sym) ≠ Some running →
  automationStates (run tick w o) !! sym = automationStates o !! sym ∧
  actionQueues (run tick w o) !! sym = actionQueues o !! sym.
Proof.
  intros Hreach Hnot.
  pose proof (proj1 (reachable_Inv o Hreach)) as Hkeys.
  unfold run. rewrite tick_is_turns.
  apply (holds_forEach sym _ _ tickTurn); [|done].
  apply Forall_forall. intros state Hin.
  apply list_elem_of_filter in Hin as [Hrun Hin].
  apply holds_tickTurn.
  unfold values in Hin. apply list_elem_of_fmap in Hin as ([k s] & -> & Hin).
  apply elem_of_map_to_list in Hin. simpl in *.
  rewrite (Hkeys k s Hin). intros ->.
  rewrite Hin in Hnot. simpl in Hnot. congruence.
Qed.

Lemma tick_skips_ships_not_running_witness :
  let o := run (perform (OpPause "S1")) (Sample.world (Sample.scenarioA []))
             Sample.afterFirstTick in
  automationStates (run tick Fleet.offline o) !! "S1" = automationStates o !! "S1" ∧
  actionQueues (run tick Fleet.offline o) !! "S1" = actionQueues o !! "S1".
Proof.
  intros o.
  apply (tick_skips_ships_not_running Fleet.offline o "S1").
  - apply reachable_op, reachable_op, reachable_op, reachable_new.
  - vm_compute. discriminate.
Defined.

(** X5: when no ship is running, a tick does nothing at all: no state,
    queue or stored document changes, and no remote call is made. *)
Theorem tick_without_running_ship_is_idle (w : World) (o : Orchestrator) :
  (∀ sym st, automationStates o !! sym = Some st → status st ≠ running) →
  run tick w o = o.
Proof.
  intros Hnone. unfold run. rewrite tick_is_turns.
  assert (Hl : filter (λ state, status state = running) (values (automationStates o)) = []).
  { destruct (filter _ _) as [|state l] eqn:Hf; [done|]. exfalso.
    assert (Hin : state ∈ filter (λ state, status state = running)
                            (values (automationStates o)))
      by (rewrite Hf; apply list_elem_of_here).
    apply list_elem_of_filter in Hin as [Hrun Hin].
    unfold values in Hin. apply list_elem_of_fmap in Hin as ([k s] & -> & Hin).
    apply elem_of_map_to_list in Hin. by apply (Hnone k s Hin). }
  by rewrite Hl.
Qed.

Lemma tick_without_running_ship_is_idle_witness :
  let o := Sample.orchestrator (Sample.state mining paused "Paused") [step extract 3] in
  run tick Fleet.offline o = o.
Proof.
  intros o. apply tick_without_running_ship_is_idle.
  intros sym st. unfold o. simpl. rewrite lookup_singleton.
  case_decide; [|discriminate]. intros [= <-]. discriminate.
Defined.

(** ** Cooldown *)

(** X6: a running ship that reports a cooldown is only told to wait: the
    tick rewrites its task description with the remaining seconds and
    leaves its queue and every other field alone; its processing makes the
    one call that fetched the snapshot, executes nothing and plans nothing. *)
Theorem tick_waits_out_cooldown
    (w : World) (o : Orchestrator) (sym : string) (st : AutomationState)
    (ship : Ship) (remaining : Z) :
  reachable o →
  automationStates o !! sym = Some st →
  status st = running →
  ship_reply w sym = inr ship →
  cooldownActive ship = Some remaining →
  automationStates (run tick w o) !! sym
    = Some (set_currentTask ("Waiting for cooldown (" +:+ pretty remaining +:+ "s)") st) ∧
  actionQueues (run tick w o) !! sym = actionQueues o !! sym ∧
  events_of o (run (processShipAutomation st) w o) = [Gateway (GetShip sym)].
Proof.
  intros Hreach Hst Hrun Hreply Hcool.
  pose proof (proj1 (reachable_Inv o Hreach)) as Hkeys.
  assert (Hsym : shipSymbol st = sym) by by apply Hkeys.
  rewrite <- Hsym in Hreply.
  destruct (tick_focus w o sym st Hkeys Hst Hrun) as (o1 & [Hs1 Hq1] & -> & ->).
  unfold tickTurn, try_catch, run.
  rewrite !(processShipAutomation_on_cooldown w _ st ship remaining Hreply Hcool).
  unfold saveStates. unfold_M. simpl. rewrite Hsym.
  split; [by rewrite lookup_alter_eq, Hs1|]. split; [done|].
  unfold events_of. simpl. by rewrite drop_app_length.
Qed.

Lemma tick_waits_out_cooldown_witness :
  let cooling :=
    {| symbol := "S1"; systemSymbol := "X1-DF55"; waypointSymbol := "X1-DF55-ASTEROID-1";
       nav_status := IN_ORBIT; cargo_capacity := 40; cargo_units := 7;
       inventory := [{| item_symbol := "IRON_ORE"; item_units := 7 |}];
       fuel_current := 80; fuel_capacity := 100;
       cooldown := Some 42; mounts := [] |} in
  let o' := run tick (Sample.world cooling) Sample.afterFirstTick in
  currentTask <$> automationStates o' !! "S1" = Some "Waiting for cooldown (42s)" ∧
  actionQueues o' !! "S1" = actionQueues Sample.afterFirstTick !! "S1".
Proof.
  intros cooling o'.
  edestruct (tick_waits_out_cooldown (Sample.world cooling) Sample.afterFirstTick "S1")
    as (Hs & Hq & _).
  - apply reachable_op, reachable_op, reachable_new.
  - vm_compute; reflexivity.
  - reflexivity.
  - reflexivity.
  - reflexivity.
  - fold o' in Hs, Hq. split; [by rewrite Hs|exact Hq].
Defined.

(** ** The stored document follows the states *)

Lemma saveStates_syncs (w : World) (o : Orchestrator) : storage_in_sync (run saveStates w o).
Proof. reflexivity. Qed.

Lemma processShipAutomation_fetched (w : World) (o : Orchestrator)
    (st : AutomationState) (ship : Ship) :
  ship_reply w (shipSymbol st) = inr ship →
  ∃ o1, processShipAutomation st w o = (Returned (), run saveStates w o1).
Proof.
  intros Hreply. destruct (cooldownActive ship) as [remaining|] eqn:Hcool.
  - rewrite (processShipAutomation_on_cooldown w o st ship remaining Hreply Hcool). eauto.
  - eexists.
    transitivity (Returned (), run (processShipAutomation st) w o).
    + apply returns_run.
      unfold processShipAutomation, getShip, mbind, M_bind, bind. rewrite Hreply, Hcool.
      rewrite (returns_run _ _ _ _ (executeHead_returns w _ ship st)).
      by rewrite (returns_run _ _ _ _ (planIfEmpty_returns w _ ship st)).
    + by rewrite (processShipAutomation_blocks w o st ship Hreply Hcool).
Qed.

Lemma tickTurn_syncs (w : World) (o : Orchestrator) (st : AutomationState) :
  storage_in_sync (run (tickTurn st) w o).
Proof.
  unfold tickTurn, try_catch, run.
  destruct (ship_reply w (shipSymbol st)) as [e|ship] eqn:Hreply.
  - by rewrite (processShipAutomation_fetch_failure w o st e Hreply).
  - by destruct (processShipAutomation_fetched w o st ship Hreply) as [o1 ->].
Qed.

Lemma forEach_turns_sync (w : World) (l : list AutomationState) (o : Orchestrator) :
  storage_in_sync o → storage_in_sync (run (forEach tickTurn l) w o).
Proof.
  revert o. induction l as [|st l IH]; intros o Ho; [done|].
  change (st :: l) with ([st] ++ l). rewrite forEach_turns_app. apply IH.
  unfold run. simpl. unfold mbind, M_bind, bind.
  rewrite (returns_run _ _ _ _ (tickTurn_returns w o st)). apply tickTurn_syncs.
Qed.

Lemma forEach_turns_sync_nonempty (w : World) (l : list AutomationState) (o : Orchestrator) :
  l ≠ [] → storage_in_sync (run (forEach tickTurn l) w o).
Proof.
  destruct l as [|st l]; [done|]. intros _.
  change (st :: l) with ([st] ++ l). rewrite forEach_turns_app.
  apply forEach_turns_sync.
  unfold run. simpl. unfold mbind, M_bind, bind.
  rewrite (returns_run _ _ _ _ (tickTurn_returns w o st)). apply tickTurn_syncs.
Qed.

(** X7: as long as [localStorage] accepts the writes, the stored document
    follows the states: after a start, stop, pause, resume or tick, either
    the document is the image of the states in memory, or the call has
    changed nothing at all (an unknown ship, a resume of a ship that is not
    paused, a tick without a running ship); so a document that is their image
    stays so, and after a [startAutomation] it always is.  When
    [localStorage] refuses a write, [saveStates] swallows the exception:
    nothing is thrown, and the document keeps its previous content. *)
Theorem stored_document_follows_the_states (w : World) (op : Op) (o : Orchestrator) :
  (storage_in_sync (run (perform op) w o) ∨ run (perform op) w o = o) ∧
  (storage_in_sync o → storage_in_sync (run (perform op) w o)) ∧
  (∀ sym b p, storage_in_sync (run (startAutomation sym b p) w o)) ∧
  saveStatesOn None w o = saveStates w o ∧
  (∀ e, saveStatesOn (Some e) w o = (Returned (), o)).
Proof.
  assert (Hstart : ∀ sym b p, storage_in_sync (run (startAutomation sym b p) w o)).
  { intros sym b p. unfold startAutomation, start, saveStates. unfold_M. simpl.
    by destruct (isRunning o). }
  assert (Heither : storage_in_sync (run (perform op) w o) ∨ run (perform op) w o = o).
  { destruct op as [sym b p|sym|sym|sym|]; simpl.
    - left. apply Hstart.
    - unfold stopAutomation, whenState. unfold_M. simpl.
      destruct (automationStates o !! sym); [by left|by right].
    - unfold pauseAutomation, whenState. unfold_M. simpl.
      destruct (automationStates o !! sym); [by left|by right].
    - unfold resumeAutomation, whenState. unfold_M. simpl.
      destruct (automationStates o !! sym) as [st|]; [|by right].
      case_bool_decide; [by left|by right].
    - unfold run. rewrite tick_is_turns.
      destruct (filter _ (values (automationStates o))) as [|st l] eqn:Hactive;
        [by right|left].
      by apply (forEach_turns_sync_nonempty w (st :: l) o). }
  split; [done|]. split; [|split; [done|split; [done|done]]].
  intros Ho. destruct Heither as [Hsync|Hsame]; [done|]. by rewrite Hsame.
Qed.

Lemma stored_document_follows_the_states_witness :
  storage_in_sync Sample.afterFirstTick ∧
  storage_in_sync (run (perform OpTick) Fleet.offline Sample.afterFirstTick).
Proof.
  split; [vm_compute; reflexivity|].
  destruct (stored_document_follows_the_states Fleet.offline OpTick Sample.afterFirstTick)
    as (_ & Hkept & _).
  apply Hkept. vm_compute. reflexivity.
Defined.

(** ** What [executeAction] asks of the remote API *)

(** X8: for every step other than [sell], [executeAction] makes at
    most one remote call.  When the step needs a call on this ship, that
    call is made once and the result is whether it resolved: a rejection,
    of whatever kind, is a plain failure.  When it needs none, nothing is
    called, and the result is [true] exactly for a [dock] or an [orbit]
    that finds the ship already docked or in orbit. *)
Theorem executeAction_calls_at_most_once
    (w : World) (o : Orchestrator) (ship : Ship) (action : ActionStep) :
  type action ≠ sell →
  executeAction ship action w o =
    match neededCall ship action with
    | Some c =>
        (Returned (if action_reply w (trace o) c is None then true else false),
         log (Gateway c) o)
    | None =>
        (Returned (bool_decide (type action = dock ∨ type action = orbit)), o)
    end.
Proof.
  intros Hsell. unfold executeAction, neededCall, call. unfold_M.
  destruct (type action) eqn:Ht; try done.
  - destruct (target action) as [t|]; [|done].
    destruct (Js.truthy_string t); [|done].
    by destruct (action_reply w (trace o) _).
  - destruct (nav_status ship); simpl; try done;
      by destruct (action_reply w (trace o) _).
  - destruct (nav_status ship); simpl; try done;
      by destruct (action_reply w (trace o) _).
  - destruct (nav_status ship); simpl; try done;
      by destruct (action_reply w (trace o) _).
  - destruct (nav_status ship); simpl; try done;
      by destruct (action_reply w (trace o) _).
  - destruct (nav_status ship); simpl; try done;
      by destruct (action_reply w (trace o) _).
Qed.

Lemma executeAction_calls_at_most_once_witness :
  let o := Sample.orchestrator (Sample.state mining running "Mining resources") [] in
  executeAction (Sample.scenarioA []) (step_to navigate "X1-DF55-ASTEROID-1" 3)
      Fleet.offline o
    = (Returned false, log (Gateway (NavigateShip "S1" "X1-DF55-ASTEROID-1")) o) ∧
  executeAction (Sample.scenarioA []) (step orbit 3) Fleet.offline o = (Returned true, o).
Proof.
  intros o. split.
  - apply (executeAction_calls_at_most_once Fleet.offline o (Sample.scenarioA [])
             (step_to navigate "X1-DF55-ASTEROID-1" 3)). discriminate.
  - apply (executeAction_calls_at_most_once Fleet.offline o (Sample.scenarioA [])
             (step orbit 3)). discriminate.
Defined.

Lemma call_outcome (w : World) (c : GatewayCall) (o : Orchestrator) :
  call c w o =
    (match action_reply w (trace o) c with None => Returned () | Some e => Threw e end,
     log (Gateway c) o).
Proof. unfold call. by destruct (action_reply w (trace o) c). Qed.

(** The loop of the [sell] case: the sales are asked one after the other,
    each after the ones before it; every sale but the last one asked was
    accepted, and the last one was accepted exactly when the loop ran to its
    end. *)
Lemma sell_loop_outcome (w : World) (ship : Ship) (items : list CargoItem) (o : Orchestrator) :
  ∃ n r,
    forEach (λ item, call (SellCargo (symbol ship) (item_symbol item) (item_units item)))
      items w o = (r, logs (take n (saleOf ship <$> items)) o) ∧
    (n ≤ length items)%nat ∧
    (r = Returned () → n = length items) ∧
    (r ≠ Returned () → (0 < n)%nat) ∧
    (∀ i item, items !! i = Some item → (i < n)%nat →
       action_reply w (trace o ++ take i (saleOf ship <$> items))
         (SellCargo (symbol ship) (item_symbol item) (item_units item)) = None
       ↔ r = Returned () ∨ (S i < n)%nat).
Proof.
  revert o. induction items as [|item rest IH]; intros o; simpl.
  - exists 0%nat, (Returned ()). rewrite logs_nil.
    split; [done|]. split; [done|]. split; [done|]. split; [done|].
    intros i item Hi. by rewrite lookup_nil in Hi.
  - unfold mbind, M_bind, bind. rewrite call_outcome.
    destruct (action_reply w (trace o) _) as [e|] eqn:Hreply.
    + exists 1%nat, (Threw e). simpl. rewrite take_0.
      split; [done|]. split; [lia|]. split; [done|]. split; [lia|].
      intros i item' Hi Hlt. assert (i = 0%nat) as -> by lia.
      simpl in Hi. injection Hi as <-. simpl. rewrite app_nil_r, Hreply.
      split; [done|]. intros [?|?]; [done|lia].
    + destruct (IH (log (Gateway (SellCargo (symbol ship) (item_symbol item)
                                     (item_units item))) o))
        as (n & r & Heq & Hn & Hall & Hsome & Hreplies).
      exists (S n), r. rewrite Heq. simpl.
      change (log ?e o) with (logs [e] o). rewrite logs_logs.
      split; [done|]. split; [lia|]. split; [intros Hr; by rewrite (Hall Hr)|].
      split; [lia|].
      intros i item' Hi Hlt. destruct i as [|i]; simpl in *.
      * injection Hi as <-. rewrite app_nil_r, Hreply. split; [|done].
        intros _. destruct r as [[]|e]; [by left|right].
        assert (0 < n)%nat by (by apply Hsome). lia.
      * specialize (Hreplies i item' Hi ltac:(lia)).
        rewrite <- app_assoc in Hreplies. simpl in Hreplies.
        rewrite Hreplies. split; (intros [?|?]; [by left|right; lia]).
Qed.

(** X9: a [sell] step on a docked ship with cargo sells the inventory
    item by item, in inventory order, and stops at the first sale that is
    rejected.  The calls made are the first [n] sales of the inventory and
    nothing else; each of them but the last was accepted by the API, and the
    last was accepted exactly when the step succeeds; the step succeeds
    exactly when no sale was rejected, and then every item was sold; a
    failed step has made at least one call, the rejected one, and none after
    it.  If the API accepts every call the step succeeds. *)
Theorem sell_sells_items_in_order_until_a_rejection
    (w : World) (o : Orchestrator) (ship : Ship) (action : ActionStep) :
  type action = sell →
  nav_status ship = DOCKED →
  Js.gt (cargo_units ship) 0 = true →
  ∃ n success,
    executeAction ship action w o
      = (Returned success, logs (take n (saleOf ship <$> inventory ship)) o) ∧
    (n ≤ length (inventory ship))%nat ∧
    (success = true → n = length (inventory ship)) ∧
    (success = false → (0 < n)%nat) ∧
    (∀ i item, inventory ship !! i = Some item → (i < n)%nat →
       action_reply w (trace o ++ take i (saleOf ship <$> inventory ship))
         (SellCargo (symbol ship) (item_symbol item) (item_units item)) = None
       ↔ success = true ∨ (S i < n)%nat) ∧
    ((∀ tr c, action_reply w tr c = None) → success = true).
Proof.
  intros Ht Hnav Hunits. unfold executeAction. rewrite Ht, Hnav, Hunits. simpl.
  unfold_M.
  destruct (sell_loop_outcome w ship (inventory ship) o)
    as (n & r & -> & Hn & Hall & Hsome & Hreplies).
  destruct r as [[]|e].
  - exists n, true. split; [done|]. split; [done|]. split; [intros _; by apply Hall|].
    split; [done|]. split; [|done].
    intros i item Hi Hlt. rewrite (Hreplies i item Hi Hlt).
    split; intros _; by left.
  - exists n, false. split; [done|]. split; [done|]. split; [done|].
    split; [intros _; by apply Hsome|]. split.
    + intros i item Hi Hlt. rewrite (Hreplies i item Hi Hlt).
      split; (intros [?|?]; [done|by right]).
    + intros Haccept. exfalso.
      assert (Hlast : (0 < n)%nat) by (by apply Hsome).
      destruct (lookup_lt_is_Some_2 (inventory ship) (n - 1)) as [item Hi]; [lia|].
      pose proof (Hreplies (n - 1)%nat item Hi ltac:(lia)) as Hiff.
      destruct (proj1 Hiff (Haccept _ _)) as [?|?]; [done|lia].
Qed.

Lemma sell_sells_items_in_order_until_a_rejection_witness :
  let docked := Sample.ship "X1-DF55-MARKETPLACE-1" DOCKED 12 40 60 100 [] in
  let o := Sample.orchestrator (Sample.state mining running "Mining resources") [] in
  executeAction docked (step sell 3) Fleet.offline o
    = (Returned false, log (Gateway (SellCargo "S1" "IRON_ORE" 12)) o) ∧
  ∃ n success,
    executeAction docked (step sell 3) (Sample.world docked) o
      = (Returned success, logs (take n (saleOf docked <$> inventory docked)) o) ∧
    (n ≤ length (inventory docked))%nat ∧
    (success = true → n = length (inventory docked)) ∧
    (success = false → (0 < n)%nat) ∧
    (∀ i item, inventory docked !! i = Some item → (i < n)%nat →
       action_reply (Sample.world docked)
         (trace o ++ take i (saleOf docked <$> inventory docked))
         (SellCargo (symbol docked) (item_symbol item) (item_units item)) = None
       ↔ success = true ∨ (S i < n)%nat) ∧
    ((∀ tr c, action_reply (Sample.world docked) tr c = None) → success = true).
Proof.
  intros docked o. split; [vm_compute; reflexivity|].
  apply (sell_sells_items_in_order_until_a_rejection (Sample.world docked) o docked
           (step sell 3)); reflexivity.
Defined.

(** ** The planners *)

Ltac nothing_new := exists []; rewrite ?app_nil_r; split; [done|constructor].
Ltac these_are_new := eexists; split; [reflexivity|]; by repeat constructor.

Lemma planSellActions_appends (ship : Ship) (state : AutomationState)
    (queue : list ActionStep) :
  ∃ new, (planSellActions ship state queue).2 = queue ++ new ∧ fresh_steps new.
Proof.
  unfold planSellActions. destruct (PrimFloat.eqb _ _); simpl.
  - nothing_new.
  - these_are_new.
Qed.

Lemma planMiningActions_appends (ship : Ship) (state : AutomationState)
    (queue : list ActionStep) :
  ∃ new, (planMiningActions ship state queue).2 = queue ++ new ∧ fresh_steps new.
Proof.
  unfold planMiningActions.
  destruct (maxCargo _ && cargoAtLimit ship).
  { destruct (autoSellWhenFull _); [apply planSellActions_appends|].
    nothing_new. }
  destruct (lowFuel _ && _); simpl.
  { these_are_new. }
  destruct (negb (isAtAsteroid ship)); simpl.
  { these_are_new. }
  exists ((if bool_decide (nav_status ship ≠ IN_ORBIT) then [step orbit 3] else []) ++
          (if hasSurveyor ship then [step survey 2] else []) ++ [step extract 3]).
  split.
  - case_bool_decide; destruct (hasSurveyor ship); simpl;
      rewrite <- ?app_assoc; simpl; by rewrite ?app_nil_r.
  - case_bool_decide; destruct (hasSurveyor ship); by repeat constructor.
Qed.

Lemma planTradingActions_appends (ship : Ship) (state : AutomationState)
    (queue : list ActionStep) :
  ∃ new, (planTradingActions ship state queue).2 = queue ++ new ∧ fresh_steps new.
Proof.
  unfold planTradingActions. destruct (Js.gt _ _); [apply planSellActions_appends|].
  nothing_new.
Qed.

(** X10: no planner ever removes, reorders or alters a step that is
    already queued: the queue a planner returns is the queue it was given
    followed by new steps, each with no retry used and a positive
    allowance. *)
Theorem planners_only_append
    (ship : Ship) (contracts : list Contract) (state : AutomationState)
    (queue : list ActionStep) :
  (∃ new, (planMiningActions ship state queue).2 = queue ++ new ∧ fresh_steps new) ∧
  (∃ new, (planTradingActions ship state queue).2 = queue ++ new ∧ fresh_steps new) ∧
  (∃ new, (planSellActions ship state queue).2 = queue ++ new ∧ fresh_steps new) ∧
  (∃ new, (planContract ship contracts state queue).2 = queue ++ new ∧ fresh_steps new).
Proof.
  split; [apply planMiningActions_appends|].
  split; [apply planTradingActions_appends|].
  split; [apply planSellActions_appends|].
  destruct (planContract_appends ship contracts state queue) as (new & Heq & Hnew).
  exists new. split; [done|].
  eapply Forall_impl; [exact Hnew|]. intros a [-> ->]. done.
Qed.

(** X11: the trading planner either queues the sell plan or pauses.
    With cargo on board it appends the trip to the market of the ship's
    system, the dock and the sale; with none it queues nothing and pauses
    the automation with the task [No cargo to trade]. *)
Theorem trading_plan_sells_or_pauses
    (ship : Ship) (state : AutomationState) (queue : list ActionStep) :
  (Js.gt (cargo_units ship) 0 = true → PrimFloat.eqb (cargo_units ship) 0 = false →
   planTradingActions ship state queue =
     (set_currentTask "Navigating to market to sell cargo" state,
      queue ++ [step_to navigate (systemSymbol ship +:+ "-MARKETPLACE-1") 3;
                step dock 3; step sell 3])) ∧
  (Js.gt (cargo_units ship) 0 = false →
   planTradingActions ship state queue =
     (set_status paused (set_currentTask "No cargo to trade" state), queue)).
Proof.
  unfold planTradingActions, planSellActions. split.
  - intros -> ->. by destruct state.
  - intros ->. by destruct state.
Qed.

Lemma trading_plan_sells_or_pauses_witness :
  let st := Sample.state trading running "Initializing automation" in
  planTradingActions (Sample.ship "X1-DF55-A1" IN_ORBIT 12 40 60 100 []) st []
    = (Sample.state trading running "Navigating to market to sell cargo",
       [step_to navigate "X1-DF55-MARKETPLACE-1" 3; step dock 3; step sell 3]) ∧
  planTradingActions (Sample.ship "X1-DF55-A1" IN_ORBIT 0 40 60 100 []) st []
    = (Sample.state trading paused "No cargo to trade", []).
Proof.
  intros st. split.
  - apply (proj1 (trading_plan_sells_or_pauses
                    (Sample.ship "X1-DF55-A1" IN_ORBIT 12 40 60 100 []) st []));
      vm_compute; reflexivity.
  - apply (proj2 (trading_plan_sells_or_pauses
                    (Sample.ship "X1-DF55-A1" IN_ORBIT 0 40 60 100 []) st []));
      vm_compute; reflexivity.
Defined.

Lemma planDeliverable_cases (ship : Ship) (c : Contract) (state : AutomationState)
    (queue : list ActionStep) (d : ContractDeliverGood) :
  planDeliverable ship c (state, queue) d =
    if stillNeeded d then
      if heldBy ship d then (state, queue ++ deliverySteps ship c d)
      else (set_status paused
              (set_currentTask ("Need to acquire " +:+ tradeSymbol d +:+ " for contract")
                 state), queue)
    else (state, queue).
Proof. reflexivity. Qed.

(** The loop over the deliverables, in closed form. *)
Lemma planDeliverables_closed_form (ship : Ship) (c : Contract)
    (ds : list ContractDeliverGood) (state : AutomationState) (queue : list ActionStep) :
  let plan := foldl (planDeliverable ship c) (state, queue) ds in
  plan.2 = queue ++ concat (deliverySteps ship c <$>
                              filter (λ d, stillNeeded d && heldBy ship d = true) ds) ∧
  status plan.1 =
    (if existsb (λ d, stillNeeded d && negb (heldBy ship d)) ds then paused else status state) ∧
  behavior plan.1 = behavior state ∧ policy plan.1 = policy state ∧
  errorMessage plan.1 = errorMessage state.
Proof.
  revert state queue. induction ds as [|d ds IH]; intros state queue.
  - simpl. by rewrite app_nil_r.
  - cbn [foldl existsb]. cbv zeta. rewrite planDeliverable_cases.
    destruct (stillNeeded d) eqn:Hn; [destruct (heldBy ship d) eqn:Hh|].
    + rewrite filter_cons_True by (by rewrite Hn, Hh).
      destruct (IH state (queue ++ deliverySteps ship c d)) as (-> & -> & -> & -> & ->).
      rewrite fmap_cons. cbn [concat andb negb orb]. by rewrite <- app_assoc.
    + rewrite filter_cons_False by (by rewrite Hn, Hh).
      destruct (IH (set_status paused
                      (set_currentTask
                         ("Need to acquire " +:+ tradeSymbol d +:+ " for contract") state))
                   queue) as (-> & -> & -> & -> & ->).
      cbn [andb negb orb]. by destruct (existsb _ ds).
    + rewrite filter_cons_False by (by rewrite Hn).
      cbn [andb orb]. apply IH.
Qed.

(** X12: once an accepted, unfulfilled contract is found, the contract
    planner queues, for every deliverable that still lacks units and whose
    good is in the cargo, the trip to its destination, the dock and the
    delivery, in the order of the contract's terms; and it pauses the
    automation exactly when some deliverable that still lacks units is not
    in the cargo.  Both can happen in the same plan. *)
Theorem contract_plan_closed_form
    (ship : Ship) (contracts : list Contract) (c : Contract)
    (state : AutomationState) (queue : list ActionStep) :
  List.find (λ c, accepted c && negb (fulfilled c)) contracts = Some c →
  let ds := default [] (deliver_terms c) in
  let plan := planContract ship contracts state queue in
  plan.2 = queue ++ concat (deliverySteps ship c <$>
                              filter (λ d, stillNeeded d && heldBy ship d = true) ds) ∧
  status plan.1 =
    (if existsb (λ d, stillNeeded d && negb (heldBy ship d)) ds then paused else status state).
Proof.
  intros Hfind ds plan. unfold plan, planContract. rewrite Hfind.
  destruct (planDeliverables_closed_form ship c ds
              (set_currentTask ("Working on contract: " +:+
                                contractTypeName (contract_type c)) state) queue)
    as (H2 & H1 & _).
  split; [exact H2|exact H1].
Qed.

Lemma contract_plan_closed_form_witness :
  let st := Sample.state contract running "Checking active contracts" in
  let carrier := Sample.ship "X1-DF55-A1" IN_ORBIT 12 40 60 100 [] in
  let plan := planContract carrier [Procurement.settled_contract; Procurement.open_contract]
                st [] in
  plan.2 = [step_to navigate "X1-DF55-H1" 3; step dock 3;
            {| type := deliver; target := None;
               payload := Some {| p_contractId := "c1"; p_tradeSymbol := "IRON_ORE";
                                  p_units := 6; p_destinationSymbol := "X1-DF55-H1" |};
               retries := 0; maxRetries := 3 |}] ∧
  status plan.1 = paused.
Proof.
  intros st carrier plan.
  apply (contract_plan_closed_form carrier
           [Procurement.settled_contract; Procurement.open_contract]
           Procurement.open_contract st []).
  reflexivity.
Defined.

(** ** A plan cycle *)

Lemma planNextActions_outcome (w : World) (o : Orchestrator) (ship : Ship)
    (state : AutomationState) :
  let sym := shipSymbol state in
  let current := default state (automationStates o !! sym) in
  let plan := planned w ship
                (set_status (status current)
                   (set_currentTask (currentTask current) current))
                (queue_of o sym) in
  behavior current = behavior state →
  automationStates (run (planNextActions ship state) w o)
    = alter (λ _, plan.1) sym (automationStates o) ∧
  actionQueues (run (planNextActions ship state) w o)
    = <[sym := plan.2]> (actionQueues o).
Proof.
  intros sym current plan Hb. unfold plan, planned, planNextActions, queue_of.
  fold sym. fold current.
  replace (set_status (status current) (set_currentTask (currentTask current) current))
    with current by by destruct current.
  rewrite Hb. unfold_M. simpl. fold sym. fold current.
  destruct (behavior state); simpl; try done.
  unfold planContractActions, getContracts. unfold_M.
  by destruct (contracts_reply w).
Qed.

(** The turn, in a tick, of a running ship with nothing queued and no
    cooldown: nothing is executed, and the Behavior's plan is stored. *)
Lemma tick_plans_for_idle_queue
    (w : World) (o : Orchestrator) (sym : string) (st : AutomationState) (ship : Ship) :
  reachable o →
  automationStates o !! sym = Some st →
  status st = running →
  queue_of o sym = [] →
  ship_reply w sym = inr ship →
  cooldownActive ship = None →
  automationStates (run tick w o) !! sym = Some (planned w ship st []).1 ∧
  actionQueues (run tick w o) !! sym = Some (planned w ship st []).2.
Proof.
  intros Hreach Hst Hrun Hq Hreply Hcool.
  pose proof (proj1 (reachable_Inv o Hreach)) as Hkeys.
  assert (Hsym : shipSymbol st = sym) by by apply Hkeys.
  rewrite <- Hsym in Hreply.
  destruct (tick_focus w o sym st Hkeys Hst Hrun) as (o1 & [Hs1 Hq1] & -> & ->).
  assert (Hturn : run (tickTurn st) w o1 = run (processShipAutomation st) w o1).
  { destruct (processShipAutomation_fetched w o1 st ship Hreply) as [o2 Ho2].
    unfold tickTurn, try_catch, run. by rewrite Ho2. }
  rewrite Hturn, (processShipAutomation_blocks w o1 st ship Hreply Hcool).
  set (o0 := log (Gateway (GetShip (shipSymbol st))) o1).
  assert (Hq0 : queue_of o0 (shipSymbol st) = []).
  { unfold queue_of, o0. simpl. rewrite Hsym, Hq1. exact Hq. }
  rewrite (executeHead_empty w o0 ship st Hq0).
  set (o3 := log (Planning (behavior st)) o0).
  assert (Hplan : run (planIfEmpty ship st) w o0 = run (planNextActions ship st) w o3).
  { unfold planIfEmpty, run, queueOf. unfold_M. unfold queue_of in Hq0. by rewrite Hq0. }
  rewrite Hplan.
  assert (Hcur : default st (automationStates o3 !! shipSymbol st) = st).
  { unfold o3, o0. simpl. by rewrite Hsym, Hs1. }
  destruct (planNextActions_outcome w o3 ship st) as [Hstates Hqueues].
  { by rewrite Hcur. }
  rewrite Hcur in Hstates, Hqueues.
  assert (Hq3 : queue_of o3 (shipSymbol st) = []) by exact Hq0.
  rewrite Hq3 in Hstates, Hqueues.
  replace (set_status (status st) (set_currentTask (currentTask st) st))
    with st in Hstates, Hqueues by by destruct st.
  unfold saveStates. unfold run at 1 3. unfold modify. simpl.
  rewrite Hstates, Hqueues, Hsym. split.
  - rewrite lookup_alter_eq. unfold o3, o0. simpl. by rewrite Hs1.
  - by rewrite lookup_insert_eq.
Qed.

(** X13: a tick that finds a running ship with nothing queued and no
    cooldown executes nothing and stores what the ship's Behavior plans from
    the fetched snapshot: the planner's state (task, progress, and [paused]
    or [error] if the planner decides so) and the planner's steps as the new
    queue.  For an [idle] behaviour that is the unchanged state and an empty
    queue. *)
Theorem tick_plans_for_a_ship_with_nothing_queued
    (w : World) (o : Orchestrator) (sym : string) (st : AutomationState) (ship : Ship) :
  reachable o →
  automationStates o !! sym = Some st →
  status st = running →
  queue_of o sym = [] →
  ship_reply w sym = inr ship →
  cooldownActive ship = None →
  automationStates (run tick w o) !! sym = Some (planned w ship st []).1 ∧
  actionQueues (run tick w o) !! sym = Some (planned w ship st []).2.
Proof. apply tick_plans_for_idle_queue. Qed.

Lemma tick_plans_for_a_ship_with_nothing_queued_witness :
  let w := Sample.world (Sample.scenarioA []) in
  let o := run (perform (OpStart "S1" mining noOverrides)) w (run constructor w (fresh None)) in
  actionQueues (run tick w o) !! "S1"
    = Some [step_to navigate "X1-DF55-ASTEROID-1" 3; step orbit 3].
Proof.
  intros w o.
  edestruct (tick_plans_for_a_ship_with_nothing_queued w o "S1") as [_ Hq].
  - apply reachable_op, reachable_new.
  - vm_compute; reflexivity.
  - reflexivity.
  - reflexivity.
  - reflexivity.
  - reflexivity.
  - rewrite Hq. vm_compute; reflexivity.
Defined.

(** X14: a planning fault stops a contract ship.  When a tick finds a
    running contract ship with nothing queued and the contract list cannot
    be fetched, the ship ends the tick in [error] with the fixed message
    [Failed to plan contract actions] (the message of the rejection is not
    kept), with an empty queue. *)
Theorem tick_contract_fetch_failure_is_an_error
    (w : World) (o : Orchestrator) (sym : string) (st : AutomationState) (ship : Ship)
    (e : Js.thrown) :
  reachable o →
  automationStates o !! sym = Some st →
  status st = running →
  behavior st = contract →
  queue_of o sym = [] →
  ship_reply w sym = inr ship →
  cooldownActive ship = None →
  contracts_reply w = inl e →
  automationStates (run tick w o) !! sym
    = Some (set_errorMessage "Failed to plan contract actions"
              (set_status error (set_currentTask "Checking active contracts" st))) ∧
  actionQueues (run tick w o) !! sym = Some [].
Proof.
  intros Hreach Hst Hrun Hb Hq Hreply Hcool Hcontracts.
  destruct (tick_plans_for_idle_queue w o sym st ship Hreach Hst Hrun Hq Hreply Hcool)
    as [-> ->].
  unfold planned. by rewrite Hb, Hcontracts.
Qed.

Lemma tick_contract_fetch_failure_is_an_error_witness :
  let w0 := Sample.world (Sample.scenarioA []) in
  let w := {| clock := 1767225610000; ship_reply := λ _, inr (Sample.scenarioA []);
              contracts_reply := inl (Js.Error "HTTP 502: Bad Gateway");
              action_reply := λ _ _, None |} in
  let o := run (perform (OpStart "S1" contract noOverrides)) w0
             (run constructor w0 (fresh None)) in
  status <$> automationStates (run tick w o) !! "S1" = Some error ∧
  errorMessage <$> automationStates (run tick w o) !! "S1"
    = Some (Some "Failed to plan contract actions").
Proof.
  intros w0 w o.
  edestruct (tick_contract_fetch_failure_is_an_error w o "S1") as [Hs _].
  - apply reachable_op, reachable_new.
  - vm_compute; reflexivity.
  - reflexivity.
  - reflexivity.
  - reflexivity.
  - reflexivity.
  - reflexivity.
  - reflexivity.
  - rewrite Hs. split; reflexivity.
Defined.

(** ** The mining planner, continued *)

(** X15: at an asteroid, with the cargo stop condition not met and the
    fuel not below the minimum, the mining planner appends an [orbit] if
    the ship is not in orbit, then a [survey] (two retries) if the ship has
    a surveyor mount, then an [extract]; it records the cargo fill as the
    progress. *)
Theorem mining_plan_at_asteroid
    (ship : Ship) (state : AutomationState) (queue : list ActionStep) :
  let policy := policy_mining (policy state) in
  maxCargo (stopConditions policy) && cargoAtLimit ship = false →
  lowFuel (stopConditions policy) &&
    PrimFloat.ltb (fuelPercent ship) (Js.toNumber (minFuelPercent policy)) = false →
  isAtAsteroid ship = true →
  planMiningActions ship state queue =
    (set_progress (Js.Num (cargo_units ship / cargo_capacity ship * 100)%float)
       (set_currentTask "Mining resources" state),
     queue ++
     (if bool_decide (nav_status ship = IN_ORBIT) then [] else [step orbit 3]) ++
     (if hasSurveyor ship then [step survey 2] else []) ++
     [step extract 3]).
Proof.
  intros policy Hcargo Hfuel Hast. unfold planMiningActions. fold policy.
  rewrite Hcargo, Hfuel, Hast. simpl.
  destruct (nav_status ship); destruct (hasSurveyor ship); simpl;
    rewrite <- ?app_assoc; reflexivity.
Qed.

Lemma mining_plan_at_asteroid_witness :
  (planMiningActions
     (Sample.ship "X1-DF55-ASTEROID-1" DOCKED 10 40 80 100 ["MOUNT_SURVEYOR_I"])
     (Sample.state mining running "Navigating to mining location") []).2
    = [step orbit 3; step survey 2; step extract 3].
Proof.
  rewrite (mining_plan_at_asteroid
             (Sample.ship "X1-DF55-ASTEROID-1" DOCKED 10 40 80 100 ["MOUNT_SURVEYOR_I"])
             (Sample.state mining running "Navigating to mining location") []);
    vm_compute; reflexivity.
Defined.

(** X16: when the cargo stop condition is met, the mining planner does
    not mine, and it does not look at the fuel.  Without [autoSellWhenFull]
    it queues nothing and pauses the automation.  With [autoSellWhenFull] it
    appends the trip to the market of the ship's system, the dock and the
    sale, unless the ship holds no unit at all (a ship without a cargo
    hold, for one): then it queues nothing, and the ship stays running with
    the task [Cargo full, finding market to sell]. *)
Theorem mining_plan_on_full_cargo
    (ship : Ship) (state : AutomationState) (queue : list ActionStep) :
  let policy := policy_mining (policy state) in
  maxCargo (stopConditions policy) && cargoAtLimit ship = true →
  planMiningActions ship state queue =
    if autoSellWhenFull policy then
      if PrimFloat.eqb (cargo_units ship) 0
      then (set_currentTask "Cargo full, finding market to sell" state, queue)
      else (set_currentTask "Navigating to market to sell cargo" state,
            queue ++ [step_to navigate (systemSymbol ship +:+ "-MARKETPLACE-1") 3;
                      step dock 3; step sell 3])
    else (set_currentTask "Cargo full, automation paused" (set_status paused state), queue).
Proof.
  intros policy Hcargo. unfold planMiningActions, planSellActions. fold policy.
  rewrite Hcargo. destruct (autoSellWhenFull policy); [|done].
  destruct (PrimFloat.eqb (cargo_units ship) 0); [done|]. by destruct state.
Qed.

Lemma mining_plan_on_full_cargo_witness :
  planMiningActions (Sample.ship "X1-DF55-ASTEROID-1" IN_ORBIT 38 40 8 100 [])
      (Sample.state mining running "Mining resources") []
    = (Sample.state mining running "Navigating to market to sell cargo",
       [step_to navigate "X1-DF55-MARKETPLACE-1" 3; step dock 3; step sell 3]).
Proof.
  apply (mining_plan_on_full_cargo (Sample.ship "X1-DF55-ASTEROID-1" IN_ORBIT 38 40 8 100 [])
           (Sample.state mining running "Mining resources") []);
    vm_compute; reflexivity.
Defined.

(** ** Waypoint names *)

Lemma prefix_app (p post : string) : String.prefix p (p +:+ post) = true.
Proof.
  induction p as [|a p IH]; simpl; [by destruct post|].
  by destruct (Ascii.ascii_dec a a).
Qed.

Lemma prefix_split (p s : string) :
  String.prefix p s = true → ∃ post, s = p +:+ post.
Proof.
  revert s. induction p as [|a p IH]; intros s; simpl.
  - intros _. by exists s.
  - destruct s as [|b s]; simpl; [discriminate|].
    destruct (Ascii.ascii_dec a b) as [->|]; [|discriminate].
    intros Hp. destruct (IH s Hp) as [post ->]. by exists post.
Qed.

Lemma includes_eq (s sub : string) :
  Js.includes s sub =
    String.prefix sub s ||
    match s with EmptyString => false | String _ s' => Js.includes s' sub end.
Proof. by destruct s. Qed.

(** [Js.includes] is containment of a substring. *)
Lemma includes_spec (s sub : string) :
  Js.includes s sub = true ↔ ∃ pre post, s = pre +:+ sub +:+ post.
Proof.
  split.
  - induction s as [|a s IH]; rewrite includes_eq.
    + rewrite orb_false_r. intros Hp. destruct (prefix_split _ _ Hp) as [post Hs].
      by exists EmptyString, post.
    + intros [Hp|Hin]%orb_true_iff.
      * destruct (prefix_split _ _ Hp) as [post Hs]. by exists EmptyString, post.
      * destruct (IH Hin) as (pre & post & ->). by exists (String a pre), post.
  - intros (pre & post & ->). induction pre as [|a pre IH].
    + rewrite includes_eq. change (EmptyString +:+ sub +:+ post) with (sub +:+ post).
      by rewrite prefix_app.
    + change (String a pre +:+ sub +:+ post) with (String a (pre +:+ sub +:+ post)).
      rewrite includes_eq, IH. apply orb_true_r.
Qed.

Lemma app_string_assoc (a b c : string) : (a +:+ b) +:+ c = a +:+ (b +:+ c).
Proof.
  induction a as [|x a IH]; [done|].
  change (String x ((a +:+ b) +:+ c) = String x (a +:+ (b +:+ c))). by f_equal.
Qed.

(** X17: the waypoint that the mining planner navigates to is one that
    its own test takes for an asteroid, whatever the system symbol, so the
    plan made on arrival is the mining one; and the second half of that
    test is redundant: a waypoint symbol that contains [ENGINEERED_ASTEROID]
    contains [ASTEROID]. *)
Theorem mining_target_is_taken_for_an_asteroid (ship : Ship) (system : string) :
  isAtAsteroid ship = Js.includes (waypointSymbol ship) "ASTEROID" ∧
  Js.includes (system +:+ "-ASTEROID-1") "ASTEROID" = true.
Proof.
  split.
  - unfold isAtAsteroid.
    destruct (Js.includes (waypointSymbol ship) "ENGINEERED_ASTEROID") eqn:He;
      [|apply orb_false_r].
    rewrite orb_true_r. symmetry. apply includes_spec.
    apply includes_spec in He as (pre & post & ->).
    exists (pre +:+ "ENGINEERED_"), post.
    by rewrite !app_string_assoc.
  - apply includes_spec. exists (system +:+ "-"), "-1".
    by rewrite !app_string_assoc.
Qed.

(** X18: a ship without a cargo hold (0 of 0 units) always meets the
    cargo stop condition, since [0 >= 0 * 0.9]: the mining planner never
    gives it a step.  With [autoSellWhenFull] the sell plan finds nothing to
    sell and returns, so the ship stays running with an empty queue and is
    planned again on every tick; without it the ship is paused. *)
Theorem mining_plan_without_a_cargo_hold
    (ship : Ship) (state : AutomationState) (queue : list ActionStep) :
  let policy := policy_mining (policy state) in
  cargo_units ship = 0%float →
  cargo_capacity ship = 0%float →
  maxCargo (stopConditions policy) = true →
  planMiningActions ship state queue =
    if autoSellWhenFull policy
    then (set_currentTask "Cargo full, finding market to sell" state, queue)
    else (set_currentTask "Cargo full, automation paused" (set_status paused state), queue).
Proof.
  intros policy Hunits Hcap Hmax. unfold planMiningActions, planSellActions, cargoAtLimit.
  fold policy. rewrite Hmax, Hunits, Hcap.
  by destruct (autoSellWhenFull policy).
Qed.

Lemma mining_plan_without_a_cargo_hold_witness :
  planMiningActions (Sample.ship "X1-DF55-ASTEROID-1" IN_ORBIT 0 0 0 0 [])
      (Sample.state mining running "Mining resources") []
    = (Sample.state mining running "Cargo full, finding market to sell", []).
Proof.
  apply (mining_plan_without_a_cargo_hold
           (Sample.ship "X1-DF55-ASTEROID-1" IN_ORBIT 0 0 0 0 [])
           (Sample.state mining running "Mining resources") []); reflexivity.
Defined.

(** ** First in, first out *)





(** ** What the controls and the timer leave alone *)

(** No planner removes an error message. *)
Lemma planSellActions_keeps_error (ship : Ship) (state : AutomationState)
    (queue : list ActionStep) :
  is_Some (errorMessage state) → is_Some (errorMessage (planSellActions ship state queue).1).
Proof. unfold planSellActions. by destruct (PrimFloat.eqb _ _). Qed.

Lemma planMiningActions_keeps_error (ship : Ship) (state : AutomationState)
    (queue : list ActionStep) :
  is_Some (errorMessage state) → is_Some (errorMessage (planMiningActions ship state queue).1).
Proof.
  intros He. unfold planMiningActions.
  repeat match goal with
         | |- context [if ?b then _ else _] => destruct b
         end; simpl; try done.
  by apply (planSellActions_keeps_error ship
              (set_currentTask "Cargo full, finding market to sell" state)).
Qed.

Lemma planTradingActions_keeps_error (ship : Ship) (state : AutomationState)
    (queue : list ActionStep) :
  is_Some (errorMessage state) → is_Some (errorMessage (planTradingActions ship state queue).1).
Proof.
  intros He. unfold planTradingActions. destruct (Js.gt _ _); [|done].
  by apply (planSellActions_keeps_error ship
              (set_currentTask "Analyzing trade opportunities" state)).
Qed.

Lemma planContract_keeps_error (ship : Ship) (contracts : list Contract)
    (state : AutomationState) (queue : list ActionStep) :
  is_Some (errorMessage state) →
  is_Some (errorMessage (planContract ship contracts state queue).1).
Proof.
  intros He. unfold planContract.
  destruct (List.find _ contracts) as [c|]; [|done].
  set (acc := (set_currentTask _ state, queue)).
  assert (Hacc : is_Some (errorMessage acc.1)) by done.
  clearbody acc. revert acc Hacc.
  induction (default [] (deliver_terms c)) as [|d ds IH]; intros acc Hacc; simpl; [done|].
  apply IH. destruct acc as [st q]. unfold planDeliverable.
  destruct (Js.gt _ 0); [|done]. by destruct (Js.gt _ 0).
Qed.

Lemma whenState_stable (P : Orchestrator → Prop) (sym : string)
    (body : AutomationState → M unit) :
  (∀ st, preserves P (body st)) → preserves P (whenState sym body).
Proof.
  intros Hbody. unfold whenState. apply preserves_bind; [apply preserves_gets|].
  intros [st|]; [apply Hbody|apply preserves_ret].
Qed.

Section Stable.
Variable P : Orchestrator → Prop.
Hypothesis P_log : ∀ e o, P o → P (log e o).
Hypothesis P_queues : ∀ f o, P o → P (with_queues f o).
Hypothesis P_storage : ∀ v o, P o → P (with_localStorage v o).
Hypothesis P_alter : ∀ k f o,
  (∀ s, automationStates o !! k = Some s →
        is_Some (errorMessage s) → is_Some (errorMessage (f s))) →
  P o → P (with_states (alter f k) o).

Lemma stable_logs (evs : list Event) (o : Orchestrator) : P o → P (logs evs o).
Proof.
  intros Ho. induction evs as [|e evs IH] using rev_ind.
  - destruct o. unfold logs. simpl. by rewrite app_nil_r.
  - replace (logs (evs ++ [e]) o) with (log e (logs evs o)); [by apply P_log|].
    unfold log, logs. simpl. by rewrite app_assoc.
Qed.

Lemma stable_modifyState (k : string) (f : AutomationState → AutomationState) :
  (∀ s, is_Some (errorMessage s) → is_Some (errorMessage (f s))) →
  preserves P (modifyState k f).
Proof. intros Hf w o Ho. apply P_alter; [|done]. intros s _. apply Hf. Qed.

Lemma stable_saveStates : preserves P saveStates.
Proof. intros w o Ho. by apply P_storage. Qed.

Lemma stable_executeAction (ship : Ship) (a : ActionStep) :
  preserves P (executeAction ship a).
Proof.
  intros w o Ho. destruct (executeAction_frame w ship a o) as (success & calls & -> & _).
  by apply stable_logs.
Qed.

Lemma stable_executeHead (ship : Ship) (state : AutomationState) :
  preserves P (executeHead ship state).
Proof.
  unfold executeHead. apply preserves_bind; [apply preserves_gets|].
  intros [|a rest]; [apply preserves_ret|].
  apply preserves_bind; [apply preserves_modify; intros o; apply P_log|]. intros _.
  apply preserves_bind; [apply stable_executeAction|].
  intros [|].
  - apply preserves_bind; [apply preserves_modify; intros o; apply P_queues|]. intros _.
    apply preserves_bind; [by intros w o Ho|]. intros t.
    by apply stable_modifyState.
  - apply preserves_bind; [apply preserves_modify; intros o; apply P_queues|]. intros _.
    destruct (maxRetries a <=? retries a + 1); [|apply preserves_ret].
    apply preserves_bind; [apply preserves_modify; intros o; apply P_queues|]. intros _.
    apply stable_modifyState. intros s _. by eexists.
Qed.

Lemma stable_planNextActions (ship : Ship) (state : AutomationState) :
  preserves P (planNextActions ship state).
Proof.
  intros w o Ho. unfold planNextActions. unfold_M. simpl.
  set (sym := shipSymbol state).
  set (queue := default [] (actionQueues o !! sym)).
  set (current := default state (automationStates o !! sym)).
  assert (Hfinish : ∀ (plan : Plan) (o' : Orchestrator),
             P o' → automationStates o' = automationStates o →
             (is_Some (errorMessage current) → is_Some (errorMessage plan.1)) →
             P (with_queues <[sym := plan.2]>
                  (with_states (alter (λ _, plan.1) sym) o'))).
  { intros plan o' Ho' Hsame Hkept. apply P_queues. apply P_alter; [|done].
    intros s Hs He. rewrite Hsame in Hs. apply Hkept. unfold current. by rewrite Hs. }
  destruct (behavior state); simpl.
  - apply (Hfinish (planMiningActions ship current queue) o Ho eq_refl).
    apply planMiningActions_keeps_error.
  - apply (Hfinish (planTradingActions ship current queue) o Ho eq_refl).
    apply planTradingActions_keeps_error.
  - unfold planContractActions, getContracts. unfold_M.
    destruct (contracts_reply w) as [e|contracts]; simpl.
    + apply (Hfinish (set_errorMessage "Failed to plan contract actions"
                        (set_status error (set_currentTask "Checking active contracts" current)),
                      queue) (log (Gateway GetContracts) o)); [by apply P_log|done|].
      intros _. by eexists.
    + apply (Hfinish (planContract ship contracts
                        (set_currentTask "Checking active contracts" current) queue)
               (log (Gateway GetContracts) o)); [by apply P_log|done|].
      apply (planContract_keeps_error ship contracts
               (set_currentTask "Checking active contracts" current) queue).
  - by apply (Hfinish (current, queue) o Ho eq_refl).
Qed.

Lemma stable_processShipAutomation (state : AutomationState) :
  preserves P (processShipAutomation state).
Proof.
  unfold processShipAutomation. apply preserves_bind.
  - intros w o Ho. unfold getShip. unfold_M.
    destruct (ship_reply w (shipSymbol state)); by apply P_log.
  - intros ship. destruct (cooldownActive ship) as [remaining|].
    + apply preserves_bind; [by apply stable_modifyState|].
      intros _. apply stable_saveStates.
    + apply preserves_bind; [apply stable_executeHead|]. intros _.
      apply preserves_bind; [|intros _; apply stable_saveStates].
      unfold planIfEmpty. apply preserves_bind; [apply preserves_gets|].
      intros [|a rest]; [|apply preserves_ret].
      apply preserves_bind; [apply preserves_modify; intros o; apply P_log|].
      intros _. apply stable_planNextActions.
Qed.

Lemma stable_tick : preserves P tick.
Proof.
  unfold tick. apply preserves_bind; [apply preserves_gets|]. intros active.
  apply preserves_forEach. intros state.
  apply preserves_try_catch; [apply stable_processShipAutomation|].
  intros e. apply preserves_bind; [|intros _; apply stable_saveStates].
  apply stable_modifyState. intros s _. by eexists.
Qed.

Lemma stable_control (op : Op) : is_start op = false → preserves P (perform op).
Proof.
  destruct op as [sym b p|sym|sym|sym|]; [discriminate|..]; intros _; simpl.
  - apply whenState_stable. intros _.
    apply preserves_bind; [by apply stable_modifyState|]. intros _.
    apply preserves_bind; [by apply stable_modifyState|]. intros _.
    apply stable_saveStates.
  - apply whenState_stable. intros _.
    apply preserves_bind; [by apply stable_modifyState|]. intros _.
    apply preserves_bind; [by apply stable_modifyState|]. intros _.
    apply stable_saveStates.
  - apply whenState_stable. intros st. case_bool_decide; [|apply preserves_ret].
    apply preserves_bind; [by apply stable_modifyState|]. intros _.
    apply preserves_bind; [by apply stable_modifyState|]. intros _.
    apply stable_saveStates.
  - apply stable_tick.
Qed.

End Stable.

Lemma has_error_alter (sym k : string) (f : AutomationState → AutomationState)
    (o : Orchestrator) :
  (∀ s, automationStates o !! k = Some s →
        is_Some (errorMessage s) → is_Some (errorMessage (f s))) →
  has_error_message sym o → has_error_message sym (with_states (alter f k) o).
Proof.
  intros Hf (st & Hst & He). unfold has_error_message. simpl.
  destruct (decide (k = sym)) as [->|Hne].
  - exists (f st). rewrite lookup_alter_eq, Hst. split; [done|]. by apply Hf.
  - exists st. by rewrite lookup_alter_ne.
Qed.

Lemma startAutomation_outcome (w : World) (o : Orchestrator) (sym : string)
    (b : Behavior) (p : PolicyOverrides) :
  let o' := run (startAutomation sym b p) w o in
  automationStates o' =
    <[sym := {| shipSymbol := sym; behavior := b; status := running;
                currentTask := "Initializing automation"; progress := Js.Num 0;
                lastAction := Js.DateObj (clock w); errorMessage := None;
                policy := mergePolicy p |}]> (automationStates o) ∧
  actionQueues o' = <[sym := []]> (actionQueues o) ∧
  isRunning o' = true.
Proof.
  unfold startAutomation, start, saveStates, run. unfold_M. simpl.
  destruct (isRunning o) eqn:Hrun; simpl; by rewrite ?Hrun.
Qed.

(** X20: an error message, once recorded for a ship, is cleared by
    nothing but a new [startAutomation] of that ship: it survives every stop,
    pause, resume and tick and every start of another ship (so a ship that
    was paused and resumed after an error runs with the old message still
    shown), and it is gone after a start of the ship itself. *)
Theorem error_message_is_cleared_only_by_a_restart
    (w : World) (op : Op) (o : Orchestrator) (sym : string) :
  has_error_message sym o →
  if restarts sym op then ¬ has_error_message sym (run (perform op) w o)
  else has_error_message sym (run (perform op) w o).
Proof.
  intros Ho.
  assert (Hstable : is_start op = false → has_error_message sym (run (perform op) w o)).
  { intros Hop.
    apply (stable_control (has_error_message sym)); try done.
    intros k f o'. apply has_error_alter. }
  destruct op as [s b p|s|s|s|]; [|by apply Hstable..].
  clear Hstable. simpl.
  destruct (startAutomation_outcome w o s b p) as (Hstates & _ & _).
  case_bool_decide as Hs.
  - subst s. intros (st & Hst & He). rewrite Hstates, lookup_insert_eq in Hst.
    injection Hst as <-. by destruct He.
  - destruct Ho as (st & Hst & He). exists st. by rewrite Hstates, lookup_insert_ne.
Qed.

Lemma error_message_is_cleared_only_by_a_restart_witness :
  let o := run tick Fleet.offline Fleet.two in
  has_error_message "S1" o ∧
  has_error_message "S1" (run (perform (OpResume "S1")) Fleet.offline
                            (run (perform (OpPause "S1")) Fleet.offline o)).
Proof.
  intros o.
  assert (Ho : has_error_message "S1" o).
  { eexists. split; [vm_compute; reflexivity|]. vm_compute. by eexists. }
  split; [exact Ho|].
  apply (error_message_is_cleared_only_by_a_restart Fleet.offline (OpResume "S1")
           (run (perform (OpPause "S1")) Fleet.offline o) "S1").
  eexists. split; [vm_compute; reflexivity|]. vm_compute. by eexists.
Defined.

Lemma isRunning_after (w : World) (op : Op) (o : Orchestrator) :
  isRunning (run (perform op) w o) = isRunning o || is_start op.
Proof.
  destruct (is_start op) eqn:Hop.
  - destruct op as [s b p| | | |]; try discriminate.
    destruct (startAutomation_outcome w o s b p) as (_ & _ & Hrun).
    simpl. rewrite Hrun. by rewrite orb_true_r.
  - rewrite orb_false_r.
    by apply (stable_control (λ o', isRunning o' = isRunning o)).
Qed.

(** X21: the timer is started by [startAutomation] and by nothing else,
    and nothing stops it: after construction and any sequence of starts,
    stops, pauses, resumes and ticks, [isRunning] is true exactly when the
    sequence contains a [startAutomation].  In particular an orchestrator
    constructed over a stored document is not running, whatever the stored
    run statuses are, and stopping every ship does not stop the timer. *)
Theorem timer_runs_exactly_once_a_ship_was_started
    (w : World) (stored : option (list AutomationState)) (calls : list (World * Op)) :
  isRunning (performAll calls (run constructor w (fresh stored)))
    = existsb (λ call, is_start call.2) calls.
Proof.
  assert (Hall : ∀ o, isRunning (performAll calls o)
                      = isRunning o || existsb (λ call, is_start call.2) calls).
  { induction calls as [|[w' op] calls IH]; intros o; simpl.
    - by rewrite orb_false_r.
    - by rewrite IH, isRunning_after, orb_assoc. }
  rewrite Hall. unfold constructor, loadStates, run. unfold_M.
  by destruct stored.
Qed.

(** X22: [stopAutomation], [pauseAutomation] and [resumeAutomation] of a
    ship that the orchestrator does not know change nothing at all: no state
    is created for it, and nothing is written to the storage. *)
Theorem controls_ignore_an_unknown_ship
    (w : World) (op : Op) (o : Orchestrator) (sym : string) :
  automationStates o !! sym = None →
  control_of sym op = true →
  run (perform op) w o = o.
Proof.
  intros Hnone Hop.
  destruct op as [s b p|s|s|s|]; try discriminate; simpl in Hop;
    apply bool_decide_eq_true in Hop; subst s; simpl;
    unfold stopAutomation, pauseAutomation, resumeAutomation, whenState, run;
    unfold_M; by rewrite Hnone.
Qed.

Lemma controls_ignore_an_unknown_ship_witness :
  run (perform (OpPause "S9")) Fleet.offline Fleet.two = Fleet.two.
Proof.
  apply (controls_ignore_an_unknown_ship Fleet.offline (OpPause "S9") Fleet.two "S9");
    vm_compute; reflexivity.
Defined.

(** ** The automation panel's view *)

Lemma find_by_key (sym : string) (l : list (string * AutomationState)) :
  Forall (λ kv, shipSymbol kv.2 = kv.1) l →
  List.find (λ state, String.eqb (shipSymbol state) sym) l.*2
    = (list_to_map l : gmap string AutomationState) !! sym.
Proof.
  induction 1 as [|[k st] l Hk _ IH]; simpl; [done|].
  simpl in Hk. rewrite Hk.
  destruct (String.eqb_spec k sym) as [->|Hne].
  - by rewrite lookup_insert_eq.
  - by rewrite lookup_insert_ne.
Qed.

(** X23: the automation panel, which polls [getAllAutomationStates()]
    and searches the array for the ship symbol, finds for every ship exactly
    the state that the orchestrator holds for it under that key, and none
    for a ship without one. *)
Theorem panel_finds_the_state_of_each_ship (o : Orchestrator) (sym : string) :
  reachable o →
  getShipAutomationState (getAllAutomationStates o) sym = getAutomationState sym o.
Proof.
  intros Hreach. destruct (reachable_Inv o Hreach) as [Hkeyed _].
  unfold getShipAutomationState, getAllAutomationStates, getAutomationState, values.
  rewrite find_by_key.
  - by rewrite list_to_map_to_list.
  - apply Forall_forall. intros [k st] Hin. simpl.
    apply elem_of_map_to_list in Hin. by apply Hkeyed.
Qed.

Lemma panel_finds_the_state_of_each_ship_witness :
  getShipAutomationState (getAllAutomationStates Sample.afterFirstTick) "S1"
    = getAutomationState "S1" Sample.afterFirstTick.
Proof.
  apply (panel_finds_the_state_of_each_ship Sample.afterFirstTick "S1"
           (reachable_op _ _ _ (reachable_op _ _ _ (reachable_new _ _)))).
Defined.

(** ** The rate limiter *)

Import RateLimiter.

Lemma inWindow_spec (now time : Z) : inWindow now time = true ↔ now - time < windowMs.
Proof. unfold inWindow. by rewrite bool_decide_eq_true. Qed.

(** Filtering at a later time makes an earlier filtering redundant. *)
Lemma filter_later (t now : Z) (l : list Z) :
  t ≤ now →
  filter (λ time, inWindow now time = true) (filter (λ time, inWindow t time = true) l)
    = filter (λ time, inWindow now time = true) l.
Proof.
  intros Hle. apply list_filter_filter_l. intros time.
  rewrite !inWindow_spec. lia.
Qed.

Lemma oldest_in (requests : list Z) (m : Z) :
  oldest requests = Some m → m ∈ requests ∧ Forall (λ time, m ≤ time) requests.
Proof.
  destruct requests as [|time times]; [discriminate|]. simpl. intros [= <-].
  revert time. induction times as [|x times IH]; intros time; simpl.
  - split; [apply list_elem_of_here|]. by repeat constructor.
  - destruct (IH (Z.min time x)) as [Hin Hall].
    apply Forall_cons in Hall as [Hmin Hall]. split.
    + apply elem_of_cons in Hin as [Heq|Hin].
      * rewrite Heq. destruct (Z.min_spec time x) as [[_ ->]|[_ ->]].
        -- apply list_elem_of_here.
        -- apply list_elem_of_further, list_elem_of_here.
      * by apply list_elem_of_further, list_elem_of_further.
    + constructor; [lia|]. constructor; [lia|done].
Qed.

Lemma pass_cases (now : Z) (requests : list Z) :
  let kept := filter (λ time, inWindow now time = true) requests in
  ((length kept < 2)%nat ∧ pass now requests = Granted (kept ++ [now])) ∨
  ((2 ≤ length kept)%nat ∧
   ∃ m, oldest kept = Some m ∧ pass now requests = Again (windowMs - (now - m) + 10) kept).
Proof.
  intros kept. unfold pass. fold kept. unfold maxRequests.
  case_bool_decide as Hlen.
  - right. split; [done|].
    destruct kept as [|time times] eqn:Hkept; [simpl in Hlen; lia|].
    by eexists.
  - left. split; [lia|done].
Qed.

Lemma app_two_inv (l l' : list Z) (a b x : Z) :
  l ++ [a; b] = l' ++ [x] → l' = l ++ [a] ∧ x = b.
Proof.
  change (l ++ [a; b]) with (l ++ [a] ++ [b]). rewrite app_assoc.
  intros Heq. by apply app_inj_tail in Heq as [-> ->].
Qed.

Lemma consistent_later (t now : Z) (granted requests : list Z) :
  t ≤ now → consistent t granted requests →
  consistent now granted (filter (λ time, inWindow now time = true) requests).
Proof.
  intros Hle (-> & Hbound & Hasc & Hspaced). split; [by apply filter_later|].
  split; [|done]. eapply Forall_impl; [exact Hbound|]. simpl. lia.
Qed.

Lemma consistent_grant (now : Z) (granted requests : list Z) :
  consistent now granted requests → (length requests < 2)%nat →
  consistent now (granted ++ [now]) (requests ++ [now]).
Proof.
  intros (-> & Hbound & Hasc & Hspaced) Hlen. split; [|split; [|split]].
  - rewrite filter_app. f_equal.
    rewrite filter_cons_True; [done|]. apply inWindow_spec. unfold windowMs. lia.
  - apply Forall_app. split; [done|]. by repeat constructor.
  - intros before a b after Heq.
    destruct after as [|x after _] using rev_ind.
    + symmetry in Heq. apply app_two_inv in Heq as [-> ->].
      rewrite Forall_app in Hbound. destruct Hbound as [_ Ha].
      by apply Forall_cons in Ha as [Ha _].
    + change (before ++ a :: b :: after ++ [x])
        with (before ++ (a :: b :: after) ++ [x]) in Heq.
      rewrite app_assoc in Heq. apply app_inj_tail in Heq as [-> _].
      by apply (Hasc before a b after).
  - intros before a b c after Heq.
    destruct after as [|x after _] using rev_ind.
    + change (before ++ [a; b; c]) with (before ++ [a; b] ++ [c]) in Heq.
      rewrite app_assoc in Heq. apply app_inj_tail in Heq as [-> <-].
      destruct (decide (a + windowMs ≤ now)) as [|Hnear]; [done|]. exfalso.
      pose proof (Hasc before a b [] eq_refl) as Hab.
      rewrite Forall_app in Hbound. destruct Hbound as [_ Hb].
      apply Forall_cons in Hb as [_ Hb]. apply Forall_cons in Hb as [Hb _].
      rewrite filter_app, length_app in Hlen.
      rewrite filter_cons_True in Hlen by (apply inWindow_spec; lia).
      rewrite filter_cons_True in Hlen by (apply inWindow_spec; lia).
      simpl in Hlen. lia.
    + change (before ++ a :: b :: c :: after ++ [x])
        with (before ++ (a :: b :: c :: after) ++ [x]) in Heq.
      rewrite app_assoc in Heq. apply app_inj_tail in Heq as [-> _].
      by apply (Hspaced before a b c after).
Qed.

Lemma passes_spaced (times : list Z) (t : Z) (granted requests : list Z) :
  StronglySorted Z.le (t :: times) →
  consistent t granted requests →
  spaced (granted ++ (passes times requests).1) ∧
  (length (passes times requests).2 ≤ max 2 (length requests))%nat.
Proof.
  revert t granted requests.
  induction times as [|now later IH]; intros t granted requests Hsorted Hcons.
  - simpl. rewrite app_nil_r. split; [apply Hcons|lia].
  - apply StronglySorted_inv in Hsorted as [Hrest Ht].
    apply Forall_cons in Ht as [Hle Ht].
    pose proof (consistent_later t now granted requests Hle Hcons) as Hnow.
    pose proof (length_filter (λ time, inWindow now time = true) requests) as Hshort.
    simpl. destruct (pass_cases now requests) as [[Hlen ->]|(Hlen & m & _ & ->)].
    + apply consistent_grant in Hnow; [|done].
      destruct (IH now _ _ Hrest Hnow) as [Hspaced Hfinal].
      destruct (passes later _) as [more final]. simpl in *.
      rewrite <- app_assoc in Hspaced. split; [done|].
      rewrite length_app in Hfinal. simpl in Hfinal. lia.
    + destruct (IH now _ _ Hrest Hnow) as [Hspaced Hfinal].
      split; [done|]. lia.
Qed.

(** X24: the limiter lets through at most two requests per second,
    whatever the number of callers and however their waits interleave: if
    the clock does not run backwards then, of any three requests let through
    in a row, the third comes at least 1000 ms after the first; the list of
    recorded times never grows beyond two; and the limit is never found
    reached on an empty list. *)
Theorem at_most_two_requests_per_second (times : list Z) :
  StronglySorted Z.le times →
  spaced (passes times []).1 ∧
  (length (passes times []).2 ≤ 2)%nat ∧
  ∀ now requests, pass now requests ≠ Never.
Proof.
  intros Hsorted.
  assert (Hnever : ∀ now requests, pass now requests ≠ Never).
  { intros now requests.
    by destruct (pass_cases now requests) as [[_ ->]|(_ & m & _ & ->)]. }
  cut (spaced (passes times []).1 ∧ (length (passes times []).2 ≤ 2)%nat);
    [intros [Hspaced Hshort]; by repeat split|].
  clear Hnever.
  destruct times as [|now later]; [split; [|simpl; lia]|].
  - intros before a b c after Heq. by destruct before.
  - assert (Hstart : consistent now [] []).
    { split; [done|]. split; [constructor|]. split.
      - intros before a b after Heq. by destruct before.
      - intros before a b c after Heq. by destruct before. }
    apply (passes_spaced (now :: later) now [] []); [|done].
    constructor; [done|]. constructor; [lia|].
    by apply StronglySorted_inv in Hsorted as [_ Hall].
Qed.

Lemma at_most_two_requests_per_second_witness :
  (passes [0; 100; 200; 1110; 1120; 1130] []).1 = [0; 100; 1110; 1120] ∧
  spaced (passes [0; 100; 200; 1110; 1120; 1130] []).1.
Proof.
  split; [vm_compute; reflexivity|].
  apply (proj1 (at_most_two_requests_per_second [0; 100; 200; 1110; 1120; 1130]
                  ltac:(repeat constructor; lia))).
Defined.

(** X25: a single caller waits at most once.  With at most two recorded
    times, none in the future, [waitForSlot] lets the request through at once
    when fewer than two of them are less than a second old; otherwise it
    sleeps once, for more than 10 ms and at most 1010 ms, and lets the
    request through when it wakes up.  Either way the time is recorded after
    the recorded times that are still less than a second old, of which there
    is at most one. *)
Theorem waitForSlot_waits_at_most_once
    (late : Z) (lates : list Z) (now : Z) (requests : list Z) :
  (length requests ≤ 2)%nat →
  Forall (λ time, time ≤ now) requests →
  0 ≤ late →
  ∃ t, waitForSlot (late :: lates) now requests
         = Some (t, filter (λ time, inWindow t time = true) requests ++ [t]) ∧
       (length (filter (λ time, inWindow t time = true) requests) < 2)%nat ∧
       (if bool_decide (length (filter (λ time, inWindow now time = true) requests) < 2)%nat
        then t = now
        else now + 10 < t - late ≤ now + 1010).
Proof.
  intros Hlen Hpast Hlate.
  pose proof (length_filter (λ time, inWindow now time = true) requests) as Hshort.
  unfold waitForSlot at 1.
  destruct (pass_cases now requests) as [[Hfew ->]|(Hmany & m & Hm & ->)]; cbv zeta in *.
  - exists now. by rewrite bool_decide_eq_true_2.
  - rewrite bool_decide_eq_false_2 by lia.
    set (kept := filter (λ time, inWindow now time = true) requests) in *.
    destruct (oldest_in kept m Hm) as [Hin _].
    assert (Hwindow : now - m < windowMs ∧ m ≤ now).
    { unfold kept in Hin. apply list_elem_of_filter in Hin as [Hw Hin].
      apply inWindow_spec in Hw. split; [done|].
      rewrite Forall_forall in Hpast. by apply Hpast. }
    unfold windowMs in *. unfold resumed. rewrite bool_decide_eq_true_2 by lia.
    set (t := now + (1000 - (now - m) + 10) + late).
    exists t.
    assert (Hdrop : (length (filter (λ time, inWindow t time = true) kept) < length kept)%nat).
    { apply (length_filter_lt _ _ m); [done|].
      rewrite inWindow_spec. unfold windowMs, t. lia. }
    assert (Hsame : filter (λ time, inWindow t time = true) kept
                    = filter (λ time, inWindow t time = true) requests).
    { apply filter_later. unfold t. lia. }
    split; [|split; [rewrite <- Hsame; lia|unfold t; lia]].
    destruct lates as [|late' lates'].
    + simpl. destruct (pass_cases t kept) as [[_ ->]|(Hmany' & _)]; cbv zeta in *; [|lia].
      by rewrite Hsame.
    + simpl. destruct (pass_cases t kept) as [[_ ->]|(Hmany' & _)]; cbv zeta in *; [|lia].
      by rewrite Hsame.
Qed.

Lemma waitForSlot_waits_at_most_once_witness :
  waitForSlot [3] 200 [0; 100] = Some (1013, [100; 1013]) ∧
  ∃ t, waitForSlot [3] 200 [0; 100]
         = Some (t, filter (λ time, inWindow t time = true) [0; 100] ++ [t]) ∧
       (length (filter (λ time, inWindow t time = true) [0%Z; 100%Z]) < 2)%nat ∧
       200 + 10 < t - 3 ≤ 200 + 1010.
Proof.
  split; [vm_compute; reflexivity|].
  apply (waitForSlot_waits_at_most_once 3 [] 200 [0; 100]
           ltac:(simpl; lia) ltac:(repeat constructor; lia) ltac:(lia)).
Defined.

(** ** The token store *)

Lemma addAgentToken_agents (agent : Api.AgentTokenEntry) (store : Api.TokenStore) :
  Api.agents (Api.addAgentToken agent store) =
    (fix add (l : list Api.AgentTokenEntry) : list Api.AgentTokenEntry :=
       match l with
       | [] => [agent]
       | a :: l' => if String.eqb (Api.symbol a) (Api.symbol agent)
                    then agent :: l' else a :: add l'
       end) (Api.agents store).
Proof.
  unfold Api.addAgentToken. simpl.
  induction (Api.agents store) as [|a l IH]; simpl; [done|].
  destruct (String.eqb (Api.symbol a) (Api.symbol agent)); [done|].
  rewrite <- IH. by destruct (Api.findIndex _ l).
Qed.

Lemma find_after_add (agent : Api.AgentTokenEntry) (store : Api.TokenStore) (sym : string) :
  List.find (λ a, String.eqb (Api.symbol a) sym)
      (Api.agents (Api.addAgentToken agent store))
    = if String.eqb (Api.symbol agent) sym then Some agent
      else List.find (λ a, String.eqb (Api.symbol a) sym) (Api.agents store).
Proof.
  rewrite addAgentToken_agents.
  induction (Api.agents store) as [|a l IH]; simpl.
  - by destruct (String.eqb (Api.symbol agent) sym).
  - destruct (String.eqb_spec (Api.symbol a) (Api.symbol agent)) as [Heq|Hne]; simpl.
    + rewrite Heq. by destruct (String.eqb (Api.symbol agent) sym).
    + destruct (String.eqb_spec (Api.symbol a) sym) as [Hsym|Hsym].
      * subst sym. by rewrite (proj2 (String.eqb_neq _ _)) by done.
      * exact IH.
Qed.

(** X26: adding an agent's token replaces the entry of that agent or
    appends one, and touches no other agent: afterwards, with that agent
    current, requests are signed with the new token (when symbol and token
    are not empty); with any other agent current they are signed as before;
    the list grows by at most one entry and agent symbols that were unique
    stay unique. *)
Theorem added_token_is_the_one_used
    (agent : Api.AgentTokenEntry) (store : Api.TokenStore) (sym : string) :
  let store' := Api.addAgentToken agent store in
  Api.getCurrentAgentToken (Api.setCurrentAgent sym store') =
    (if String.eqb (Api.symbol agent) sym
     then if Js.truthy_string sym && Js.truthy_string (Api.token agent)
          then Some (Api.token agent) else None
     else Api.getCurrentAgentToken (Api.setCurrentAgent sym store)) ∧
  (length (Api.agents store) ≤ length (Api.agents store')
     ≤ S (length (Api.agents store)))%nat ∧
  (NoDup (Api.symbol <$> Api.agents store) → NoDup (Api.symbol <$> Api.agents store')).
Proof.
  intros store'. split; [|split].
  - unfold Api.getCurrentAgentToken.
    change (Api.currentAgentSymbol (Api.setCurrentAgent sym store')) with (Some sym).
    change (Api.currentAgentSymbol (Api.setCurrentAgent sym store)) with (Some sym).
    change (Api.agents (Api.setCurrentAgent sym store')) with (Api.agents store').
    change (Api.agents (Api.setCurrentAgent sym store)) with (Api.agents store).
    unfold store'. rewrite find_after_add.
    destruct (String.eqb (Api.symbol agent) sym); [|done].
    by destruct (Js.truthy_string sym).
  - unfold store'. rewrite addAgentToken_agents.
    induction (Api.agents store) as [|a l IH]; simpl; [lia|].
    destruct (String.eqb (Api.symbol a) (Api.symbol agent)); simpl; lia.
  - unfold store'. rewrite addAgentToken_agents.
    induction (Api.agents store) as [|a l IH]; simpl; intros Hnodup.
    + apply NoDup_singleton.
    + apply NoDup_cons in Hnodup as [Hnotin Hnodup].
      destruct (String.eqb_spec (Api.symbol a) (Api.symbol agent)) as [Heq|Hne]; simpl.
      * rewrite <- Heq. by apply NoDup_cons.
      * apply NoDup_cons. split; [|by apply IH].
        clear IH Hnodup. induction l as [|x l IH]; simpl.
        -- intros Hin%list_elem_of_singleton. done.
        -- apply not_elem_of_cons in Hnotin as [Hx Hnotin].
           destruct (String.eqb_spec (Api.symbol x) (Api.symbol agent)); simpl.
           ++ apply not_elem_of_cons. split; [done|exact Hnotin].
           ++ apply not_elem_of_cons. split; [done|by apply IH].
Qed.

Lemma added_token_is_the_one_used_witness :
  let old := {| Api.symbol := "AGENT1"; Api.name := "First"; Api.token := "t1" |} in
  let other := {| Api.symbol := "AGENT2"; Api.name := "Second"; Api.token := "t2" |} in
  let new := {| Api.symbol := "AGENT1"; Api.name := "First"; Api.token := "t3" |} in
  let store := {| Api.accountToken := None; Api.agents := [old; other];
                  Api.currentAgentSymbol := Some "AGENT1" |} in
  Api.agents (Api.addAgentToken new store) = [new; other] ∧
  NoDup (Api.symbol <$> Api.agents (Api.addAgentToken new store)).
Proof.
  intros old other new store. split; [vm_compute; reflexivity|].
  destruct (added_token_is_the_one_used new store "AGENT1") as (_ & _ & Hunique).
  apply Hunique. apply (bool_decide_unpack _). vm_compute. exact I.
Defined.

(** X27: on one and the same token store, whenever the token context
    reports no agent token, no agent request is signed; a signed agent
    request carries the token of an entry of the current agent, and then the
    context reports an agent token.  The account token is never used for an
    agent request. *)
Theorem agent_requests_are_signed_with_the_current_agent_token (store : Api.TokenStore) :
  (Api.hasAgentToken store = false → Api.authorization true store = None) ∧
  (∀ header, Api.authorization true store = Some header →
     Api.hasAgentToken store = true ∧
     ∃ current agent,
       Api.currentAgentSymbol store = Some current ∧
       agent ∈ Api.agents store ∧ Api.symbol agent = current ∧
       header = "Bearer " +:+ Api.token agent) ∧
  (∀ t, Api.authorization true (Api.setAccountToken t store)
        = Api.authorization true store).
Proof.
  assert (Hfind : ∀ current,
            existsb (λ a, String.eqb (Api.symbol a) current) (Api.agents store)
            = bool_decide (is_Some (List.find (λ a, String.eqb (Api.symbol a) current)
                                      (Api.agents store)))).
  { intros current. induction (Api.agents store) as [|a l IH]; simpl; [done|].
    by destruct (String.eqb (Api.symbol a) current). }
  unfold Api.authorization, Api.getCurrentAgentToken, Api.hasAgentToken.
  split; [|split; [|done]].
  - destruct (Api.currentAgentSymbol store) as [current|]; [|done].
    destruct (Js.truthy_string current); [|done].
    rewrite Hfind. intros Hnone%bool_decide_eq_false.
    destruct (List.find _ _) as [agent|]; [|done]. exfalso. apply Hnone. by eexists.
  - intros header.
    destruct (Api.currentAgentSymbol store) as [current|]; [|done].
    destruct (Js.truthy_string current); [|done].
    rewrite Hfind.
    destruct (List.find _ _) as [agent|] eqn:Hagent; [|done].
    destruct (Js.truthy_string (Api.token agent)); [|done].
    intros [= <-]. split; [apply bool_decide_eq_true; by eexists|].
    exists current, agent. split; [done|].
    apply find_some in Hagent as [Hin Heq]. apply String.eqb_eq in Heq.
    split; [by apply list_elem_of_In|done].
Qed.

Lemma agent_requests_are_signed_with_the_current_agent_token_witness :
  Api.authorization true (Api.setAccountToken "account" Api.emptyStore) = None.
Proof.
  destruct (agent_requests_are_signed_with_the_current_agent_token
              (Api.setAccountToken "account" Api.emptyStore)) as (Hnone & _ & _).
  apply Hnone. vm_compute. reflexivity.
Defined.

(** ** The dashboard's ship buttons *)

(** X28: a click on a ship button calls the gateway exactly when the
    user confirms and the automation's own precondition for the same step
    holds on the displayed ship, and then once; it never changes the number
    of ships shown nor any ship with another symbol; a rejected call leaves
    the list as it was; and once confirmed, the loading flag is down at the
    end on every path. *)
Theorem ship_button_calls_as_the_automation_would
    (b : Dashboard.Browser) (ship : Dashboard.FleetShip) (action : Dashboard.ShipAction)
    (s : Dashboard.Screen) :
  let s' := Dashboard.handleShipAction b ship action s in
  let confirmed :=
    Dashboard.confirm b (Dashboard.toUpperCase action +:+ " " +:+
                         Dashboard.registration_name ship +:+ "?") in
  let needed :=
    if confirmed
    then option_list (neededCall (Dashboard.ship_data ship) (Dashboard.asStep action))
    else [] in
  Dashboard.calls s' = Dashboard.calls s ++ needed ∧
  length (Dashboard.ships s') = length (Dashboard.ships s) ∧
  (∀ i other, Dashboard.ships s !! i = Some other →
     symbol (Dashboard.ship_data other) ≠ symbol (Dashboard.ship_data ship) →
     Dashboard.ships s' !! i = Some other) ∧
  ((∀ call updated, call ∈ needed → Dashboard.reply b call ≠ inr updated) →
   Dashboard.ships s' = Dashboard.ships s) ∧
  (if confirmed then Dashboard.loading s' = false else s' = s).
Proof.
  intros s' confirmed needed.
  assert (Hattempt : ∀ call success,
            let s1 := Dashboard.attempt b ship call success s in
            Dashboard.calls s1 = Dashboard.calls s ++ [call] ∧
            length (Dashboard.ships s1) = length (Dashboard.ships s) ∧
            (∀ i other, Dashboard.ships s !! i = Some other →
               symbol (Dashboard.ship_data other) ≠ symbol (Dashboard.ship_data ship) →
               Dashboard.ships s1 !! i = Some other) ∧
            ((∀ updated, Dashboard.reply b call ≠ inr updated) →
             Dashboard.ships s1 = Dashboard.ships s) ∧
            Dashboard.loading s1 = false).
  { intros call success. unfold Dashboard.attempt.
    destruct (Dashboard.reply b call) as [err|updated]; simpl.
    - done.
    - split; [done|]. split; [by rewrite length_fmap|]. split; [|split; [|done]].
      + intros i other Hi Hne. rewrite list_lookup_fmap, Hi. simpl.
        by rewrite (proj2 (String.eqb_neq _ _)) by done.
      + intros Hno. by destruct (Hno updated). }
  unfold s', needed, Dashboard.handleShipAction. fold confirmed.
  destruct confirmed; simpl; [|by rewrite app_nil_r].
  unfold neededCall.
  destruct action; simpl; case_bool_decide as Hnav; simpl;
    rewrite ?bool_decide_eq_true_2, ?bool_decide_eq_false_2 by done; simpl;
    lazymatch goal with
    | |- context [Dashboard.attempt _ _ ?call ?success _] =>
        destruct (Hattempt call success) as (Hc & Hl & Ho & Hr & Hf);
        repeat split; try done;
        intros Hno; apply Hr; intros updated; apply Hno; apply list_elem_of_here
    | |- _ => by rewrite app_nil_r
    end.
Qed.

Lemma ship_button_calls_as_the_automation_would_witness :
  let offline := {| Dashboard.confirm := λ _, true;
                    Dashboard.reply := λ _, inl (Js.Error "Network request failed") |} in
  let docked := {| Dashboard.ship_data := Sample.ship "X1-DF55-H1" DOCKED 40 10 100 100 [];
                   Dashboard.registration_name := "S1" |} in
  let s := {| Dashboard.ships := [docked]; Dashboard.loading := false;
              Dashboard.alerts := []; Dashboard.calls := [] |} in
  Dashboard.ships (Dashboard.handleShipAction offline docked Dashboard.Orbit s) = [docked].
Proof.
  intros offline docked s.
  destruct (ship_button_calls_as_the_automation_would offline docked Dashboard.Orbit s)
    as (_ & _ & _ & Hrejected & _).
  apply Hrejected. intros call updated _. discriminate.
Defined.
